(** * Flow Execution and Reliability Engine of the browser-automation skill

    A shallow embedding of the replay engine: the domain gate
    (lib/domain-allowlist.ts), the selector resolver (lib/selector-engine.ts),
    the retry primitive (lib/retry.ts), the step executor (bin/execute.ts,
    frame-aware variant) and the version scorer (lib/flow-versioning.ts,
    time-weighted variant); with them the rollback by success rate and the
    snapshot hash of lib/flow-versioning.ts, the placeholders and the masking
    of lib/param-injector.ts, the file names of lib/screenshot.ts, the
    selector cache (lib/selector-cache.ts), the task queue
    (lib/task-queue.ts) and the writing of a generated script
    (bin/generate.ts).

    Conventions of the embedding.
    - A JavaScript string is a Rocq [string], character for code unit: the
      strings of the model are those whose code units are all below 256
      (ASCII and Latin-1), and on them [toLowerCase] and [trim] are the
      functions of JavaScript.
    - A JavaScript number that holds a count or a time stamp is a [Z]; one
      that holds a rate, a score or a delay is a [Q] (exact arithmetic, no
      rounding of doubles).
    - Code that can throw returns a [Result]; code that talks to the browser
      or to the file system threads an explicit state. *)

From Stdlib Require Import ZArith QArith Qpower Qround Qminmax String Ascii List Lia Lqa Bool.
From stdpp Require Import base strings gmap list pretty.

Import ListNotations.
Local Open Scope string_scope.
Local Open Scope Z_scope.

(** ** JavaScript values, strings and completions *)

Module Js.

(** What a [throw] carries: an [Error] object with its message, [null],
    [undefined], or any other value (a string, a number, an object that is
    no [Error] and carries no [message]), kept as the string [String(v)]
    gives for it. *)
Inductive Thrown : Type :=
  | ErrorObj (message : string)
  | NonError (repr : string)
  | ThrownNull
  | ThrownUndefined.

(** [err instanceof Error ? err : new Error(String(err))] *)
Definition toError (t : Thrown) : Thrown :=
  match t with
  | ErrorObj m => ErrorObj m
  | NonError r => ErrorObj r
  | ThrownNull => ErrorObj "null"
  | ThrownUndefined => ErrorObj "undefined"
  end.

(** [e.message] for the [Error] object [e = toError t]. *)
Definition messageOfError (t : Thrown) : string :=
  match toError t with
  | ErrorObj m => m
  | _ => EmptyString
  end.

(** How a call ends: with a value or with a thrown value. *)
Inductive Result (A : Type) : Type :=
  | Ok (a : A)
  | Throw (t : Thrown).
Arguments Ok {A} a.
Arguments Throw {A} t.

(** The [TypeError] of reading a property of [null] or [undefined]. *)
Definition cannotRead (value property : string) : Thrown :=
  ErrorObj ("Cannot read properties of " ++ value ++ " (reading '" ++ property ++ "')").

(** [(err as Error).message], read off whatever was thrown: the message of
    an [Error], [undefined] (here [None]) for another value, and a
    [TypeError] thrown in its turn when the value is [null] or [undefined]. *)
Definition messageOf (t : Thrown) : Result (option string) :=
  match t with
  | ErrorObj m => Ok (Some m)
  | NonError _ => Ok None
  | ThrownNull => Throw (cannotRead "null" "message")
  | ThrownUndefined => Throw (cannotRead "undefined" "message")
  end.

Definition isOk {A} (r : Result A) : bool :=
  match r with Ok _ => true | _ => false end.

Definition isThrow {A} (r : Result A) : bool :=
  match r with Throw _ => true | _ => false end.

(** The double quote character, for messages that quote a name. *)
Definition dquote : string := String "034"%char EmptyString.

(** The letters A to Z. *)
Definition isUpper (c : ascii) : bool :=
  let n := nat_of_ascii c in (65 <=? n)%nat && (n <=? 90)%nat.

(** The capital letters among the code units below 256: A to Z and the
    capitals of Latin-1, U+00C0 to U+00DE without the sign U+00D7.  The small
    letter of each lies 32 above it. *)
Definition isCapital (c : ascii) : bool :=
  let n := nat_of_ascii c in
  isUpper c || ((192 <=? n)%nat && (n <=? 222)%nat && negb (n =? 215)%nat).

Definition lowerChar (c : ascii) : ascii :=
  if isCapital c then ascii_of_nat (nat_of_ascii c + 32) else c.

(** [String.prototype.toLowerCase] *)
Fixpoint toLowerCase (s : string) : string :=
  match s with
  | EmptyString => EmptyString
  | String c s' => String (lowerChar c) (toLowerCase s')
  end.

(** White space and line terminators removed by [trim], among the code
    units below 256: TAB, LF, VT, FF, CR, SPACE and the no-break space
    U+00A0. *)
Definition isWhite (c : ascii) : bool :=
  let n := nat_of_ascii c in
  ((9 <=? n)%nat && (n <=? 13)%nat) || (n =? 32)%nat || (n =? 160)%nat.

Fixpoint trimStart (s : string) : string :=
  match s with
  | EmptyString => EmptyString
  | String c s' => if isWhite c then trimStart s' else s
  end.

Fixpoint trimEnd (s : string) : string :=
  match s with
  | EmptyString => EmptyString
  | String c s' =>
      match trimEnd s' with
      | EmptyString => if isWhite c then EmptyString else String c EmptyString
      | t => String c t
      end
  end.

(** [String.prototype.trim] *)
Definition trim (s : string) : string := trimEnd (trimStart s).

(** [s.startsWith(p)] *)
Fixpoint startsWith (s p : string) {struct p} : bool :=
  match p with
  | EmptyString => true
  | String c p' =>
      match s with
      | EmptyString => false
      | String d s' => Ascii.eqb c d && startsWith s' p'
      end
  end.

(** [s.endsWith(x)]: some tail of [s] is [x]. *)
Fixpoint endsWith (s x : string) : bool :=
  String.eqb s x ||
  match s with
  | EmptyString => false
  | String _ s' => endsWith s' x
  end.

(** [s.slice(n)] for [n] within the string or past its end. *)
Fixpoint slice (n : nat) (s : string) : string :=
  match n with
  | O => s
  | S n' => match s with EmptyString => EmptyString | String _ s' => slice n' s' end
  end.

(** [xs.join(sep)] *)
Fixpoint join (sep : string) (xs : list string) : string :=
  match xs with
  | [] => ""
  | [x] => x
  | x :: rest => x ++ sep ++ join sep rest
  end.

(** [s.includes(x)] *)
Fixpoint includes (s x : string) : bool :=
  startsWith s x ||
  match s with
  | EmptyString => false
  | String _ s' => includes s' x
  end.

(** JavaScript truthiness of an optional string: [undefined] and the empty
    string are falsy. *)
Definition truthy (o : option string) : bool :=
  match o with
  | Some (String _ _) => true
  | _ => false
  end.

(** [a ?? b] on optional strings. *)
Definition nullish {A} (a : option A) (b : option A) : option A :=
  match a with Some _ => a | None => b end.

(** What [String] gives for a built-in function. *)
Definition nativeFunction (name : string) : string :=
  "function " ++ name ++ "() { [native code] }".

(** The properties an object literal, and an object read by [JSON.parse],
    inherits from [Object.prototype], each with what [String] gives for its
    value. *)
Definition objectPrototype : list (string * string) :=
  [("constructor", nativeFunction "Object");
   ("__defineGetter__", nativeFunction "__defineGetter__");
   ("__defineSetter__", nativeFunction "__defineSetter__");
   ("hasOwnProperty", nativeFunction "hasOwnProperty");
   ("__lookupGetter__", nativeFunction "__lookupGetter__");
   ("__lookupSetter__", nativeFunction "__lookupSetter__");
   ("isPrototypeOf", nativeFunction "isPrototypeOf");
   ("propertyIsEnumerable", nativeFunction "propertyIsEnumerable");
   ("toString", nativeFunction "toString");
   ("valueOf", nativeFunction "valueOf");
   ("__proto__", "[object Object]");
   ("toLocaleString", nativeFunction "toLocaleString")].

Definition inherited (key : string) : option string :=
  option_map snd (List.find (fun p => String.eqb (fst p) key) objectPrototype).

(** A record of strings as a JavaScript object: [String(obj[key])] when
    [key in obj], which holds for the entries of the object itself and for
    what it inherits. *)
Definition getProperty (obj : gmap string string) (key : string) : option string :=
  match obj !! key with
  | Some v => Some v
  | None => inherited key
  end.

(** [obj[key] = value] for a string [value].  The name [__proto__] reaches
    the setter of [Object.prototype], which ignores a string, unless the
    object has an entry of that name itself. *)
Definition setProperty (obj : gmap string string) (key value : string)
  : gmap string string :=
  if String.eqb key "__proto__" && negb (bool_decide (is_Some (obj !! key)))
  then obj
  else <[key := value]> obj.

End Js.

(** ** lib/domain-allowlist.ts: the navigation security gate *)

Module DomainAllowlist.
Import Js.

(** One turn of the loop of [isDomainAllowed]: does [pattern] let
    [hostname] through. *)
Definition patternMatches (hostname pattern : string) : bool :=
  let lower := trim (toLowerCase pattern) in
  if startsWith lower "*." then
    let domain := slice 2 lower in
    String.eqb hostname domain || endsWith hostname ("." ++ domain)
  else
    String.eqb hostname lower.

(** [for (const pattern of allowedDomains) { ... return true ... } return false] *)
Fixpoint matchPatterns (hostname : string) (allowedDomains : list string) : bool :=
  match allowedDomains with
  | [] => false
  | pattern :: rest =>
      if patternMatches hostname pattern then true
      else matchPatterns hostname rest
  end.

Section Gate.

  (** [new URL(url).hostname] of the platform: the host of [url], or the
      [TypeError] the constructor throws when [url] does not parse. *)
  Variable URL_hostname : string -> Result string.

Definition isDomainAllowed (url : string) (allowedDomains : list string)
    : Result bool :=
    if (length allowedDomains =? 0)%nat then Ok true
    else
      match URL_hostname url with
      | Throw _ => Ok false
      | Ok host => Ok (matchPatterns (toLowerCase host) allowedDomains)
      end.

Definition securityMessage (url : string) (allowedDomains : list string)
    (flowName : string) : string :=
    "[SECURITY] Navigation to " ++ url ++
    " is blocked by the domain allowlist for flow " ++ dquote ++ flowName ++
    dquote ++ ". " ++ "Allowed domains: " ++ join ", " allowedDomains.

Definition assertDomainAllowed (url : string) (allowedDomains : list string)
    (flowName : string) : Result unit :=
    match isDomainAllowed url allowedDomains with
    | Ok true => Ok tt
    | Ok false => Throw (ErrorObj (securityMessage url allowedDomains flowName))
    | Throw t => Throw t
    end.

End Gate.

(** A reader for URLs of the plain shape [scheme://[user@]host[:port][/...]],
    enough to run the gate on the URLs of the test-suite.  The properties of
    the gate are proved for any reader. *)
Fixpoint afterScheme (s : string) : option string :=
  if startsWith s "://" then Some (slice 3 s)
  else match s with
       | EmptyString => None
       | String _ s' => afterScheme s'
       end.

Definition isAuthorityEnd (c : ascii) : bool :=
  Ascii.eqb c "/" || Ascii.eqb c "?" || Ascii.eqb c "#".

Fixpoint takeAuthority (s : string) : string :=
  match s with
  | EmptyString => EmptyString
  | String c s' => if isAuthorityEnd c then EmptyString else String c (takeAuthority s')
  end.

Fixpoint dropUserinfo (s : string) : option string :=
  match s with
  | EmptyString => None
  | String c s' =>
      match dropUserinfo s' with
      | Some h => Some h
      | None => if Ascii.eqb c "@" then Some s' else None
      end
  end.

Fixpoint takeHost (s : string) : string :=
  match s with
  | EmptyString => EmptyString
  | String c s' => if Ascii.eqb c ":" then EmptyString else String c (takeHost s')
  end.

Definition plainHostname (url : string) : Result string :=
  match afterScheme url with
  | None => Throw (ErrorObj "Invalid URL")
  | Some rest =>
      let authority := takeAuthority rest in
      let hostport := match dropUserinfo authority with Some h => h | None => authority end in
      match takeHost hostport with
      | EmptyString => Throw (ErrorObj "Invalid URL")
      | h => Ok (toLowerCase h)
      end
  end.

(** What the gate's documentation promises for one normalised entry [e]:
    the host is [e] itself, or [e] is [*.<domain>] and the host is the bare
    domain or ends in [.<domain>]. *)
Definition entryPermits (host e : string) : Prop :=
  host = e \/
  exists domain, e = "*." ++ domain /\
    (host = domain \/ exists sub, host = sub ++ "." ++ domain).

(** An entry as the loop sees it: lower-cased, then trimmed. *)
Definition normalise (entry : string) : string := trim (toLowerCase entry).

End DomainAllowlist.

(** ** lib/step-types.ts: the data model the engine reads *)

Module StepTypes.

(** The kinds [executeStep] dispatches on; [other] is any kind a flow
    document may carry beyond them. *)
Inductive StepType : Type :=
  | navigate | click | type_ | select | check | upload | wait
  | keypress | scroll | frame_switch | tab_switch | script
  | other (name : string).

Definition typeName (t : StepType) : string :=
  match t with
  | navigate => "navigate" | click => "click" | type_ => "type"
  | select => "select" | check => "check" | upload => "upload"
  | wait => "wait" | keypress => "keypress" | scroll => "scroll"
  | frame_switch => "frame-switch" | tab_switch => "tab-switch"
  | script => "script" | other name => name
  end.

Record SelectorSet : Type := {
  testId : option string;
  aria : option string;
  css : option string;
  text : option string;
  xpath : option string;
  nthMatch : option Z
}.

Definition noSelectors : SelectorSet :=
  {| testId := None; aria := None; css := None; text := None;
     xpath := None; nthMatch := None |}.

Record RecordedStep : Type := {
  index : Z;
  type : StepType;
  selectors : SelectorSet;
  value : option string;
  key : option string;
  url : option string;
  frameSelector : option string;
  pageUrl : string;
  scriptPath : option string
}.

Record FlowMetadata : Type := {
  name : string;
  metadata_url : string;
  allowedDomains : option (list string)
}.

Record FlowDocument : Type := {
  metadata : FlowMetadata;
  steps : list RecordedStep
}.

Record StepError : Type := {
  step : Z;
  error_type : string;
  message : option string;
  screenshot : string;
  error_url : string;
  retriesAttempted : Z
}.

Record RunResult : Type := {
  success : bool;
  confirmation : string;
  flow : string;
  steps_completed : Z;
  steps_total : Z;
  screenshots : list string;
  error : option StepError
}.

Record RetryConfig : Type := {
  maxRetries : Z;
  backoffMs : Q;
  backoffMultiplier : Q;
  maxBackoffMs : Q
}.

Inductive StepStatus : Type := status_success | status_failure | status_skipped.

(** A log entry without its duration: clock readings are not modelled. *)
Record StepLogEntry : Type := {
  stepIndex : Z;
  entry_type : StepType;
  status : StepStatus;
  selector_used : option string;
  retries : Z;
  entry_error : option string;
  entry_screenshot : option string
}.

Record FlowVersion : Type := {
  version : Z;
  savedAt : Z;
  scriptFile : string;
  successRate : option Q;
  runCount : option Z
}.

End StepTypes.

(** ** lib/selector-engine.ts: the priority list of a SelectorSet *)

Module SelectorEngine.
Import Js StepTypes.

(** [if (x) result.push(f x)] for an optional string [x]. *)
Definition pushIf (x : option string) (f : string -> string) (result : list string)
  : list string :=
  match x with
  | Some (String c r) => result ++ [f (String c r)]
  | _ => result
  end.

Definition prioritizedSelectors (selectors : SelectorSet) : list string :=
  let result := [] in
  let result := pushIf (testId selectors) (fun x => x) result in
  let result := pushIf (aria selectors) (fun x => x) result in
  let result := pushIf (text selectors) (fun x => "text=" ++ x) result in
  let result := pushIf (css selectors) (fun x => x) result in
  let result := pushIf (xpath selectors) (fun x => "xpath=" ++ x) result in
  result.

(** [prioritizedSelectors(selectors)[0] ?? 'body'] *)
Definition bestSelector (selectors : SelectorSet) : string :=
  match prioritizedSelectors selectors with
  | s :: _ => s
  | [] => "body"
  end.

(** The strategies in the order of the data model's invariant, each with
    the candidate string it contributes. *)
Inductive Strategy : Type := ByTestId | ByAria | ByText | ByCss | ByXpath.

Definition strategyOrder : list Strategy := [ByTestId; ByAria; ByText; ByCss; ByXpath].

Definition candidateOf (selectors : SelectorSet) (s : Strategy) : option string :=
  match s with
  | ByTestId => if truthy (testId selectors) then testId selectors else None
  | ByAria => if truthy (aria selectors) then aria selectors else None
  | ByText => if truthy (text selectors)
              then option_map (fun x => "text=" ++ x) (text selectors) else None
  | ByCss => if truthy (css selectors) then css selectors else None
  | ByXpath => if truthy (xpath selectors)
               then option_map (fun x => "xpath=" ++ x) (xpath selectors) else None
  end.

(** The candidates of the strategies that are present, in the fixed order. *)
Definition presentInOrder (selectors : SelectorSet) : list string :=
  flat_map (fun s => match candidateOf selectors s with Some c => [c] | None => [] end)
           strategyOrder.

End SelectorEngine.

(** ** State and exceptions: the monad of effectful code *)

Module Eff.
Import Js.

Definition M (St A : Type) : Type := St -> St * Result A.

Definition ret {St A} (a : A) : M St A := fun s => (s, Ok a).

Definition throw {St A} (t : Thrown) : M St A := fun s => (s, Throw t).

Definition bind {St A B} (m : M St A) (k : A -> M St B) : M St B :=
  fun s => match m s with
           | (s', Ok a) => k a s'
           | (s', Throw t) => (s', Throw t)
           end.

(** [try { m } catch (e) { ... }]: the outcome of [m] as a value. *)
Definition settle {St A} (m : M St A) : M St (Result A) :=
  fun s => let (s', r) := m s in (s', Ok r).

(** [m.catch(() => d)] *)
Definition orElse {St A} (m : M St A) (d : A) : M St A :=
  fun s => match m s with
           | (s', Ok a) => (s', Ok a)
           | (s', Throw _) => (s', Ok d)
           end.

(** [try { m } finally { f }] where [f] may throw in its turn. *)
Definition finally {St A} (m : M St A) (f : M St unit) : M St A :=
  fun s => let (s1, r) := m s in
           match f s1 with
           | (s2, Ok _) => (s2, r)
           | (s2, Throw t) => (s2, Throw t)
           end.

Definition lift {St} (f : St -> St) : M St unit := fun s => (f s, Ok tt).

Definition liftResult {St A} (r : Result A) : M St A := fun s => (s, r).

End Eff.

Declare Scope eff_scope.
Delimit Scope eff_scope with eff.
Notation "x <- m ;; k" := (Eff.bind m (fun x => k))
  (at level 100, m at next level, right associativity) : eff_scope.
Notation "m ;;; k" := (Eff.bind m (fun _ => k))
  (at level 100, right associativity) : eff_scope.

(** ** lib/retry.ts: backoff and bounded retry *)

Module Retry.
Import Js StepTypes Eff.

Definition DEFAULT_RETRY_CONFIG : RetryConfig :=
  {| maxRetries := 3; backoffMs := 500; backoffMultiplier := 2;
     maxBackoffMs := 8000 |}.

(** [Math.min(config.backoffMs * Math.pow(config.backoffMultiplier, attempt),
    config.maxBackoffMs)] *)
Definition calcBackoff (attempt : Z) (config : RetryConfig) : Q :=
  let delay := (backoffMs config * Qpower (backoffMultiplier config) attempt)%Q in
  Qmin delay (maxBackoffMs config).

(** The delay as the design states it: the initial value scaled [n] times
    by the multiplier, capped by the ceiling. *)
Fixpoint scaled (initial multiplier : Q) (n : nat) : Q :=
  match n with
  | O => initial
  | S n' => (scaled initial multiplier n' * multiplier)%Q
  end.

Definition backoffFormula (config : RetryConfig) (n : nat) : Q :=
  Qmin (scaled (backoffMs config) (backoffMultiplier config) n) (maxBackoffMs config).

Inductive FailAction : Type := retry | skip | abort.

(** [(stepIndex, error, attempt) => 'retry' | 'skip' | 'abort'] *)
Definition OnStepFail : Type := Z -> Thrown -> Z -> FailAction.

Section WithRetry.

  Context {St T : Type}.

  (** [sleep(ms)]: a timer, which cannot fail. *)
  Variable sleep : Q -> St -> St.

  (** The [for] loop of [withRetry] from [attempt] on.  The loop ends by its
      condition [attempt <= config.maxRetries]; [fuel] bounds the number of
      turns and is never used up. *)
Fixpoint withRetryLoop (stepIndex : Z) (fn : M St T) (config : RetryConfig)
      (onStepFail : option OnStepFail) (fuel : nat) (attempt : Z)
      (lastError : Thrown) : M St (option T) :=
    if attempt <=? maxRetries config then
      match fuel with
      | O => throw lastError
      | S fuel' =>
          fun s =>
            match fn s with
            | (s1, Ok v) => (s1, Ok (Some v))
            | (s1, Throw err) =>
                let lastError := toError err in
                if attempt <? maxRetries config then
                  let action :=
                    match onStepFail with
                    | Some f => f stepIndex lastError attempt
                    | None => retry
                    end in
                  match action with
                  | abort => (s1, Throw lastError)
                  | skip => (s1, Ok None)
                  | retry =>
                      let delay := calcBackoff attempt config in
                      withRetryLoop stepIndex fn config onStepFail fuel'
                        (attempt + 1) lastError (sleep delay s1)
                  end
                else
                  withRetryLoop stepIndex fn config onStepFail fuel'
                    (attempt + 1) lastError s1
            end
      end
    else throw lastError.

  (** [withRetry(stepIndex, fn, config, onStepFail)]; [None] is the [null]
      of a skipped step. *)
Definition withRetry (stepIndex : Z) (fn : M St T) (config : RetryConfig)
      (onStepFail : option OnStepFail) : M St (option T) :=
    withRetryLoop stepIndex fn config onStepFail
      (Z.to_nat (maxRetries config + 1)) 0 (ErrorObj "Unknown error").

End WithRetry.

(** A mock in the manner of the test-suite: the operation under test and
    the timer, with the invocations counted and the delays recorded. *)
Record Mock (St : Type) : Type := {
  inner : St;
  calls : nat;
  sleeps : list Q
}.
Arguments inner {St} _.
Arguments calls {St} _.
Arguments sleeps {St} _.

Definition mockStart {St} (s : St) : Mock St :=
  {| inner := s; calls := 0; sleeps := [] |}.

Definition counted {St T} (fn : M St T) : M (Mock St) T :=
  fun m => let (s', r) := fn (inner m) in
           ({| inner := s'; calls := S (calls m); sleeps := sleeps m |}, r).

Definition recordedSleep {St} (ms : Q) (m : Mock St) : Mock St :=
  {| inner := inner m; calls := calls m; sleeps := sleeps m ++ [ms] |}.

(** What an invocation of [fn] in state [x] throws. *)
Definition thrownBy {St T} (fn : M St T) (x : St) : Thrown :=
  match snd (fn x) with
  | Throw e => e
  | Ok _ => ErrorObj EmptyString
  end.

(** The state in which the invocation number [k] (from zero) of [fn] starts,
    when nothing but [fn] touches the state. *)
Definition stateBefore {St T} (fn : M St T) (s : St) (k : nat) : St :=
  Nat.iter k (fun x => fst (fn x)) s.

Definition answers (cb : option OnStepFail) (idx : Z) (e : Thrown) (a : Z) : FailAction :=
  match cb with
  | Some f => f idx e a
  | None => retry
  end.

(** The mock of the test-suite that rejects every time. *)
Definition alwaysFails : M unit string :=
  fun u => (u, Throw (ErrorObj "always fails")).

End Retry.

(** ** lib/param-injector.ts: placeholder substitution *)

Module ParamInjector.
Import Js.

Definition isDigit (c : ascii) : bool :=
  let n := nat_of_ascii c in (48 <=? n)%nat && (n <=? 57)%nat.

Definition isLower (c : ascii) : bool :=
  let n := nat_of_ascii c in (97 <=? n)%nat && (n <=? 122)%nat.

(** The class [\w] *)
Definition isWordChar (c : ascii) : bool :=
  isUpper c || isLower c || isDigit c || Ascii.eqb c "_".

(** The longest run of word characters at the head of [s], and what follows. *)
Fixpoint wordRun (s : string) : string * string :=
  match s with
  | EmptyString => (EmptyString, EmptyString)
  | String c s' =>
      if isWordChar c then let (w, r) := wordRun s' in (String c w, r)
      else (EmptyString, s)
  end.

(** A match of [/\{\{(\w+)\}\}/] at the head of [s]: its key and its length. *)
Definition placeholderAt (s : string) : option (string * nat) :=
  if startsWith s "{{" then
    let (k, r) := wordRun (slice 2 s) in
    match k with
    | EmptyString => None
    | _ => if startsWith r "}}" then Some (k, (String.length k + 4)%nat) else None
    end
  else None.

(** [template.replace(/\{\{(\w+)\}\}/g, ...)], scanning from the left;
    [skip] characters of a match already replaced are passed over.  The
    callback tests [key in params], which also holds for the names that
    [params] inherits. *)
Fixpoint injectFrom (skip : nat) (template : string) (params : gmap string string)
  : string :=
  match template with
  | EmptyString => EmptyString
  | String c rest =>
      match skip with
      | S k => injectFrom k rest params
      | O =>
          match placeholderAt template with
          | Some (k, len) =>
              match getProperty params k with
              | Some v => v
              | None => "{{" ++ k ++ "}}"
              end ++ injectFrom (len - 1) rest params
          | None => String c (injectFrom 0 rest params)
          end
      end
  end.

Definition injectParams (template : string) (params : gmap string string) : string :=
  injectFrom 0 template params.

End ParamInjector.

(** ** The browser and the host system, as the engine calls them *)

Module Playwright.
Import Js StepTypes Eff.

(** [page.locator(sel).first()] or [page.frameLocator(f).locator(sel).first()] *)
Record Locator : Type := {
  inFrame : option string;
  selector : string
}.

(** What a script module exports: [typeof mod.default === 'function'],
    else [typeof mod.run === 'function'], else neither. *)
Inductive ScriptExports : Type := ExportsDefault | ExportsRun | ExportsNeither.

(** The calls the engine makes, indexed by what they give back.  Each may
    throw.  Console output is not modelled. *)
Inductive Call : Type -> Type :=
  (* page and element actions *)
  | Goto (url : string) : Call unit
  | Click (l : Locator) : Call unit
  | Fill (l : Locator) (v : string) : Call unit
  | SelectOption (l : Locator) (v : string) : Call unit
  | CheckBox (l : Locator) : Call unit
  | SetInputFiles (l : Locator) (path : string) : Call unit
  | KeyboardPress (k : string) : Call unit
  | MouseWheel (deltaY : string) : Call unit
  | WaitForPageEvent : Call unit
  | WaitForVisible (l : Locator) (timeout : Z) : Call unit
  | WaitForSelector (sel : string) (timeout : Z) : Call unit
  | WaitForURL (url : string) (timeout : Z) : Call unit
  | WaitForLoadState : Call unit
  | IsVisible (l : Locator) (timeout : Z) : Call bool
  | TextContentBody : Call (option string)
  (* script steps and the login sub-flow *)
  | ImportScript (path : string) : Call ScriptExports
  | CallScript (path : string) (entry : ScriptExports) : Call unit
  | RunAuthFlow (flowName loginUrl : string) : Call unit
  (* browser life cycle *)
  | ConnectOverCDP (wsUrl : string) : Call unit
  | AttachContext (fresh : bool) (tabUrl : option string) : Call bool
  | LaunchContext (headless : bool) : Call unit
  | AddCookies (cookies : string) : Call unit
  | TracingStart : Call unit
  | NewPage : Call unit
  | ContextCookies : Call string
  | TracingStop (path : string) : Call unit
  | ContextClose : Call unit
  (* files of the flow *)
  | Mkdir (path : string) : Call unit
  | RunPreflight (flowDir flowName url : string) : Call (list string)
  | LoadCookies (flowName : string) : Call (option string)
  | SaveCookies (flowName cookies : string) : Call unit
  | CaptureScreenshot (dir label : string) : Call string
  | SaveRunLog (logsDir flowName : string) (ok : bool) (entries : list StepLogEntry) : Call unit
  | RecordRunResult (flowDir : string) (ok : bool) : Call unit.

Inductive Event : Type :=
  | Called {R : Type} (c : Call R)
  | Slept (ms : Q).

(** The world the engine runs in. *)
Class Platform : Type := {
  World : Type;
  (** the effect and the outcome of a call *)
  handle : forall R, Call R -> World -> World * Result R;
  (** the passing of time during [setTimeout] *)
  elapse : Q -> World -> World;
  (** [page.url()] *)
  currentUrl : World -> string;
  (** [new URL(u).hostname] *)
  URL_hostname : string -> Result string;
  (** [loadFlow(name)] of bin/list.ts *)
  loadFlow : string -> World -> option FlowDocument;
  (** [getFlowDir(name)] of bin/list.ts *)
  getFlowDir : string -> string
}.

(** The world together with the record of what was asked of it. *)
Record Machine `{Platform} : Type := {
  world : World;
  trace : list Event
}.

Section Primitives.
  Context `{Platform}.

Definition call {R} (c : Call R) : M Machine R :=
    fun m => let (w, r) := handle R c (world m) in
             ({| world := w; trace := trace m ++ [Called c] |}, r).

Definition sleep (ms : Q) (m : Machine) : Machine :=
    {| world := elapse ms (world m); trace := trace m ++ [Slept ms] |}.

Definition page_url (m : Machine) : string := currentUrl (world m).

End Primitives.

(** The frame a recorded call addresses: [Some f] for an element lookup
    (with [f] its frame scope), [None] for any other call. *)
Definition lookupScope (e : Event) : option (option string) :=
  match e with
  | Called c =>
      match c with
      | Click l | Fill l _ | SelectOption l _ | CheckBox l | SetInputFiles l _
      | WaitForVisible l _ | IsVisible l _ => Some (inFrame l)
      | WaitForSelector _ _ => Some None
      | _ => None
      end
  | Slept _ => None
  end.

End Playwright.

(** ** lib/retry.ts: resilientLocator *)

Module Resolver.
Import Js StepTypes Eff Retry Playwright SelectorEngine.
Local Open Scope eff_scope.

Section WithPlatform.
  Context `{Platform}.

Definition pageLocator (sel : string) : Locator :=
    {| inFrame := None; selector := sel |}.

  (** [for (const selector of ordered) { try { ... waitFor ...; return locator }
      catch { } }]: the first candidate that becomes visible within 5 s. *)
Fixpoint firstVisible (ordered : list string) : M Machine (option Locator) :=
    match ordered with
    | [] => ret None
    | sel :: rest =>
        r <- settle (call (WaitForVisible (pageLocator sel) 5000)) ;;
        match r with
        | Ok _ => ret (Some (pageLocator sel))
        | Throw _ => firstVisible rest
        end
    end.

Definition noSelectorMatched (ordered : list string) : Thrown :=
    ErrorObj ("No selector matched for step. Tried: " ++ join ", " ordered).

  (** The outer [for] loop from [attempt] on; it ends by its condition
    [attempt <= config.maxRetries], [fuel] bounding the number of rounds. *)
Fixpoint resilientRounds (ordered : list string) (config : RetryConfig)
      (fuel : nat) (attempt : Z) (lastError : Thrown) : M Machine Locator :=
    if attempt <=? maxRetries config then
      match fuel with
      | O => throw lastError
      | S fuel' =>
          found <- firstVisible ordered ;;
          match found with
          | Some locator => ret locator
          | None =>
              let lastError := noSelectorMatched ordered in
              (if attempt <? maxRetries config
               then lift (sleep (calcBackoff attempt config))
               else ret tt) ;;;
              resilientRounds ordered config fuel' (attempt + 1) lastError
          end
      end
    else throw lastError.

Definition resilientLocator (selectors : SelectorSet) (config : RetryConfig)
    : M Machine Locator :=
    let ordered := prioritizedSelectors selectors in
    resilientRounds ordered config (Z.to_nat (maxRetries config + 1)) 0
      (ErrorObj "No selectors available").

End WithPlatform.

End Resolver.

(** ** bin/execute.ts: the step executor (frame-aware variant) *)

Module Executor.
Import Js StepTypes Eff Retry Playwright SelectorEngine Resolver.
Local Open Scope eff_scope.

Record ExecuteOptions : Type := {
  opt_name : string;
  params : gmap string string;
  json : bool;
  dryRun : bool;
  lightweight : bool;
  cdpUrl : option string;
  headed : bool;
  delayBetween : Q;
  tabUrl : option string;
  fresh : bool
}.

(** The variables of [execute] that the loop over the steps updates. *)
Record RunState : Type := {
  stepsCompleted : Z;
  stepError : option StepError;
  activeFrameSelector : option string;
  shots : list string;
  logged : list StepLogEntry
}.

Definition initialRunState : RunState :=
  {| stepsCompleted := 0; stepError := None; activeFrameSelector := None;
     shots := []; logged := [] |}.

(** How [execute] ends for its caller. *)
Inductive Outcome : Type :=
  | Returned (r : RunResult)
  | Threw (t : Thrown)
  | Exited (code : Z).

(** [path.join(a, b)] for a relative [b] without dots. *)
Definition joinPath (a b : string) : string := a ++ "/" ++ b.

(** [path.isAbsolute(p)] on POSIX *)
Definition isAbsolute (p : string) : bool := startsWith p "/".

Definition orDefault (o : option string) (d : string) : string :=
  match o with Some s => s | None => d end.

Definition authPatterns : list string := ["/login"; "/signin"; "/sign-in"; "/auth/login"].

Definition failPatterns : list string :=
  ["session expired"; "please log in"; "unauthorized"; "access denied"].

Definition unsupportedMessage (s : RecordedStep) : string :=
  "Unsupported step type: " ++ dquote ++ typeName (type s) ++ dquote ++
  " at step " ++ pretty (index s) ++
  ". Known types: navigate, click, type, select, check, keypress, scroll, frame-switch, tab-switch, wait, upload, script".

Definition frameMessage (f : string) : string :=
  "No selector matched in frame " ++ dquote ++ f ++ dquote ++ " for step".

Section WithPlatform.
  Context `{Platform}.

Definition isAuthFailure : M Machine bool :=
    fun m =>
      let url := toLowerCase (page_url m) in
      if existsb (fun p => includes url p) authPatterns then (m, Ok true)
      else
        orElse
          (body <- call TextContentBody ;;
           let bodyText := orDefault body "" in
           ret (existsb (fun p => includes (toLowerCase bodyText) p) failPatterns))
          false m.

Definition connectFailed (wsUrl : string) (maxRetries : Z) (lastError : Thrown)
    : Thrown :=
    ErrorObj ("Failed to connect to browser at " ++ wsUrl ++ " after " ++
              pretty (maxRetries + 1) ++ " attempts. " ++
              "Last error: " ++ messageOfError lastError ++ ". " ++
              "The browser may need to be restarted if it has been running for a long time.").

Fixpoint connectRounds (wsUrl : string) (maxRetries : Z) (baseBackoffMs : Q)
      (fuel : nat) (attempt : Z) (lastError : Thrown) : M Machine unit :=
    if attempt <=? maxRetries then
      match fuel with
      | O => throw (connectFailed wsUrl maxRetries lastError)
      | S fuel' =>
          r <- settle (call (ConnectOverCDP wsUrl)) ;;
          match r with
          | Ok _ => ret tt
          | Throw err =>
              let lastError := toError err in
              (if attempt <? maxRetries
               then lift (sleep (baseBackoffMs * Qpower 2 attempt))
               else ret tt) ;;;
              connectRounds wsUrl maxRetries baseBackoffMs fuel' (attempt + 1) lastError
          end
      end
    else throw (connectFailed wsUrl maxRetries lastError).

Definition connectWithRetry (wsUrl : string) (maxRetries : Z) (baseBackoffMs : Q)
    : M Machine unit :=
    connectRounds wsUrl maxRetries baseBackoffMs (Z.to_nat (maxRetries + 1)) 0
      (ErrorObj "Connection failed").

Definition frameLocator (f sel : string) : Locator :=
    {| inFrame := Some f; selector := sel |}.

  (** The loop of [resolveLocator] inside a frame: the first candidate that
      [isVisible] reports, a failing probe counting as not visible. *)
Fixpoint firstVisibleInFrame (f : string) (selectorList : list string)
    : M Machine (option Locator) :=
    match selectorList with
    | [] => ret None
    | sel :: rest =>
        let loc := frameLocator f sel in
        visible <- orElse (call (IsVisible loc 3000)) false ;;
        if visible then ret (Some loc) else firstVisibleInFrame f rest
    end.

Definition resolveLocator (selectors : SelectorSet)
      (activeFrameSelector : option string) : M Machine Locator :=
    match activeFrameSelector with
    | Some (String c r) =>
        let f := String c r in
        let selectorList := prioritizedSelectors selectors in
        found <- firstVisibleInFrame f selectorList ;;
        match found with
        | Some loc => ret loc
        | None =>
            match selectorList with
            | first :: _ => ret (frameLocator f first)
            | [] => throw (ErrorObj (frameMessage f))
            end
        end
    | _ => resilientLocator selectors DEFAULT_RETRY_CONFIG
    end.

  (** The result is the frame scope the run carries on with. *)
Definition executeStep (s : RecordedStep) (params : gmap string string)
      (flowDir : string) (activeFrameSelector : option string)
    : M Machine (option string) :=
    match type s with
    | navigate =>
        let url := ParamInjector.injectParams (orDefault (url s) (pageUrl s)) params in
        call (Goto url) ;;;
        ret activeFrameSelector
    | click =>
        loc <- resolveLocator (selectors s) activeFrameSelector ;;
        call (Click loc) ;;;
        ret activeFrameSelector
    | type_ =>
        let v := ParamInjector.injectParams (orDefault (value s) "") params in
        loc <- resolveLocator (selectors s) activeFrameSelector ;;
        call (Fill loc v) ;;;
        ret activeFrameSelector
    | select =>
        let v := ParamInjector.injectParams (orDefault (value s) "") params in
        loc <- resolveLocator (selectors s) activeFrameSelector ;;
        call (SelectOption loc v) ;;;
        ret activeFrameSelector
    | check =>
        loc <- resolveLocator (selectors s) activeFrameSelector ;;
        call (CheckBox loc) ;;;
        ret activeFrameSelector
    | keypress =>
        call (KeyboardPress (orDefault (key s) "Enter")) ;;;
        ret activeFrameSelector
    | scroll =>
        call (MouseWheel (orDefault (value s) "300")) ;;;
        ret activeFrameSelector
    | frame_switch =>
        let frameSel := nullish (frameSelector s) (css (selectors s)) in
        ret frameSel
    | tab_switch =>
        call WaitForPageEvent ;;;
        ret activeFrameSelector
    | wait =>
        let selectorList := prioritizedSelectors (selectors s) in
        match selectorList with
        | first :: _ =>
            if negb (String.eqb first "body") then
              match activeFrameSelector with
              | Some (String c r) =>
                  call (WaitForVisible (frameLocator (String c r) first) 15000)
              | _ => call (WaitForSelector first 15000)
              end
            else if truthy (url s) then call (WaitForURL (orDefault (url s) "") 15000)
            else call WaitForLoadState
        | [] =>
            if truthy (url s) then call (WaitForURL (orDefault (url s) "") 15000)
            else call WaitForLoadState
        end ;;;
        ret activeFrameSelector
    | upload =>
        let filePath := ParamInjector.injectParams (orDefault (value s) "") params in
        loc <- resolveLocator (selectors s) activeFrameSelector ;;
        call (SetInputFiles loc filePath) ;;;
        ret activeFrameSelector
    | script =>
        match nullish (scriptPath s) (value s) with
        | Some (String c r) =>
            let scriptPath := String c r in
            let resolvedPath :=
              if isAbsolute scriptPath then scriptPath else joinPath flowDir scriptPath in
            exports <- call (ImportScript resolvedPath) ;;
            match exports with
            | ExportsDefault => call (CallScript resolvedPath ExportsDefault)
            | ExportsRun => call (CallScript resolvedPath ExportsRun)
            | ExportsNeither =>
                throw (ErrorObj ("Script at " ++ scriptPath ++
                                 " must export a default function or run()"))
            end ;;;
            ret activeFrameSelector
        | _ =>
            throw (ErrorObj ("Script step " ++ pretty (index s) ++
                             " has no scriptPath or value"))
        end
    | other _ => throw (ErrorObj (unsupportedMessage s))
    end.

  (** [step.type === 'navigate' && step.url && flow.metadata.allowedDomains?.length]:
      the URL and the list the gate is asked about, if it is asked. *)
Definition gateApplies (s : RecordedStep) (flow : FlowDocument)
    : option (string * list string) :=
    match type s with
    | navigate =>
        match url s, allowedDomains (metadata flow) with
        | Some (String c r), Some (d :: ds) => Some (String c r, d :: ds)
        | _, _ => None
        end
    | _ => None
    end.

Definition securityGate (s : RecordedStep) (flow : FlowDocument) (name : string)
    : M Machine unit :=
    match gateApplies s flow with
    | Some (u, allowed) =>
        liftResult (DomainAllowlist.assertDomainAllowed URL_hostname u allowed name)
    | None => ret tt
    end.

  (** [if (screenshot) screenshots.push(screenshot)] *)
Definition pushShot (shot : string) (l : list string) : list string :=
    match shot with
    | EmptyString => l
    | _ => l ++ [shot]
    end.

Definition successEntry (s : RecordedStep) : StepLogEntry :=
    {| stepIndex := index s; entry_type := type s; status := status_success;
       selector_used := css (selectors s); retries := 0;
       entry_error := None; entry_screenshot := None |}.

Definition failureEntry (s : RecordedStep) (errMsg : option string) (shot : string)
    : StepLogEntry :=
    {| stepIndex := index s; entry_type := type s; status := status_failure;
       selector_used := None; retries := 0;
       entry_error := errMsg; entry_screenshot := Some shot |}.

Definition advance (st : RunState) (frame : option string)
      (entries : list StepLogEntry) : RunState :=
    {| stepsCompleted := stepsCompleted st + 1; stepError := stepError st;
       activeFrameSelector := frame; shots := shots st;
       logged := logged st ++ entries |}.

Definition noteFailure (st : RunState) (s : RecordedStep)
      (errMsg : option string) (shot : string) : RunState :=
    {| stepsCompleted := stepsCompleted st; stepError := stepError st;
       activeFrameSelector := activeFrameSelector st;
       shots := pushShot shot (shots st);
       logged := logged st ++ [failureEntry s errMsg shot] |}.

Definition terminal (st : RunState) (s : RecordedStep) (msg : option string)
      (shot : string) (retried : Z) : M Machine RunState :=
    fun m =>
      (m, Ok {| stepsCompleted := stepsCompleted st;
                stepError := Some {| step := index s;
                                     error_type := typeName (type s);
                                     message := msg;
                                     screenshot := shot;
                                     error_url := page_url m;
                                     retriesAttempted := retried |};
                activeFrameSelector := activeFrameSelector st;
                shots := shots st; logged := logged st |}).

  (** What an iteration does before it dispatches the step: the optional
    delay, then the gate. *)
Definition beforeStep (s : RecordedStep) (flow : FlowDocument)
    (options : ExecuteOptions) : M Machine unit :=
  (if Qle_bool (delayBetween options) 0 then ret tt
   else lift (sleep (delayBetween options))) ;;;
  securityGate s flow (opt_name options).

Definition failureShot (s : RecordedStep) (screenshotsDir : string) : M Machine string :=
  orElse (call (CaptureScreenshot screenshotsDir ("fail_step_" ++ pretty (index s)))) "".

(** The body of the inner [try] of the recovery: the login sub-flow, then
    the same step once more. *)
Definition recoverAndRetry (s : RecordedStep) (flow : FlowDocument)
    (options : ExecuteOptions) (flowDir : string) (frame : option string)
  : M Machine (option string) :=
  call (RunAuthFlow (opt_name options) (metadata_url (metadata flow))) ;;;
  executeStep s (params options) flowDir frame.

(** [for (const step of flow.steps) { ... }]: [ret] of a state with a
    [stepError] is the [break], a thrown value leaves the loop and the
    enclosing [try].  The [catch] reads [(err as Error).message] first, and
    [(authErr as Error).message] in the inner [catch]: either read throws
    when the value caught is [null] or [undefined]. *)
Fixpoint runSteps (flow : FlowDocument) (options : ExecuteOptions)
    (flowDir screenshotsDir : string) (todo : list RecordedStep)
    (st : RunState) : M Machine RunState :=
  match todo with
  | [] => ret st
  | s :: rest =>
      beforeStep s flow options ;;;
      r <- settle (executeStep s (params options) flowDir (activeFrameSelector st)) ;;
      match r with
      | Ok frame =>
          runSteps flow options flowDir screenshotsDir rest
            (advance st frame [successEntry s])
      | Throw err =>
          errMsg <- liftResult (messageOf err) ;;
          shot <- failureShot s screenshotsDir ;;
          let st1 := noteFailure st s errMsg shot in
          auth <- isAuthFailure ;;
          if auth then
            r2 <- settle (recoverAndRetry s flow options flowDir
                                          (activeFrameSelector st1)) ;;
            match r2 with
            | Ok frame =>
                runSteps flow options flowDir screenshotsDir rest
                  (advance st1 frame [])
            | Throw authErr =>
                msg <- liftResult (messageOf authErr) ;;
                terminal st1 s msg shot 1
            end
          else terminal st1 s errMsg shot 0
      end
  end.

(** [!stepError] *)
Definition succeeded (st : RunState) : bool :=
    match stepError st with
    | None => true
    | Some _ => false
    end.

Definition dryRunResult (flow : FlowDocument) (name : string) : RunResult :=
    let n := Z.of_nat (length (steps flow)) in
    {| success := true;
       confirmation := "Dry run for " ++ dquote ++ name ++ dquote ++
                       " completed (" ++ pretty n ++ " steps)";
       flow := name; steps_completed := n; steps_total := n;
       screenshots := []; error := None |}.

Definition resultOf (flow : FlowDocument) (name : string) (st : RunState)
    : RunResult :=
    {| success := succeeded st;
       confirmation :=
         match stepError st with
         | None => "Flow " ++ dquote ++ name ++ dquote ++
                   " completed successfully (" ++ pretty (stepsCompleted st) ++ "/" ++
                   pretty (Z.of_nat (length (steps flow))) ++ " steps)"
         | Some e => "Flow " ++ dquote ++ name ++ dquote ++
                     " failed at step " ++ pretty (step e)
         end;
       flow := name;
       steps_completed := stepsCompleted st;
       steps_total := Z.of_nat (length (steps flow));
       screenshots := shots st;
       error := stepError st |}.

  (** Launching or attaching: the result tells whether a page matching
      [tabUrl] was picked, which then stands in for a new page.  The choice
      of the browser context among the open ones is one call. *)
Definition launch (options : ExecuteOptions) : M Machine bool :=
    if lightweight options then
      let wsUrl := orDefault (cdpUrl options) "http://localhost:9222" in
      connectWithRetry wsUrl 3 2000 ;;;
      call (AttachContext (fresh options) (tabUrl options))
    else
      call (LaunchContext (negb (headed options))) ;;;
      ret false.

  (** The [try { for ... } finally { ... }] of [execute]. *)
Definition guardedRun (flow : FlowDocument) (options : ExecuteOptions)
      (flowDir screenshotsDir : string) : M Machine RunState :=
    let name := opt_name options in
    finally
      (st <- runSteps flow options flowDir screenshotsDir (steps flow)
                      initialRunState ;;
       st <- match stepError st with
             | None =>
                 finalShot <- orElse (call (CaptureScreenshot screenshotsDir "final")) "" ;;
                 ret {| stepsCompleted := stepsCompleted st;
                        stepError := stepError st;
                        activeFrameSelector := activeFrameSelector st;
                        shots := pushShot finalShot (shots st);
                        logged := logged st |}
             | Some _ => ret st
             end ;;
       match stepError st with
       | None => cookies <- call ContextCookies ;;
                 call (SaveCookies name cookies)
       | Some _ => ret tt
       end ;;;
       ret st)
      (orElse (call (TracingStop (joinPath flowDir "trace.zip"))) tt ;;;
       call ContextClose).

Definition executeFlow (flow : FlowDocument) (options : ExecuteOptions)
    : M Machine RunResult :=
    let name := opt_name options in
    let flowDir := getFlowDir name in
    let screenshotsDir := joinPath flowDir "screenshots" in
    let logsDir := joinPath flowDir "run-logs" in
    call (Mkdir screenshotsDir) ;;;
    if dryRun options then ret (dryRunResult flow name)
    else
      call (RunPreflight flowDir name (metadata_url (metadata flow))) ;;;
      targetPage <- launch options ;;
      saved <- call (LoadCookies name) ;;
      match saved with
      | Some cookies => call (AddCookies cookies)
      | None => ret tt
      end ;;;
      call TracingStart ;;;
      (if targetPage then ret tt else call NewPage) ;;;
      st <- guardedRun flow options flowDir screenshotsDir ;;
      let ok := succeeded st in
      call (SaveRunLog logsDir name ok (logged st)) ;;;
      call (RecordRunResult flowDir ok) ;;;
      ret (resultOf flow name st).

  (** [execute(options)]; a flow that is not found ends the process. *)
Definition execute (options : ExecuteOptions) (m : Machine) : Machine * Outcome :=
    match loadFlow (opt_name options) (world m) with
    | None => (m, Exited 1)
    | Some flow =>
        match executeFlow flow options m with
        | (m', Ok r) => (m', Returned r)
        | (m', Throw t) => (m', Threw t)
        end
    end.

End WithPlatform.

End Executor.

(** ** A small portal to run the engine on *)

Module Demo.
Import Js StepTypes Eff Retry Playwright Executor.

(** A portal that shows its login page, with nothing else to be seen, until
    the login sub-flow has run; the sub-flow works when the stored
    credentials are valid. *)
Record Site : Type := {
  authenticated : bool;
  credentialsValid : bool;
  location : string;
  store : list (string * FlowDocument)
}.

Definition loginPage : string := "https://portal.example.com/login".

Definition setSession (w : Site) (a : bool) (l : string) : Site :=
  {| authenticated := a; credentialsValid := credentialsValid w;
     location := l; store := store w |}.

Definition ifVisible (w : Site) : Site * Result unit :=
  if authenticated w then (w, Ok tt)
  else (w, Throw (ErrorObj "Timeout 5000ms exceeded"))%string.

Definition siteHandle (R : Type) (c : Call R) (w : Site) : Site * Result R :=
  match c in Call R return Site * Result R with
  | Goto u => (setSession w (authenticated w) (if authenticated w then u else loginPage), Ok tt)
  | Click _ | Fill _ _ | SelectOption _ _ | CheckBox _ | SetInputFiles _ _
  | WaitForVisible _ _ | WaitForSelector _ _ => ifVisible w
  | IsVisible _ _ => (w, Ok (authenticated w))
  | TextContentBody =>
      (w, Ok (Some (if authenticated w then "Welcome back" else "Please log in")))
  | RunAuthFlow _ _ =>
      if credentialsValid w
      then (setSession w true "https://portal.example.com/home", Ok tt)
      else (w, Throw (ErrorObj "Login failed: invalid credentials"))
  | ImportScript _ => (w, Ok ExportsDefault)
  | AttachContext _ _ => (w, Ok false)
  | ContextCookies => (w, Ok "session=1")
  | RunPreflight _ _ _ => (w, Ok [])
  | LoadCookies _ => (w, Ok None)
  | CaptureScreenshot _ label => (w, Ok (label ++ ".png"))
  | KeyboardPress _ | MouseWheel _ | WaitForPageEvent | WaitForURL _ _
  | WaitForLoadState | CallScript _ _ | ConnectOverCDP _ | LaunchContext _
  | AddCookies _ | TracingStart | NewPage | TracingStop _ | ContextClose
  | Mkdir _ | SaveCookies _ _ | SaveRunLog _ _ _ _ | RecordRunResult _ _ =>
      (w, Ok tt)
  end.

Fixpoint lookupFlow (name : string) (l : list (string * FlowDocument))
  : option FlowDocument :=
  match l with
  | [] => None
  | (n, f) :: rest => if String.eqb n name then Some f else lookupFlow name rest
  end.

#[local] Instance portal : Platform := {|
  World := Site;
  handle := siteHandle;
  elapse := fun _ w => w;
  currentUrl := location;
  URL_hostname := DomainAllowlist.plainHostname;
  loadFlow := fun name w => lookupFlow name (store w);
  getFlowDir := fun name => "/flows/" ++ name
|}.

Definition cssOnly (c : string) : SelectorSet :=
  {| testId := None; aria := None; css := Some c; text := None;
     xpath := None; nthMatch := None |}.

Definition stepOf (i : Z) (t : StepType) (sel : SelectorSet) (v u : option string)
  : RecordedStep :=
  {| index := i; type := t; selectors := sel; value := v; key := None;
     url := u; frameSelector := None;
     pageUrl := "https://portal.example.com/reports"; scriptPath := None |}.

(** Three steps on the portal: open the reports, approve, fill in a note. *)
Definition approvalFlow : FlowDocument :=
  {| metadata := {| name := "approve"; metadata_url := loginPage;
                    allowedDomains := Some ["*.example.com"] |};
     steps := [ stepOf 1 navigate noSelectors None
                       (Some "https://portal.example.com/reports");
                stepOf 2 click (cssOnly "#approve") None None;
                stepOf 3 type_ (cssOnly "#note") (Some "ok") None ] |}.

(** One step that leaves the allowlist. *)
Definition strayFlow : FlowDocument :=
  {| metadata := {| name := "stray"; metadata_url := loginPage;
                    allowedDomains := Some ["example.com"] |};
     steps := [ stepOf 1 navigate noSelectors None (Some "https://evil.com/") ] |}.

Definition optionsFor (n : string) : ExecuteOptions :=
  {| opt_name := n; params := ∅; json := true; dryRun := false;
     lightweight := false; cdpUrl := None; headed := false;
     delayBetween := 0; tabUrl := None; fresh := false |}.

Definition site (valid : bool) : Site :=
  {| authenticated := false; credentialsValid := valid;
     location := "about:blank";
     store := [("approve", approvalFlow); ("stray", strayFlow)] |}.

Definition boot (valid : bool) : Machine :=
  {| world := site valid; trace := [] |}.

End Demo.

(** ** Notions in which the properties of runs are stated *)

Module Vocabulary.
Import Js StepTypes Eff Retry Playwright SelectorEngine Resolver Executor.
Local Open Scope list_scope.
Local Open Scope eff_scope.

(** The frame element lookups are made in: an active frame selector that is
    truthy, else the page itself. *)
Definition effectiveScope (activeFrameSelector : option string) : option string :=
  match activeFrameSelector with
  | Some (String c r) => Some (String c r)
  | _ => None
  end.

(** An event that, if it is an element lookup, is made in [scope]. *)
Definition scopedTo (scope : option string) (e : Event) : Prop :=
  forall sc, lookupScope e = Some sc -> sc = scope.

(** [m'] continues [m] by events that all satisfy [P]. *)
Definition extends `{Platform} (P : Event -> Prop) (m m' : Machine) : Prop :=
  exists new, trace m' = trace m ++ new /\ Forall P new.

(** Whatever the start, [p] records only events that satisfy [P], and a
    value it returns satisfies [Q]. *)
Definition ensures `{Platform} {A} (P : Event -> Prop) (Q : A -> Prop)
    (p : M Machine A) : Prop :=
  forall m, extends P m (fst (p m)) /\ forall a, snd (p m) = Ok a -> Q a.

Definition inFrameState (f : string) : RunState :=
  {| stepsCompleted := 0; stepError := None; activeFrameSelector := Some f;
     shots := []; logged := [] |}.

(** Waiting up to five seconds for a candidate to become visible on the page:
    [true] when the wait resolves, [false] when it times out. *)
Definition pageProbe `{Platform} (sel : string) : M Machine bool :=
  r <- settle (call (WaitForVisible (pageLocator sel) 5000)) ;;
  ret (isOk r).

(** Asking, for up to three seconds, whether a candidate is visible in the
    frame [f]; a failing probe counts as not visible. *)
Definition frameProbe `{Platform} (f sel : string) : M Machine bool :=
  orElse (call (IsVisible (frameLocator f sel) 3000)) false.

(** Probing the candidates in order from [m], none is seen, and the machine
    is then [m']. *)
Inductive noneSeen `{Platform} (probe : string -> M Machine bool)
  : list string -> Machine -> Machine -> Prop :=
  | noneSeen_nil (m : Machine) : noneSeen probe [] m m
  | noneSeen_cons (sel : string) (rest : list string) (m m1 m2 : Machine) :
      probe sel m = (m1, Ok false) ->
      noneSeen probe rest m1 m2 ->
      noneSeen probe (sel :: rest) m m2.

(** Whatever the start, a value [p] throws satisfies [E]. *)
Definition raises `{Platform} {A} (E : Thrown -> Prop) (p : M Machine A) : Prop :=
  forall m m' t, p m = (m', Throw t) -> E t.

(** [t] is the error of the gate for a navigate step of [todo]. *)
Definition blockedBy `{Platform} (flow : FlowDocument) (name : string)
    (todo : list RecordedStep) (t : Thrown) : Prop :=
  exists s u allowed,
    In s todo /\ gateApplies s flow = Some (u, allowed) /\
    DomainAllowlist.isDomainAllowed URL_hostname u allowed = Ok false /\
    t = ErrorObj (DomainAllowlist.securityMessage u allowed name).

(** The count and the error of [st'] account for the steps [todo] run from
    [st]: all of them completed and no error, or the steps before the failing
    one completed and the error attributed to that one. *)
Definition accounted (todo : list RecordedStep) (st st' : RunState) : Prop :=
  match stepError st' with
  | None => stepsCompleted st' = stepsCompleted st + Z.of_nat (length todo)
  | Some e =>
      exists done s rest,
        todo = done ++ s :: rest /\
        stepsCompleted st' = stepsCompleted st + Z.of_nat (length done) /\
        step e = index s /\ error_type e = typeName (type s) /\
        (retriesAttempted e = 0 \/ retriesAttempted e = 1)
  end.

(** Whatever the start, a value [p] returns satisfies [Q]. *)
Definition returns `{Platform} {A} (Q : A -> Prop) (p : M Machine A) : Prop :=
  forall m m' a, p m = (m', Ok a) -> Q a.

(** Whatever the start, [p] ends by throwing. *)
Definition alwaysThrows `{Platform} {A} (p : M Machine A) : Prop :=
  forall m, exists m' t, p m = (m', Throw t).

(** The calls [execute] makes outside the dispatch of a step and outside a
    [catch]. *)
Definition aroundTheRun {R} (c : Call R) : Prop :=
  match c with
  | Mkdir _ | RunPreflight _ _ _ | ConnectOverCDP _ | AttachContext _ _
  | LaunchContext _ | LoadCookies _ | AddCookies _ | TracingStart | NewPage
  | ContextCookies | SaveCookies _ _ | ContextClose | SaveRunLog _ _ _ _
  | RecordRunResult _ _ => True
  | _ => False
  end.

(** A platform on which those calls do not fail. *)
Definition dependable `{Platform} : Prop :=
  forall R (c : Call R) w, aroundTheRun c -> exists w' a, handle R c w = (w', Ok a).

(** The gate lets every step of [todo] through. *)
Definition gateOpen `{Platform} (flow : FlowDocument) (todo : list RecordedStep)
  : Prop :=
  forall s u allowed,
    In s todo -> gateApplies s flow = Some (u, allowed) ->
    DomainAllowlist.isDomainAllowed URL_hostname u allowed = Ok true.

(** Whatever the start, [p] ends by returning a value. *)
Definition completes `{Platform} {A} (p : M Machine A) : Prop :=
  forall m, exists m' a, p m = (m', Ok a).

(** A thrown value whose [message] can be read: anything but [null] and
    [undefined]. *)
Definition readable (t : Thrown) : Prop := exists msg, messageOf t = Ok msg.

(** A platform none of whose calls rejects with [null] or [undefined]. *)
Definition rejectsReadably `{Platform} : Prop :=
  forall R (c : Call R) w w' t, handle R c w = (w', Throw t) -> readable t.

(** Whatever the start, [p] returns a value and records only events that
    satisfy [P]. *)
Definition quietly `{Platform} {A} (P : Event -> Prop) (p : M Machine A) : Prop :=
  forall m, exists m' a, p m = (m', Ok a) /\ extends P m m'.

(** Whatever the start, [p] throws [t], records only events that satisfy [P]
    and leaves a trace that ends with [last]. *)
Definition endsThrowing `{Platform} {A} (P : Event -> Prop) (t : Thrown)
    (last : list Event) (p : M Machine A) : Prop :=
  forall m, exists m',
    p m = (m', Throw t) /\ extends P m m' /\
    exists before, trace m' = before ++ last.

(** What a result object of a run of [flow] carries. *)
Definition wellFormedResult (flow : FlowDocument) (name : string) (r : RunResult)
  : Prop :=
  (success r = true <-> error r = None) /\
  steps_total r = Z.of_nat (length (steps flow)) /\
  (r = dryRunResult flow name \/
   exists st',
     accounted (steps flow) initialRunState st' /\
     steps_completed r = stepsCompleted st' /\ error r = stepError st').

(** A page on which no wait for visibility ever resolves. *)
Definition nothingShows `{Platform} : Prop :=
  forall sel w, exists w' t,
    handle unit (WaitForVisible (pageLocator sel) 5000) w = (w', Throw t).

(** The record of a wait for a candidate on the page. *)
Definition pageWait (sel : string) : Event :=
  Called (WaitForVisible (pageLocator sel) 5000).

(** [k] rounds of the page resolver, the first of them the attempt
    [attempt], lead from [m] to [m']: in each no candidate is seen, and
    after each the backoff delay of its attempt is taken. *)
Inductive roundsMissed `{Platform} (ordered : list string) (config : RetryConfig)
  : nat -> Z -> Machine -> Machine -> Prop :=
  | roundsMissed_none (attempt : Z) (m : Machine) :
      roundsMissed ordered config 0 attempt m m
  | roundsMissed_more (k : nat) (attempt : Z) (m m1 m2 : Machine) :
      noneSeen pageProbe ordered m m1 ->
      roundsMissed ordered config k (attempt + 1)
                   (sleep (calcBackoff attempt config) m1) m2 ->
      roundsMissed ordered config (S k) attempt m m2.

(** What [k] such rounds record, counted from the attempt zero: the waits
    for the candidates in order, then the delay, round after round. *)
Definition missedRounds (ordered : list string) (config : RetryConfig) (k : nat)
  : list Event :=
  concat (map (fun i => map pageWait ordered ++
                        [Slept (calcBackoff (Z.of_nat i) config)])
              (seq 0 k)).

End Vocabulary.

(** ** lib/flow-versioning.ts: version history, run statistics, rollback *)

Module FlowVersioning.
Import Js StepTypes Eff.
Local Open Scope eff_scope.

(** A flow directory: its files by name, and [versions.json] when it is
    there and parses. *)
Record FlowDir : Type := {
  files : gmap string string;
  versions : option (list FlowVersion)
}.

Definition loadVersionHistory (d : FlowDir) : list FlowVersion :=
  match versions d with
  | Some history => history
  | None => []
  end.

Definition saveVersionHistory (history : list FlowVersion) (d : FlowDir) : FlowDir :=
  {| files := files d; versions := Some history |}.

(** [existsSync(join(flowDir, f))] *)
Definition existsSync (f : string) (d : FlowDir) : bool :=
  match files d !! f with
  | Some _ => true
  | None => false
  end.

(** [copyFileSync(join(flowDir, src), join(flowDir, dst))] *)
Definition copyFileSync (src dst : string) : M FlowDir unit :=
  fun d =>
    match files d !! src with
    | Some content => ({| files := <[dst := content]> (files d);
                          versions := versions d |}, Ok tt)
    | None => (d, Throw (ErrorObj ("ENOENT: no such file or directory, copyfile " ++ src)))
    end.

(** [`script.v${n}.ts`] *)
Definition archiveName (n : Z) : string := "script.v" ++ pretty n ++ ".ts".

(** [history[history.length - 1]?.version ?? 0] *)
Definition lastVersion (history : list FlowVersion) : Z :=
  match last history with
  | Some v => version v
  | None => 0
  end.

(** [now] is the reading of the clock for [savedAt]. *)
Definition archiveCurrentScript (now : Z) : M FlowDir Z :=
  fun d =>
    if negb (existsSync "script.ts" d) then (d, Ok 1)
    else
      let history := loadVersionHistory d in
      let nextVersion := lastVersion history + 1 in
      let archiveFile := archiveName nextVersion in
      (copyFileSync "script.ts" archiveFile ;;;
       lift (saveVersionHistory
               (history ++ [{| version := nextVersion; savedAt := now;
                               scriptFile := archiveFile;
                               successRate := None; runCount := Some 0 |}])) ;;;
       ret (nextVersion + 1)) d.

(** [Array.prototype.sort(cmp)]: a stable sort, [cmp a b <= 0] keeping [a]
    before [b]. *)
Fixpoint insertBy {A} (cmp : A -> A -> Q) (x : A) (l : list A) : list A :=
  match l with
  | [] => [x]
  | y :: l' => if Qle_bool (cmp x y) 0 then x :: y :: l' else y :: insertBy cmp x l'
  end.

Definition sortBy {A} (cmp : A -> A -> Q) (l : list A) : list A :=
  fold_right (insertBy cmp) [] l.

Definition maxAgeMs : Z := 30 * 24 * 60 * 60 * 1000.

Definition rateOf (v : FlowVersion) : Q :=
  match successRate v with
  | Some r => r
  | None => 0
  end.

(** [Math.max(0, 1 - ageMs / maxAgeMs)] *)
Definition recencyOf (now : Z) (v : FlowVersion) : Q :=
  let ageMs := now - savedAt v in
  Qmax 0 (1 - inject_Z ageMs / inject_Z maxAgeMs)%Q.

(** [0.7 * successRate + 0.3 * recency] *)
Definition scoreOf (now : Z) (v : FlowVersion) : Q :=
  ((7 # 10) * rateOf v + (3 # 10) * recencyOf now v)%Q.

Definition scored (now : Z) (history : list FlowVersion) : list (FlowVersion * Q) :=
  map (fun v => (v, scoreOf now v)) history.

Definition byScore (a b : FlowVersion * Q) : Q := (snd b - snd a)%Q.

(** [scored.sort((a, b) => b.score - a.score); scored[0].v] *)
Definition rollbackTarget (now : Z) (history : list FlowVersion) : option FlowVersion :=
  match sortBy byScore (scored now history) with
  | [] => None
  | (v, _) :: _ => Some v
  end.

(** [rollback(flowDir)], time-weighted: [now] is [Date.now()] at its start,
    [archiveTime] the clock when the current script is archived. *)
Definition rollback (now archiveTime : Z) : M FlowDir bool :=
  fun d =>
    let history := loadVersionHistory d in
    match rollbackTarget now history with
    | None => (d, Ok false)
    | Some target =>
        let archiveFile := scriptFile target in
        if negb (existsSync archiveFile d) then (d, Ok false)
        else
          (archiveCurrentScript archiveTime ;;;
           copyFileSync archiveFile "script.ts" ;;;
           ret true) d
    end.

(** The earlier [rollback] orders by success rate alone, the higher version
    first among equal rates: [bRate - aRate || b.version - a.version]. *)
Definition byRate (a b : FlowVersion) : Q :=
  let d := (rateOf b - rateOf a)%Q in
  if Qeq_bool d 0 then inject_Z (version b - version a) else d.

Definition rollbackTargetByRate (history : list FlowVersion) : option FlowVersion :=
  match sortBy byRate history with
  | [] => None
  | v :: _ => Some v
  end.

(** [Math.round(x)]: the nearest integer, halves upwards. *)
Definition round (x : Q) : Z := Qfloor (x + (1 # 2))%Q.

(** The update of the latest version's aggregate in [recordRunResult]. *)
Definition recorded (ok : bool) (latest : FlowVersion) : FlowVersion :=
  let runs := match runCount latest with Some n => n | None => 0 end + 1 in
  let prevSuccesses := round (rateOf latest * inject_Z (runs - 1))%Q in
  let newSuccesses := prevSuccesses + (if ok then 1 else 0) in
  {| version := version latest; savedAt := savedAt latest;
     scriptFile := scriptFile latest;
     successRate := Some (inject_Z newSuccesses / inject_Z runs)%Q;
     runCount := Some runs |}.

(** [history[history.length - 1]] updated in place. *)
Fixpoint updateLatest (f : FlowVersion -> FlowVersion) (history : list FlowVersion)
  : list FlowVersion :=
  match history with
  | [] => []
  | [v] => [f v]
  | v :: rest => v :: updateLatest f rest
  end.

Definition recordRunResult (ok : bool) (d : FlowDir) : FlowDir :=
  let history := loadVersionHistory d in
  match history with
  | [] => d
  | _ => saveVersionHistory (updateLatest (recorded ok) history) d
  end.

(** The score as the design states it, from a success rate and an age in days. *)
Definition designScore (rate ageInDays : Q) : Q :=
  ((7 # 10) * rate + (3 # 10) * Qmax 0 (1 - ageInDays / 30))%Q.

Definition msPerDay : Z := 24 * 60 * 60 * 1000.

Definition ageInDays (now : Z) (v : FlowVersion) : Q :=
  (inject_Z (now - savedAt v) / inject_Z msPerDay)%Q.

(** The running average as the design states it. *)
Definition runningAverage (oldRate : Q) (oldRunCount : Z) (ok : bool) : Q :=
  ((oldRate * inject_Z oldRunCount + (if ok then 1 else 0)) / inject_Z (oldRunCount + 1))%Q.

(** A history as [archiveCurrentScript] builds it: versions increase and
    each entry names the archive of its version. *)
Fixpoint wellFormedFrom (low : Z) (history : list FlowVersion) : Prop :=
  match history with
  | [] => True
  | v :: rest =>
      low < version v /\ scriptFile v = archiveName (version v) /\
      wellFormedFrom (version v) rest
  end.

Definition wellFormed (history : list FlowVersion) : Prop :=
  wellFormedFrom 0 history.

(** [latest.runCount ?? 0] *)
Definition countOf (v : FlowVersion) : Z :=
  match runCount v with
  | Some n => n
  | None => 0
  end.

(** [success ? 1 : 0] *)
Definition outcomeZ (ok : bool) : Z := if ok then 1 else 0.

(** The aggregate of [v] stands for [k] successes: its rate times its count
    is within a quarter of [k], so that rounding the product gives [k]
    whether it is computed exactly or in floating point. *)
Definition standsFor (v : FlowVersion) (k : Z) : Prop :=
  (inject_Z k - (1 # 4) <= rateOf v * inject_Z (countOf v) /\
   rateOf v * inject_Z (countOf v) <= inject_Z k + (1 # 4))%Q.

(** The entry [archiveCurrentScript] appends. *)
Definition archiveEntry (now : Z) (history : list FlowVersion) : FlowVersion :=
  {| version := lastVersion history + 1; savedAt := now;
     scriptFile := archiveName (lastVersion history + 1);
     successRate := None; runCount := Some 0 |}.

(** The comparator of a descending sort by [weight], and what such a sort
    achieves at the head of its result. *)
Definition byWeight {A} (weight : A -> Q) (a b : A) : Q := (weight b - weight a)%Q.

Definition headBest {A} (weight : A -> Q) (l : list A) : Prop :=
  match l with
  | [] => True
  | h :: _ => forall y, In y l -> (weight y <= weight h)%Q
  end.

(** A version just archived, and the two versions and the directory of the
    worked example of the design, seen forty days after the first was saved. *)
Definition freshVersion : FlowVersion :=
  {| version := 1; savedAt := 0; scriptFile := archiveName 1;
     successRate := None; runCount := Some 0 |}.

Definition versionA : FlowVersion :=
  {| version := 1; savedAt := 0; scriptFile := archiveName 1;
     successRate := Some (9 # 10); runCount := Some 10 |}.

Definition versionB : FlowVersion :=
  {| version := 2; savedAt := 39 * msPerDay; scriptFile := archiveName 2;
     successRate := Some (6 # 10); runCount := Some 10 |}.

Definition exampleDir : FlowDir :=
  {| files := <["script.ts" := "current"]>
                (<["script.v1.ts" := "script of A"]>
                   (<["script.v2.ts" := "script of B"]> ∅));
     versions := Some [versionA; versionB] |}.

End FlowVersioning.

(** ** lib/retry.ts: operations and pages to retry on *)

Module Attempts.
Import Js StepTypes Eff Retry Playwright Resolver Executor.
Local Open Scope list_scope.

(** The delays [withRetry] takes before the attempts [1] to [k]. *)
Definition backoffs (config : RetryConfig) (k : nat) : list Q :=
  map (fun i => calcBackoff (Z.of_nat i) config) (seq 0 k).

(** An operation that fails while its state, a countdown, is not zero. *)
Definition failsFirst : M nat string :=
  fun n => match n with
           | O => (O, Ok "done")
           | S n' => (n', Throw (ErrorObj "not yet"))
           end.

(** The candidate a recorded event waits for on the page, the delay it
    takes, the endpoint it connects to. *)
Definition probeOf (e : Event) : option string :=
  match e with
  | Called c =>
      match c with
      | WaitForVisible l _ => Some (selector l)
      | _ => None
      end
  | Slept _ => None
  end.

Definition delayOf (e : Event) : option Q :=
  match e with
  | Slept ms => Some ms
  | Called _ => None
  end.

Definition connectOf (e : Event) : option string :=
  match e with
  | Called c =>
      match c with
      | ConnectOverCDP wsUrl => Some wsUrl
      | _ => None
      end
  | Slept _ => None
  end.

(** No candidate of [ordered] ever becomes visible on the page. *)
Definition neverShow `{Platform} (ordered : list string) : Prop :=
  forall sel w, In sel ordered ->
    exists w' t, handle unit (WaitForVisible (pageLocator sel) 5000) w = (w', Throw t).

(** The endpoint [wsUrl] refuses every connection. *)
Definition unreachable `{Platform} (wsUrl : string) : Prop :=
  forall w, exists w' t, handle unit (ConnectOverCDP wsUrl) w = (w', Throw t).

(** The delays of [connectWithRetry] before the attempts [1] to [k]. *)
Definition connectDelays (baseBackoffMs : Q) (k : nat) : list Q :=
  map (fun i => (baseBackoffMs * Qpower 2 (Z.of_nat i))%Q) (seq 0 k).

End Attempts.

Module Offline.
Import Js StepTypes Eff Retry Playwright.

(** A browser that answers nothing: every call times out. *)
Definition timeout (R : Type) (c : Call R) (w : unit) : unit * Result R :=
  (w, Throw (ErrorObj "Timeout exceeded")).

#[local] Instance deadPage : Platform := {|
  World := unit;
  handle := timeout;
  elapse := fun _ w => w;
  currentUrl := fun _ => "about:blank";
  URL_hostname := DomainAllowlist.plainHostname;
  loadFlow := fun _ _ => None;
  getFlowDir := fun name => "/flows/" ++ name
|}.

Definition start : @Machine deadPage := @Build_Machine deadPage tt [].

End Offline.

(** ** bin/execute.ts: runs to reason about *)

Module Scenarios.
Import Js StepTypes Eff Retry Playwright Executor.
Local Open Scope list_scope.

(** A navigate step recorded with a placeholder in its host, the parameters
    of a run that fill it in, and the options of a dry run. *)
Definition tenantStep : RecordedStep :=
  Demo.stepOf 1 navigate noSelectors None (Some "https://{{tenant}}.example.com/").

Definition tenantParams : gmap string string := {[ "tenant" := "evil.org/x" ]}.

Definition dryOptions (n : string) : ExecuteOptions :=
  {| opt_name := n; params := ∅; json := true; dryRun := true;
     lightweight := false; cdpUrl := None; headed := false;
     delayBetween := 0; tabUrl := None; fresh := false |}.

(** The portal after a login, a step of a kind the executor does not know,
    and the machine once the screenshot of its failure has been taken and
    the page has been asked for its text. *)
Definition loggedIn : @Machine Demo.portal :=
  @Build_Machine Demo.portal
    (Demo.setSession (Demo.site true) true "https://portal.example.com/home") [].

Definition hoverStep : RecordedStep :=
  Demo.stepOf 5 (other "hover") noSelectors None None.

Definition afterHover : @Machine Demo.portal :=
  @Build_Machine Demo.portal
    (Demo.setSession (Demo.site true) true "https://portal.example.com/home")
    [Called (CaptureScreenshot "/flows/approve/screenshots" "fail_step_5");
     Called TextContentBody].

(** A page whose elements appear once 1200 ms of delays have passed, and on
    which nothing else can be done. *)
Definition slowHandle (R : Type) (c : Call R) (w : Q) : Q * Result R :=
  match c in Call R return Q * Result R with
  | WaitForVisible _ _ =>
      if Qle_bool 1200 w then (w, Ok tt)
      else (w, Throw (ErrorObj "Timeout 5000ms exceeded"))
  | _ => (w, Throw (ErrorObj "Timeout exceeded"))
  end.

#[local] Instance slowPage : Platform := {|
  World := Q;
  handle := slowHandle;
  elapse := fun ms w => (w + ms)%Q;
  currentUrl := fun _ => "about:blank";
  URL_hostname := DomainAllowlist.plainHostname;
  loadFlow := fun _ _ => None;
  getFlowDir := fun name => ("/flows/" ++ name)%string
|}.

Definition slowStart : @Machine slowPage := @Build_Machine slowPage 0%Q [].

(** [!!stepError], as a number *)
Definition failedCount (st : RunState) : nat :=
  match stepError st with
  | Some _ => 1
  | None => 0
  end.

End Scenarios.

Module LifeCycle.
Import Js StepTypes Eff Retry Playwright Executor.
Local Open Scope list_scope.

(** The events of the life cycle of a run, which [execute] itself brings
    about around the steps: directories and preflight, browser and context,
    cookies, trace, run log and statistics. *)
Definition aroundSteps (e : Event) : bool :=
  match e with
  | Called c =>
      match c with
      | ConnectOverCDP _ | AttachContext _ _ | LaunchContext _ | AddCookies _
      | TracingStart | NewPage | ContextCookies | TracingStop _ | ContextClose
      | Mkdir _ | RunPreflight _ _ _ | LoadCookies _ | SaveCookies _ _
      | SaveRunLog _ _ _ _ | RecordRunResult _ _ => true
      | _ => false
      end
  | Slept _ => false
  end.

(** The cookies an event stores for the flow [name], if it stores any. *)
Definition savedCookies (e : Event) : option (string * string) :=
  match e with
  | Called c =>
      match c with
      | SaveCookies name cookies => Some (name, cookies)
      | _ => None
      end
  | Slept _ => None
  end.

(** The events that end the guarded part of a run. *)
Definition closing (flowDir : string) : list Event :=
  [Called (TracingStop (joinPath flowDir "trace.zip")); Called ContextClose].

End LifeCycle.

(** ** lib/domain-allowlist.ts: the shape of an entry *)

Module Entries.
Import Js.

(** A string that does not begin with white space. *)
Definition unpadded (s : string) : Prop :=
  match s with
  | EmptyString => True
  | String c _ => isWhite c = false
  end.

End Entries.

(** ** lib/flow-versioning.ts: hashDomSnapshot *)

Module DomHash.
Import Js.
Local Open Scope list_scope.

(** [x | 0]: the integer [x] as a signed 32-bit number. *)
Definition toInt32 (x : Z) : Z := (x + 2 ^ 31) mod 2 ^ 32 - 2 ^ 31.

(** [x >>> 0]: the integer [x] as an unsigned 32-bit number. *)
Definition toUint32 (x : Z) : Z := x mod 2 ^ 32.

(** [((hash << 5) - hash + code) | 0] *)
Definition hashStep (hash code : Z) : Z :=
  toInt32 (toInt32 (Z.shiftl hash 5) - hash + code).

(** The loop of [hashDomSnapshot] over the UTF-16 code units of the text. *)
Definition hashCodes (codes : list Z) : Z := fold_left hashStep codes 0.

Definition hexDigit (d : Z) : ascii :=
  match d with
  | 0 => "0" | 1 => "1" | 2 => "2" | 3 => "3" | 4 => "4" | 5 => "5" | 6 => "6"
  | 7 => "7" | 8 => "8" | 9 => "9" | 10 => "a" | 11 => "b" | 12 => "c"
  | 13 => "d" | 14 => "e" | _ => "f"
  end%char.

(** The digits of [n] in base 16 in front of [acc], most significant first;
    [fuel] bounds their number. *)
Fixpoint hexDigits (fuel : nat) (n : Z) (acc : string) : string :=
  match fuel with
  | O => acc
  | S fuel' =>
      if n =? 0 then acc
      else hexDigits fuel' (n / 16) (String (hexDigit (n mod 16)) acc)
  end.

(** [n.toString(16)] for [0 <= n < 2^32] *)
Definition toString16 (n : Z) : string :=
  if n =? 0 then "0" else hexDigits 8 n "".

(** [html.charCodeAt(i)] for each [i]; the characters of the model are the
    code units below 256. *)
Fixpoint charCodes (s : string) : list Z :=
  match s with
  | EmptyString => []
  | String c s' => Z.of_nat (nat_of_ascii c) :: charCodes s'
  end.

Definition hashDomSnapshot (html : string) : string :=
  toString16 (toUint32 (hashCodes (charCodes html))).

(** The polynomial in 31 with the code units as coefficients, by Horner's rule. *)
Definition poly31 (codes : list Z) : Z := fold_left (fun h c => h * 31 + c) codes 0.

Definition hexValueOf (c : ascii) : option Z :=
  let n := Z.of_nat (nat_of_ascii c) in
  if (48 <=? n) && (n <=? 57) then Some (n - 48)
  else if (97 <=? n) && (n <=? 102) then Some (n - 87)
  else None.

(** Reading a numeral in base 16. *)
Fixpoint parseHexFrom (acc : Z) (s : string) : option Z :=
  match s with
  | EmptyString => Some acc
  | String c s' =>
      match hexValueOf c with
      | Some d => parseHexFrom (acc * 16 + d) s'
      | None => None
      end
  end.

Definition parseHex (s : string) : option Z :=
  match s with
  | EmptyString => None
  | _ => parseHexFrom 0 s
  end.

End DomHash.

(** ** lib/flow-versioning.ts: rollback by success rate *)

Module History.
Import Js StepTypes Eff FlowVersioning.
Local Open Scope list_scope.
Local Open Scope eff_scope.

(** [rollback(flowDir)] of lib/flow-versioning.ts, which orders by success
    rate alone; [archiveTime] is the clock when the current script is
    archived. *)
Definition rollbackByRate (archiveTime : Z) : M FlowDir bool :=
  fun d =>
    let history := loadVersionHistory d in
    match rollbackTargetByRate history with
    | None => (d, Ok false)
    | Some target =>
        let archiveFile := scriptFile target in
        if negb (existsSync archiveFile d) then (d, Ok false)
        else
          (archiveCurrentScript archiveTime ;;;
           copyFileSync archiveFile "script.ts" ;;;
           ret true) d
    end.

(** The tail that both variants of [rollback] share. *)
Definition restore (archiveTime : Z) (archiveFile : string) : M FlowDir bool :=
  archiveCurrentScript archiveTime ;;;
  copyFileSync archiveFile "script.ts" ;;;
  ret true.

(** The first element of [l] comes before every element of [l]. *)
Definition headFirst {A} (before : A -> A -> Prop) (l : list A) : Prop :=
  match l with
  | [] => True
  | h :: _ => forall y, In y l -> before h y
  end.

(** [a] is sorted before [b] by the comparator of that [rollback]: a higher
    rate, or the same rate and a version that is not lower. *)
Definition outranks (a b : FlowVersion) : Prop :=
  (rateOf b < rateOf a)%Q \/ ((rateOf b == rateOf a)%Q /\ version b <= version a).

(** [recordRunResult] after each run of [outcomes], in their order. *)
Definition recordAll (outcomes : list bool) (d : FlowDir) : FlowDir :=
  fold_left (fun d ok => recordRunResult ok d) outcomes d.

(** The number of successful runs among [outcomes]. *)
Definition successes (outcomes : list bool) : Z :=
  fold_right (fun ok n => outcomeZ ok + n) 0 outcomes.

(** A history with three versions of equal rate and one of a lower rate. *)
Definition tiedHistory : list FlowVersion :=
  [ {| version := 1; savedAt := 0; scriptFile := archiveName 1;
       successRate := Some (1 # 2); runCount := Some 2 |};
    {| version := 2; savedAt := 10; scriptFile := archiveName 2;
       successRate := Some (1 # 2); runCount := Some 4 |};
    {| version := 3; savedAt := 20; scriptFile := archiveName 3;
       successRate := None; runCount := Some 0 |} ].

Definition tiedDir : FlowDir :=
  {| files := <["script.ts" := "current"]>
                (<["script.v1.ts" := "first"]>
                   (<["script.v2.ts" := "second"]>
                      (<["script.v3.ts" := "third"]> ∅)));
     versions := Some tiedHistory |}.

Definition freshDir : FlowDir :=
  {| files := {[ "script.ts" := "current" ]}; versions := Some [freshVersion] |}.

End History.

(** ** bin/generate.ts: writing a generated script *)

Module Generate.
Import Js StepTypes Eff FlowVersioning.
Local Open Scope list_scope.
Local Open Scope eff_scope.

(** [writeFileSync(join(flowDir, f), content, 'utf8')] for a file other than
    [versions.json] *)
Definition writeFileSync (f content : string) : M FlowDir unit :=
  lift (fun d => {| files := <[f := content]> (files d); versions := versions d |}).

(** What [generate] does to the directory of a flow that was found.
    [scriptCode] is the text [generateScript] gives, [schemaJson] the schema
    when parameters were detected, [intentJson] the default intent; [now] is
    the reading of the clock when the current script is archived. *)
Definition generate (now : Z) (scriptCode : string) (schemaJson : option string)
    (intentJson : string) : M FlowDir unit :=
  archiveCurrentScript now ;;;
  writeFileSync "script.ts" scriptCode ;;;
  match schemaJson with
  | Some json => writeFileSync "params.schema.json" json
  | None => ret tt
  end ;;;
  fun d =>
    if negb (existsSync "flow-intent.json" d)
    then writeFileSync "flow-intent.json" intentJson d
    else (d, Ok tt).

End Generate.

(** ** lib/param-injector.ts: the placeholders of a template *)

Module Placeholders.
Import Js ParamInjector.
Local Open Scope list_scope.

(** [template.match(/\{\{(\w+)\}\}/g) ?? []] with each match cut down to its
    key by [m.slice(2, -2)]: the keys of the matches from the left, [skip]
    characters of a match already found being passed over. *)
Fixpoint matchesFrom (skip : nat) (template : string) : list string :=
  match template with
  | EmptyString => []
  | String c rest =>
      match skip with
      | S k => matchesFrom k rest
      | O =>
          match placeholderAt template with
          | Some (k, len) => k :: matchesFrom (len - 1) rest
          | None => matchesFrom 0 rest
          end
      end
  end.

(** [[...new Set(keys)]]: each key once, in the order of first appearance. *)
Fixpoint uniqueFrom (seen : list string) (keys : list string) : list string :=
  match keys with
  | [] => []
  | k :: rest =>
      if existsb (String.eqb k) seen then uniqueFrom seen rest
      else k :: uniqueFrom (k :: seen) rest
  end.

Definition extractPlaceholders (template : string) : list string :=
  uniqueFrom [] (matchesFrom 0 template).

(** A key as [\w+] matches it: not empty, word characters only. *)
Fixpoint allWord (k : string) : bool :=
  match k with
  | EmptyString => true
  | String c k' => isWordChar c && allWord k'
  end.

Definition isKey (k : string) : Prop := k <> EmptyString /\ allWord k = true.

(** The text of the placeholder for [k], and what follows its first
    character. *)
Definition placeholder (k : string) : string := "{{" ++ k ++ "}}".

Definition afterBrace (k : string) : string := "{" ++ k ++ "}}".

End Placeholders.

(** ** lib/param-injector.ts: masking of sensitive parameters *)

Module Masking.
Import Js.
Local Open Scope list_scope.

(** The sources of [SENSITIVE_FIELD_PATTERNS], each tested with the flag [i]. *)
Definition SENSITIVE_FIELD_PATTERNS : list string :=
  ["password"; "secret"; "token"; "apikey"; "api_key"; "credential"; "ssn"; "cvv"].

Inductive ParamType : Type := type_string | type_number | type_boolean | type_date.

Record ParamSchemaEntry : Type := {
  entry_type : ParamType;
  description : option string;
  required : option bool;
  sensitive : option bool;
  default : option string;
  pattern : option string
}.

Definition ParamsSchema : Type := gmap string ParamSchemaEntry.

(** [/p/i.test(key)] for a pattern [p] of lower-case letters and [_] *)
Definition testIgnoreCase (p key : string) : bool := includes (toLowerCase key) p.

(** [SENSITIVE_FIELD_PATTERNS.some((p) => p.test(key))] *)
Definition isSensitiveByName (key : string) : bool :=
  existsb (fun p => testIgnoreCase p key) SENSITIVE_FIELD_PATTERNS.

(** [schema?.[key]?.sensitive === true] *)
Definition isSensitiveBySchema (schema : option ParamsSchema) (key : string) : bool :=
  match schema with
  | Some entries =>
      match entries !! key with
      | Some entry =>
          match sensitive entry with
          | Some true => true
          | _ => false
          end
      | None => false
      end
  | None => false
  end.

(** What is stored for [key]: the mask or the value. *)
Definition maskedValue (schema : option ParamsSchema) (key value : string) : string :=
  if isSensitiveBySchema schema key || isSensitiveByName key then "***" else value.

(** [for (const [key, value] of Object.entries(params)) masked[key] = ...],
    from the empty object; the result does not depend on the order of the
    entries. *)
Definition maskSensitiveParams (params : gmap string string)
    (schema : option ParamsSchema) : gmap string string :=
  map_fold (fun key value masked => setProperty masked key (maskedValue schema key value))
           ∅ params.

End Masking.

(** ** lib/screenshot.ts: file names of screenshots *)

Module Screenshot.
Import Js ParamInjector.

(** The class [[a-zA-Z0-9_-]] *)
Definition isSafeChar (c : ascii) : bool := isWordChar c || Ascii.eqb c "-".

(** [label.replace(/[^a-zA-Z0-9_-]/g, '_')] *)
Fixpoint safeLabel (label : string) : string :=
  match label with
  | EmptyString => EmptyString
  | String c rest => String (if isSafeChar c then c else "_"%char) (safeLabel rest)
  end.

Fixpoint allSafe (s : string) : bool :=
  match s with
  | EmptyString => true
  | String c rest => isSafeChar c && allSafe rest
  end.

(** [`${safe}_${timestamp}.png`], with the timestamp as it is printed. *)
Definition screenshotName (label stamp : string) : string :=
  safeLabel label ++ "_" ++ stamp ++ ".png".

(** [`${safe}_full_${timestamp}.png`] *)
Definition fullPageScreenshotName (label stamp : string) : string :=
  safeLabel label ++ "_full_" ++ stamp ++ ".png".

Fixpoint allDigits (s : string) : bool :=
  match s with
  | EmptyString => true
  | String c rest => isDigit c && allDigits rest
  end.

End Screenshot.

(** ** lib/selector-cache.ts: the selectors that worked *)

Module SelectorCache.
Import Js SelectorEngine.
Local Open Scope list_scope.

Record SelectorCacheEntry : Type := {
  stepIndex : Z;
  winningSelector : string;
  strategy : Strategy;
  successCount : Z;
  lastUsed : Z
}.

(** [.selector-cache.json]: [None] when the file is missing or does not parse. *)
Definition CacheFile : Type := option (list SelectorCacheEntry).

Definition loadSelectorCache (file : CacheFile) : list SelectorCacheEntry :=
  match file with
  | Some cache => cache
  | None => []
  end.

Definition saveSelectorCache (cache : list SelectorCacheEntry) : CacheFile := Some cache.

(** [cache.find((e) => e.stepIndex === stepIndex)] *)
Definition findEntry (i : Z) (cache : list SelectorCacheEntry)
  : option SelectorCacheEntry :=
  List.find (fun e => stepIndex e =? i) cache.

(** The entry [existing] after the assignments of [recordSelectorSuccess]. *)
Definition touched (selector : string) (strat : Strategy) (now : Z)
    (existing : SelectorCacheEntry) : SelectorCacheEntry :=
  if String.eqb (winningSelector existing) selector then
    {| stepIndex := stepIndex existing; winningSelector := winningSelector existing;
       strategy := strategy existing; successCount := successCount existing + 1;
       lastUsed := now |}
  else
    {| stepIndex := stepIndex existing; winningSelector := selector;
       strategy := strat; successCount := 1; lastUsed := now |}.

(** The array after the entry that [find] returned has been assigned to. *)
Fixpoint assignFound (i : Z) (f : SelectorCacheEntry -> SelectorCacheEntry)
    (cache : list SelectorCacheEntry) : list SelectorCacheEntry :=
  match cache with
  | [] => []
  | e :: rest => if stepIndex e =? i then f e :: rest else e :: assignFound i f rest
  end.

(** [now] is the reading of the clock. *)
Definition recordSelectorSuccess (i : Z) (selector : string) (strat : Strategy)
    (now : Z) (file : CacheFile) : CacheFile :=
  let cache := loadSelectorCache file in
  match findEntry i cache with
  | Some _ => saveSelectorCache (assignFound i (touched selector strat now) cache)
  | None =>
      saveSelectorCache
        (cache ++ [{| stepIndex := i; winningSelector := selector; strategy := strat;
                      successCount := 1; lastUsed := now |}])
  end.

Definition getCachedSelector (i : Z) (file : CacheFile) : option SelectorCacheEntry :=
  findEntry i (loadSelectorCache file).

End SelectorCache.

(** ** lib/task-queue.ts: the queue of tasks *)

Module TaskQueue.
Import Js.
Local Open Scope list_scope.

Inductive TaskStatus : Type := pending | ready | running | done | failed.

Definition TaskStatus_eqb (a b : TaskStatus) : bool :=
  match a, b with
  | pending, pending | ready, ready | running, running | done, done
  | failed, failed => true
  | _, _ => false
  end.

Record QueuedTask : Type := {
  id : string;
  flow : string;
  params : gmap string string;
  missingParams : list string;
  addedAt : Z;
  status : TaskStatus
}.

(** The queue file: [None] when it is missing or does not parse. *)
Definition QueueFile : Type := option (list QueuedTask).

Definition loadQueue (file : QueueFile) : list QueuedTask :=
  match file with
  | Some tasks => tasks
  | None => []
  end.

Definition saveQueue (tasks : list QueuedTask) : QueueFile := Some tasks.

(** [tasks.find((t) => t.id === id)] *)
Definition findTask (i : string) (tasks : list QueuedTask) : option QueuedTask :=
  List.find (fun t => String.eqb (id t) i) tasks.

(** The array after the task that [find] returned has been assigned to. *)
Fixpoint assignTask (i : string) (f : QueuedTask -> QueuedTask)
    (tasks : list QueuedTask) : list QueuedTask :=
  match tasks with
  | [] => []
  | t :: rest =>
      if String.eqb (id t) i then f t :: rest else t :: assignTask i f rest
  end.

(** [tasks.splice(tasks.findIndex((t) => t.id === id), 1)] when the index
    is not [-1]. *)
Fixpoint spliceTask (i : string) (tasks : list QueuedTask) : list QueuedTask :=
  match tasks with
  | [] => []
  | t :: rest => if String.eqb (id t) i then rest else t :: spliceTask i rest
  end.

(** [uuid] is what [randomUUID()] gives and [now] the reading of the clock. *)
Definition addTask (uuid : string) (now : Z) (flowName : string)
    (taskParams : gmap string string) (missing : list string) (file : QueueFile)
  : QueueFile * QueuedTask :=
  let tasks := loadQueue file in
  let task := {| id := uuid; flow := flowName; params := taskParams;
                 missingParams := missing; addedAt := now;
                 status := match missing with [] => ready | _ => pending end |} in
  (saveQueue (tasks ++ [task]), task).

Definition dropTask (i : string) (file : QueueFile) : QueueFile * bool :=
  let tasks := loadQueue file in
  match findTask i tasks with
  | None => (file, false)
  | Some _ => (saveQueue (spliceTask i tasks), true)
  end.

(** The task after the assignments of [setTaskParam]. *)
Definition withParam (param value : string) (task : QueuedTask) : QueuedTask :=
  let missing := List.filter (fun p => negb (String.eqb p param)) (missingParams task) in
  {| id := id task; flow := flow task;
     params := setProperty (params task) param value;
     missingParams := missing; addedAt := addedAt task;
     status := match missing with [] => ready | _ => status task end |}.

Definition setTaskParam (i param value : string) (file : QueueFile)
  : QueueFile * option QueuedTask :=
  let tasks := loadQueue file in
  match findTask i tasks with
  | None => (file, None)
  | Some task =>
      (saveQueue (assignTask i (withParam param value) tasks),
       Some (withParam param value task))
  end.

Definition getTasksByStatus (s : TaskStatus) (file : QueueFile) : list QueuedTask :=
  List.filter (fun t => TaskStatus_eqb (status t) s) (loadQueue file).

Definition getReadyTasks (file : QueueFile) : list QueuedTask :=
  getTasksByStatus ready file.

Definition withStatus (s : TaskStatus) (task : QueuedTask) : QueuedTask :=
  {| id := id task; flow := flow task; params := params task;
     missingParams := missingParams task; addedAt := addedAt task; status := s |}.

Definition updateTaskStatus (i : string) (s : TaskStatus) (file : QueueFile)
  : QueueFile :=
  let tasks := loadQueue file in
  match findTask i tasks with
  | Some _ => saveQueue (assignTask i (withStatus s) tasks)
  | None => file
  end.

Definition markTaskRunning (i : string) : QueueFile -> QueueFile :=
  updateTaskStatus i running.

Definition markTaskDone (i : string) : QueueFile -> QueueFile :=
  updateTaskStatus i done.

Definition markTaskFailed (i : string) : QueueFile -> QueueFile :=
  updateTaskStatus i failed.

(** [setTaskParam] for each pair of [settings] in turn. *)
Definition setAll (i : string) (settings : list (string * string)) (file : QueueFile)
  : QueueFile :=
  fold_left (fun f pv => fst (setTaskParam i (fst pv) (snd pv) f)) settings file.

End TaskQueue.

(** * Properties *)

(** ** Strings *)

Module JsFacts.
Import Js.

Lemma append_cons (c : ascii) (a b : string) : String c a ++ b = String c (a ++ b).
Proof. reflexivity. Qed.

Lemma append_nil_l (b : string) : "" ++ b = b.
Proof. reflexivity. Qed.

Lemma startsWith_spec (s p : string) :
  startsWith s p = true <-> exists r, s = p ++ r.
Proof.
  revert s. induction p as [|c p IH]; intros s; simpl.
  - split; [intros _; now exists s | reflexivity].
  - destruct s as [|d s]; simpl.
    + split; [discriminate | intros [r Hr]; discriminate].
    + rewrite andb_true_iff, IH. split.
      * intros [Hc [r ->]]. apply Ascii.eqb_eq in Hc. subst. now exists r.
      * intros [r Hr]. injection Hr as -> ->. split.
        -- apply Ascii.eqb_refl.
        -- now exists r.
Qed.

Lemma endsWith_spec (s x : string) :
  endsWith s x = true <-> exists p, s = p ++ x.
Proof.
  induction s as [|c s IH].
  - cbn [endsWith]. rewrite orb_false_r, String.eqb_eq. split.
    + intros <-. now exists "".
    + intros [p Hp]. destruct p; simpl in Hp; [easy | discriminate].
  - cbn [endsWith]. rewrite orb_true_iff, String.eqb_eq, IH. split.
    + intros [<- | [p ->]]; [now exists "" | now exists (String c p)].
    + intros [p Hp]. destruct p as [|d p]; simpl in Hp.
      * now left.
      * injection Hp as -> ->. right. now exists p.
Qed.

Lemma includes_spec (s x : string) :
  includes s x = true <-> exists p r, s = p ++ x ++ r.
Proof.
  induction s as [|c s IH].
  - cbn [includes]. rewrite orb_false_r, startsWith_spec. split.
    + intros [r Hr]. now exists "", r.
    + intros [p [r Hr]]. destruct p; simpl in Hr; [now exists r | discriminate].
  - cbn [includes]. rewrite orb_true_iff, startsWith_spec, IH. split.
    + intros [[r Hr] | [p [r ->]]]; [now exists "", r | now exists (String c p), r].
    + intros [p [r Hr]]. destruct p as [|d p]; simpl in Hr.
      * left. now exists r.
      * injection Hr as -> ->. right. now exists p, r.
Qed.

Lemma slice_startsWith (s p : string) :
  startsWith s p = true -> s = p ++ slice (String.length p) s.
Proof.
  revert s. induction p as [|c p IH]; intros s H; simpl in *.
  - reflexivity.
  - destruct s as [|d s]; [discriminate|].
    apply andb_true_iff in H as [Hc Hs]. apply Ascii.eqb_eq in Hc. subst.
    rewrite append_cons. f_equal. now apply IH.
Qed.

Lemma append_assoc (a b c : string) : (a ++ b) ++ c = a ++ (b ++ c).
Proof. induction a; rewrite ?append_nil_l, ?append_cons; congruence. Qed.

Lemma append_inv_head (a b c : string) : a ++ b = a ++ c -> b = c.
Proof.
  induction a; rewrite ?append_nil_l, ?append_cons; intros H; [easy | injection H; auto].
Qed.

Lemma length_append (a b : string) :
  String.length (a +:+ b) = (String.length a + String.length b)%nat.
Proof.
  induction a as [|x a IH]; [reflexivity|].
  rewrite append_cons. cbn [String.length]. now rewrite IH.
Qed.

Lemma append_inv_tail (a b c : string) : a +:+ c = b +:+ c -> a = b.
Proof.
  revert b. induction a as [|x a IH]; intros [|y b] H.
  - reflexivity.
  - exfalso. apply (f_equal String.length) in H.
    rewrite append_nil_l, append_cons in H. cbn [String.length] in H.
    rewrite length_append in H. lia.
  - exfalso. apply (f_equal String.length) in H.
    rewrite append_nil_l, append_cons in H. cbn [String.length] in H.
    rewrite length_append in H. lia.
  - rewrite !append_cons in H. injection H as -> H. f_equal. now apply IH.
Qed.

(** What an object holds after an assignment. *)
Lemma setProperty_lookup (obj : gmap string string) (key value k : string) :
  setProperty obj key value !! k =
  if String.eqb k key && negb (String.eqb key "__proto__" &&
                              negb (bool_decide (is_Some (obj !! key))))
  then Some value else obj !! k.
Proof.
  unfold setProperty.
  destruct (String.eqb key "__proto__" && negb (bool_decide (is_Some (obj !! key)))).
  - now rewrite andb_false_r.
  - rewrite andb_true_r. destruct (String.eqb_spec k key) as [-> | Hne].
    + apply lookup_insert_eq.
    + now apply lookup_insert_ne.
Qed.

End JsFacts.

(** ** The domain gate *)

Module GateFacts.
Import Js JsFacts DomainAllowlist.

Lemma patternMatches_spec (host pattern : string) :
  patternMatches host pattern = true <-> entryPermits host (normalise pattern).
Proof.
  unfold patternMatches, entryPermits, normalise.
  set (lower := trim (toLowerCase pattern)).
  destruct (startsWith lower "*.") eqn:Hw.
  - pose proof (slice_startsWith _ _ Hw) as Hl. cbn [String.length] in Hl.
    rewrite orb_true_iff, String.eqb_eq, endsWith_spec. split.
    + intros H. right. exists (slice 2 lower). split; [exact Hl | exact H].
    + intros [He | [domain [Hd H]]].
      * right. exists "*". rewrite He at 1. rewrite Hl at 1. reflexivity.
      * assert (Hs : slice 2 lower = domain)
          by (apply (append_inv_head "*."); congruence).
        now rewrite Hs.
  - rewrite String.eqb_eq. split; [now left|].
    intros [He | [domain [Hd _]]]; [exact He|].
    assert (startsWith lower "*." = true) by (apply startsWith_spec; eauto).
    congruence.
Qed.

Lemma matchPatterns_spec (host : string) (allowed : list string) :
  matchPatterns host allowed = true <->
  exists entry, In entry allowed /\ entryPermits host (normalise entry).
Proof.
  induction allowed as [|p rest IH]; cbn [matchPatterns].
  - split; [discriminate | intros [e [[] _]]].
  - destruct (patternMatches host p) eqn:Hp.
    + split; [|reflexivity]. intros _. exists p. split; [now left|].
      now apply patternMatches_spec.
    + rewrite IH. split.
      * intros [e [Hin He]]. exists e. split; [now right | exact He].
      * intros [e [[<- | Hin] He]].
        -- apply patternMatches_spec in He. congruence.
        -- now exists e.
Qed.

Lemma securityMessage_names (url flowName : string) (allowed : list string) :
  includes (securityMessage url allowed flowName) url = true /\
  includes (securityMessage url allowed flowName) flowName = true.
Proof.
  unfold securityMessage. split; apply includes_spec.
  - eexists _, _. reflexivity.
  - exists ("[SECURITY] Navigation to " ++ url ++
            " is blocked by the domain allowlist for flow " ++ dquote).
    eexists. rewrite !append_assoc. reflexivity.
Qed.

Lemma isDomainAllowed_nonempty (parse : string -> Result string) (url : string)
    (allowed : list string) :
  allowed <> [] ->
  isDomainAllowed parse url allowed =
  match parse url with
  | Throw _ => Ok false
  | Ok host => Ok (matchPatterns (toLowerCase host) allowed)
  end.
Proof. destruct allowed; [congruence | reflexivity]. Qed.

(** C2, as the code has it.  An empty allowlist permits every URL.  With a
    non-empty allowlist a URL whose host is [host] is permitted exactly when
    some entry, lower-cased and trimmed of surrounding white space, equals the
    lower-cased host, or has the form [*.<domain>] with the host being the
    bare domain or ending in [.<domain>]; every other URL, one that does not
    parse included, is rejected, and the error of the rejection names the flow
    and the blocked URL.  The
    allowlist [*.example.com] lets [example.com] and [app.example.com]
    through and stops [evil.com]. *)
Theorem gate_permits_normalised_entries
    (parse : string -> Result string) (url flowName : string)
    (allowed : list string) :
  (allowed = [] -> isDomainAllowed parse url allowed = Ok true) /\
  (forall host, allowed <> [] -> parse url = Ok host ->
     (isDomainAllowed parse url allowed = Ok true <->
      exists entry, In entry allowed /\
                    entryPermits (toLowerCase host) (normalise entry)) /\
     (isDomainAllowed parse url allowed = Ok true \/
      isDomainAllowed parse url allowed = Ok false)) /\
  (forall t, allowed <> [] -> parse url = Throw t ->
     isDomainAllowed parse url allowed = Ok false) /\
  (isDomainAllowed parse url allowed = Ok true ->
   assertDomainAllowed parse url allowed flowName = Ok tt) /\
  (isDomainAllowed parse url allowed = Ok false ->
   exists msg,
     assertDomainAllowed parse url allowed flowName = Throw (ErrorObj msg) /\
     includes msg flowName = true /\ includes msg url = true) /\
  (parse "https://example.com" = Ok "example.com" ->
   parse "https://app.example.com" = Ok "app.example.com" ->
   parse "https://evil.com" = Ok "evil.com" ->
   isDomainAllowed parse "https://example.com" ["*.example.com"] = Ok true /\
   isDomainAllowed parse "https://app.example.com" ["*.example.com"] = Ok true /\
   isDomainAllowed parse "https://evil.com" ["*.example.com"] = Ok false).
Proof.
  split; [intros ->; reflexivity|].
  split.
  { intros host Hne Hp. rewrite (isDomainAllowed_nonempty _ _ _ Hne), Hp. split.
    - split.
      + intros E. apply matchPatterns_spec. congruence.
      + intros E. f_equal. now apply matchPatterns_spec.
    - destruct (matchPatterns (toLowerCase host) allowed); auto. }
  split.
  { intros t Hne Hp. now rewrite (isDomainAllowed_nonempty _ _ _ Hne), Hp. }
  split.
  { unfold assertDomainAllowed. now intros ->. }
  split.
  { unfold assertDomainAllowed. intros ->.
    exists (securityMessage url allowed flowName).
    destruct (securityMessage_names url flowName allowed). auto. }
  intros H1 H2 H3. unfold isDomainAllowed. cbn [length Nat.eqb].
  rewrite H1, H2, H3. repeat split.
Qed.

Lemma gate_permits_normalised_entries_witness :
  isDomainAllowed plainHostname "https://EXAMPLE.COM:8080/path" [" Example.com "]
  = Ok true /\
  exists entry, In entry [" Example.com "] /\
                entryPermits (toLowerCase "example.com") (normalise entry).
Proof.
  assert (Hne : [" Example.com "] <> []) by discriminate.
  assert (Hp : plainHostname "https://EXAMPLE.COM:8080/path" = Ok "example.com")
    by reflexivity.
  destruct (gate_permits_normalised_entries plainHostname
              "https://EXAMPLE.COM:8080/path" "my-flow" [" Example.com "])
    as [_ [H _]].
  destruct (H "example.com" Hne Hp) as [Hiff _].
  assert (Hok : isDomainAllowed plainHostname "https://EXAMPLE.COM:8080/path"
                  [" Example.com "] = Ok true) by reflexivity.
  split; [exact Hok | exact (proj1 Hiff Hok)].
Defined.

(** The claim read to the letter compares the host with the entry itself;
    the gate also lets a host through whose entry carries white space. *)
Lemma gate_untrimmed_entry_counterexample :
  isDomainAllowed plainHostname "https://example.com" [" example.com"] = Ok true /\
  ~ (exists entry, In entry [" example.com"] /\
                   entryPermits (toLowerCase "example.com") (toLowerCase entry)).
Proof.
  split; [reflexivity|].
  intros [entry [[<- | []] [He | [domain [Hd _]]]]]; vm_compute in *; discriminate.
Qed.

Lemma isDomainAllowed_returns (parse : string -> Result string) (url : string)
    (allowed : list string) :
  exists b, isDomainAllowed parse url allowed = Ok b.
Proof.
  unfold isDomainAllowed. destruct (length allowed =? 0)%nat; [eauto|].
  destruct (parse url); eauto.
Qed.

(** C10.  The decision is a value for every URL, every allowlist and every
    behaviour of the URL parser: with an empty allowlist it is [true]
    whatever the parser would do with the URL, and with a non-empty allowlist
    a URL the parser rejects gives [false]. *)
Theorem isDomainAllowed_never_throws
    (parse : string -> Result string) (url : string) (allowed : list string) :
  (exists b, isDomainAllowed parse url allowed = Ok b) /\
  (allowed = [] ->
   forall parse' : string -> Result string,
     isDomainAllowed parse' url allowed = Ok true) /\
  (allowed <> [] -> forall t, parse url = Throw t ->
   isDomainAllowed parse url allowed = Ok false).
Proof.
  repeat split.
  - apply isDomainAllowed_returns.
  - intros -> parse'. reflexivity.
  - intros Hne t Ht. now rewrite (isDomainAllowed_nonempty _ _ _ Hne), Ht.
Qed.

Lemma isDomainAllowed_never_throws_witness :
  isDomainAllowed (fun _ => Throw (ErrorObj "Invalid URL")) "not-a-url" [] = Ok true /\
  isDomainAllowed plainHostname "not-a-url" ["example.com"] = Ok false.
Proof.
  destruct (isDomainAllowed_never_throws plainHostname "not-a-url" [])
    as [_ [Hempty _]].
  destruct (isDomainAllowed_never_throws plainHostname "not-a-url" ["example.com"])
    as [_ [_ Hbad]].
  split.
  - apply Hempty. reflexivity.
  - apply (Hbad ltac:(discriminate) (ErrorObj "Invalid URL")). reflexivity.
Defined.

End GateFacts.

(** ** Backoff and bounded retry *)

Module RetryFacts.
Import Js StepTypes Eff Retry Attempts.
Local Open Scope list_scope.

Lemma scaled_power (initial multiplier : Q) (n : nat) :
  (scaled initial multiplier n == initial * multiplier ^ Z.of_nat n)%Q.
Proof.
  induction n as [|n IH].
  - cbn [scaled]. change (multiplier ^ Z.of_nat 0)%Q with 1%Q. ring.
  - cbn [scaled]. rewrite IH, Nat2Z.inj_succ, <- Z.add_1_r.
    rewrite Qpower_plus' by lia. change (multiplier ^ 1)%Q with multiplier. ring.
Qed.

(** C5.  For every configuration and every attempt number [n], counted from
    zero, the delay is the initial value scaled [n] times by the multiplier
    and capped by the ceiling; at attempt zero the initial value is not
    scaled; with 500, 2 and 8000 the delays of the attempts 0 to 3 are 500,
    1000, 2000 and 4000, and the delay of attempt 10 is 8000. *)
Theorem calcBackoff_formula (config : RetryConfig) (n : nat) :
  (calcBackoff (Z.of_nat n) config == backoffFormula config n)%Q /\
  (calcBackoff 0 config == Qmin (backoffMs config) (maxBackoffMs config))%Q /\
  (forall r : Z,
     let c := {| maxRetries := r; backoffMs := 500; backoffMultiplier := 2;
                 maxBackoffMs := 8000 |} in
     (calcBackoff 0 c == 500 /\ calcBackoff 1 c == 1000 /\
      calcBackoff 2 c == 2000 /\ calcBackoff 3 c == 4000 /\
      calcBackoff 10 c == 8000)%Q).
Proof.
  split; [|split].
  - unfold calcBackoff, backoffFormula.
    apply Q.min_compat; [|reflexivity].
    symmetry. apply scaled_power.
  - unfold calcBackoff. apply Q.min_compat; [|reflexivity].
    change (backoffMultiplier config ^ 0)%Q with 1%Q. ring.
  - intros r c. repeat split; reflexivity.
Qed.

Section Exhaustion.
  Context {St T : Type}.
  Variable fn : M St T.
  Variable config : RetryConfig.
  Variable idx : Z.
  Variable cb : option OnStepFail.

  Hypothesis always_fails : forall x, exists e, snd (fn x) = Throw e.
  Hypothesis always_retry : forall e a, answers cb idx e a = retry.

Lemma counted_fails (m : Mock St) :
    counted fn m =
    ({| inner := fst (fn (inner m)); calls := S (calls m); sleeps := sleeps m |},
     Throw (thrownBy fn (inner m))).
  Proof.
    unfold counted, thrownBy. destruct (always_fails (inner m)) as [e He].
    destruct (fn (inner m)) as [s' r]. cbn in *. now subst.
  Qed.

Lemma withRetryLoop_exhausts (fuel : nat) :
    forall (attempt : Z) (lastError : Thrown) (m : Mock St),
      Z.of_nat fuel = maxRetries config + 1 - attempt ->
      let out := withRetryLoop recordedSleep idx (counted fn) config cb
                   fuel attempt lastError m in
      calls (fst out) = (calls m + fuel)%nat /\
      inner (fst out) = stateBefore fn (inner m) fuel /\
      snd out = Throw (match fuel with
                       | O => lastError
                       | S k => toError (thrownBy fn (stateBefore fn (inner m) k))
                       end).
Proof.
    induction fuel as [|k IH]; intros attempt lastError m Hfuel.
    - cbn [withRetryLoop].
      replace (attempt <=? maxRetries config) with false by lia.
      cbn. repeat split. lia.
    - cbn [withRetryLoop].
      replace (attempt <=? maxRetries config) with true by lia.
      rewrite counted_fails.
      assert (Hstep : forall m' : Mock St,
                 inner m' = fst (fn (inner m)) -> calls m' = S (calls m) ->
                 let out := withRetryLoop recordedSleep idx (counted fn) config cb
                              k (attempt + 1) (toError (thrownBy fn (inner m))) m' in
                 calls (fst out) = (calls m + S k)%nat /\
                 inner (fst out) = stateBefore fn (inner m) (S k) /\
                 snd out = Throw (toError (thrownBy fn (stateBefore fn (inner m) k)))).
      { intros m' Hi Hc.
        destruct (IH (attempt + 1) (toError (thrownBy fn (inner m))) m'
                     ltac:(lia)) as [H1 [H2 H3]].
        cbn zeta. rewrite H1, H2, H3, Hi, Hc. repeat split.
        - lia.
        - unfold stateBefore. now rewrite Nat.iter_succ_r.
        - destruct k as [|k']; [reflexivity|].
          unfold stateBefore. now rewrite Nat.iter_succ_r. }
      destruct (attempt <? maxRetries config).
      + pose proof (always_retry (toError (thrownBy fn (inner m))) attempt) as Ha.
        unfold answers in Ha. rewrite Ha. now apply Hstep.
      + now apply Hstep.
Qed.

End Exhaustion.

Lemma stateBefore_next {St T} (fn : M St T) (s : St) (k : nat) :
  stateBefore fn s (S k) = stateBefore fn (fst (fn s)) k.
Proof. unfold stateBefore. now rewrite Nat.iter_succ_r. Qed.

Lemma shifted_delays (f : Z -> Q) (attempt : Z) (k : nat) :
  map (fun i => f (attempt + Z.of_nat i)) (seq 0 (S k)) =
  f attempt :: map (fun i => f (attempt + 1 + Z.of_nat i)) (seq 0 k).
Proof.
  cbn [seq map]. f_equal.
  - f_equal. lia.
  - rewrite <- seq_shift, map_map. apply map_ext. intros i. f_equal. lia.
Qed.

(** The callback answers [retry] to the failures of the attempts before
    [attempt + k] and something else to the failure of that attempt, which
    is not the last: the loop ends there. *)
Section Deciding.
Context {St T : Type}.
Variable fn : M St T.
Variable config : RetryConfig.
Variable idx : Z.
Variable cb : OnStepFail.

Hypothesis always_fails : forall x, exists e, snd (fn x) = Throw e.

Lemma withRetryLoop_decides (k : nat) :
  forall (fuel : nat) (attempt : Z) (lastError : Thrown) (m : Mock St),
    Z.of_nat fuel = maxRetries config + 1 - attempt ->
    attempt + Z.of_nat k < maxRetries config ->
    (forall i, (i < k)%nat ->
       cb idx (toError (thrownBy fn (stateBefore fn (inner m) i)))
          (attempt + Z.of_nat i) = retry) ->
    let e := toError (thrownBy fn (stateBefore fn (inner m) k)) in
    let out := withRetryLoop recordedSleep idx (counted fn) config (Some cb)
                 fuel attempt lastError m in
    cb idx e (attempt + Z.of_nat k) <> retry ->
    calls (fst out) = (calls m + S k)%nat /\
    sleeps (fst out) =
      sleeps m ++ map (fun i => calcBackoff (attempt + Z.of_nat i) config) (seq 0 k) /\
    snd out = match cb idx e (attempt + Z.of_nat k) with
              | skip => Ok None
              | _ => Throw e
              end.
Proof.
  induction k as [|k IH]; intros fuel attempt lastError m Hfuel Hlt Hretry e out Hdec;
    subst e out.
  - destruct fuel as [|fuel]; [lia|]. cbn [withRetryLoop].
    replace (attempt <=? maxRetries config) with true by lia.
    rewrite (counted_fails fn always_fails).
    replace (attempt <? maxRetries config) with true by lia.
    change (stateBefore fn (inner m) 0) with (inner m) in Hdec |- *.
    rewrite Z.add_0_r in Hdec |- *.
    destruct (cb idx (toError (thrownBy fn (inner m))) attempt); [congruence| |];
      cbn [fst snd calls sleeps seq map]; rewrite app_nil_r;
      (split; [lia|]); split; reflexivity.
  - destruct fuel as [|fuel]; [lia|]. cbn [withRetryLoop].
    replace (attempt <=? maxRetries config) with true by lia.
    rewrite (counted_fails fn always_fails).
    replace (attempt <? maxRetries config) with true by lia.
    pose proof (Hretry 0%nat ltac:(lia)) as H0.
    change (stateBefore fn (inner m) 0) with (inner m) in H0.
    rewrite Z.add_0_r in H0.
    rewrite H0.
    set (m1 := recordedSleep (calcBackoff attempt config)
                 {| inner := fst (fn (inner m)); calls := S (calls m);
                    sleeps := sleeps m |}).
    assert (Hin : inner m1 = fst (fn (inner m))) by reflexivity.
    destruct (IH fuel (attempt + 1) (toError (thrownBy fn (inner m))) m1) as [H1 [H2 H3]].
    + lia.
    + lia.
    + intros i Hi. rewrite Hin, <- stateBefore_next.
      replace (attempt + 1 + Z.of_nat i) with (attempt + Z.of_nat (S i)) by lia.
      apply Hretry. lia.
    + rewrite Hin, <- stateBefore_next.
      replace (attempt + 1 + Z.of_nat k) with (attempt + Z.of_nat (S k)) by lia.
      exact Hdec.
    + rewrite Hin, <- stateBefore_next in H3.
      replace (attempt + 1 + Z.of_nat k) with (attempt + Z.of_nat (S k)) in H3 by lia.
      split; [rewrite H1; cbn [m1 recordedSleep calls]; lia|].
      split; [|exact H3].
      rewrite H2. cbn [m1 recordedSleep sleeps].
      rewrite (shifted_delays (fun a => calcBackoff a config) attempt k).
      now rewrite <- app_assoc.
Qed.

End Deciding.

(** C4.  An operation that always fails is invoked [maxRetries + 1] times,
    three times when [maxRetries] is 2, and the error of the last invocation
    is then thrown; when the callback answers [abort] to the first failure
    the operation has been invoked once and its error is thrown at once, no
    delay taken; when the callback answers [skip] to a failure, the first or
    a later one, the result is [null], the operation having been invoked up
    to that failure and no further, the delays of the earlier attempts
    taken, and [abort] at a later failure throws the error of that failure
    in the same way. *)
Theorem withRetry_invocations {St T : Type} (idx : Z) (fn : M St T)
    (config : RetryConfig) (s : St) :
  0 <= maxRetries config ->
  (forall x, exists e, snd (fn x) = Throw e) ->
  let run cb := withRetry recordedSleep idx (counted fn) config cb (mockStart s) in
  (calls (fst (run None)) = Z.to_nat (maxRetries config + 1) /\
   snd (run None) =
   Throw (toError (thrownBy fn (stateBefore fn s (Z.to_nat (maxRetries config)))))) /\
  (maxRetries config = 2 -> calls (fst (run None)) = 3%nat) /\
  (forall cb : OnStepFail,
     cb idx (toError (thrownBy fn s)) 0 = abort ->
     calls (fst (run (Some cb))) = 1%nat /\
     sleeps (fst (run (Some cb))) = [] /\
     snd (run (Some cb)) = Throw (toError (thrownBy fn s))) /\
  (forall (cb : OnStepFail) (k : nat),
     Z.of_nat k < maxRetries config ->
     (forall i, (i < k)%nat ->
        cb idx (toError (thrownBy fn (stateBefore fn s i))) (Z.of_nat i) = retry) ->
     let failure := toError (thrownBy fn (stateBefore fn s k)) in
     (cb idx failure (Z.of_nat k) = skip ->
      calls (fst (run (Some cb))) = S k /\
      sleeps (fst (run (Some cb))) = backoffs config k /\
      snd (run (Some cb)) = Ok None) /\
     (cb idx failure (Z.of_nat k) = abort ->
      calls (fst (run (Some cb))) = S k /\
      sleeps (fst (run (Some cb))) = backoffs config k /\
      snd (run (Some cb)) = Throw failure)).
Proof.
  intros Hpos Hfail run.
  assert (Hnone : calls (fst (run None)) = Z.to_nat (maxRetries config + 1) /\
                  snd (run None) =
                  Throw (toError (thrownBy fn
                           (stateBefore fn s (Z.to_nat (maxRetries config)))))).
  { subst run. unfold withRetry.
    destruct (withRetryLoop_exhausts fn config idx None Hfail
                (fun _ _ => eq_refl) (Z.to_nat (maxRetries config + 1)) 0
                (ErrorObj "Unknown error") (mockStart s) ltac:(lia)) as [H1 [_ H3]].
    cbn zeta in H1, H3. split; [exact H1|].
    rewrite H3. replace (Z.to_nat (maxRetries config + 1))
      with (S (Z.to_nat (maxRetries config))) by lia.
    reflexivity. }
  split; [exact Hnone|]. split; [|split].
  - intros E. destruct Hnone as [H _]. rewrite H, E. reflexivity.
  - intros cb Hcb. subst run. unfold withRetry.
    replace (Z.to_nat (maxRetries config + 1))
      with (S (Z.to_nat (maxRetries config))) by lia.
    cbn [withRetryLoop]. replace (0 <=? maxRetries config) with true by lia.
    rewrite (counted_fails fn Hfail). cbn [inner mockStart].
    destruct (0 <? maxRetries config) eqn:Hlt.
    + rewrite Hcb. cbn. auto.
    + assert (maxRetries config = 0) as E by lia.
      rewrite E. change (Z.to_nat 0) with 0%nat. cbn [withRetryLoop].
      rewrite E. cbn. auto.
  - intros cb k Hlt Hretry failure. subst run failure. unfold withRetry.
    assert (Hloop : forall action, action <> retry ->
              cb idx (toError (thrownBy fn (stateBefore fn s k))) (Z.of_nat k) = action ->
              let out := withRetryLoop recordedSleep idx (counted fn) config (Some cb)
                           (Z.to_nat (maxRetries config + 1)) 0
                           (ErrorObj "Unknown error") (mockStart s) in
              calls (fst out) = S k /\
              sleeps (fst out) = backoffs config k /\
              snd out = match action with
                        | skip => Ok None
                        | _ => Throw (toError (thrownBy fn (stateBefore fn s k)))
                        end).
    { intros action Hne Hcb.
      destruct (withRetryLoop_decides fn config idx cb Hfail k
                  (Z.to_nat (maxRetries config + 1)) 0 (ErrorObj "Unknown error")
                  (mockStart s)) as [H1 [H2 H3]].
      - lia.
      - lia.
      - intros i Hi. cbn [inner mockStart]. rewrite Z.add_0_l. now apply Hretry.
      - cbn [inner mockStart]. rewrite Z.add_0_l, Hcb. exact Hne.
      - cbn [inner mockStart] in H3. rewrite Z.add_0_l, Hcb in H3.
        cbn zeta. split; [exact H1|]. split; [|exact H3].
        rewrite H2. cbn [mockStart sleeps app]. unfold backoffs.
        apply map_ext. intros i. now rewrite Z.add_0_l. }
    split; intros Hcb.
    + exact (Hloop skip ltac:(discriminate) Hcb).
    + exact (Hloop abort ltac:(discriminate) Hcb).
Qed.

Lemma withRetry_invocations_witness :
  calls (fst (withRetry recordedSleep 0 (counted alwaysFails)
                {| maxRetries := 2; backoffMs := 1; backoffMultiplier := 1;
                   maxBackoffMs := 5 |} None (mockStart tt))) = 3%nat.
Proof.
  refine (proj1 (proj2 (withRetry_invocations 0 alwaysFails
            {| maxRetries := 2; backoffMs := 1; backoffMultiplier := 1;
               maxBackoffMs := 5 |} tt _ _)) _).
  - cbn. lia.
  - intros x. exists (ErrorObj "always fails"). reflexivity.
  - reflexivity.
Defined.

End RetryFacts.

(** ** Run statistics *)

Module VersioningFacts.
Import Js JsFacts StepTypes Eff FlowVersioning.
Local Open Scope list_scope.

Lemma round_whole (x : Q) (k : Z) : (x == inject_Z k)%Q -> round x = k.
Proof.
  intros E. unfold round. rewrite E.
  assert (Hlo : k <= Qfloor (inject_Z k + (1 # 2))).
  { rewrite <- (Qfloor_Z k) at 1. apply Qfloor_resp_le.
    rewrite <- (Qplus_0_r (inject_Z k)) at 1.
    apply Qplus_le_r. discriminate. }
  assert (Hhi : Qfloor (inject_Z k + (1 # 2)) < k + 1).
  { rewrite Zlt_Qlt. eapply Qle_lt_trans; [apply Qfloor_le|].
    rewrite inject_Z_plus. apply Qplus_lt_r. reflexivity. }
  lia.
Qed.

Lemma updateLatest_snoc (f : FlowVersion -> FlowVersion)
    (earlier : list FlowVersion) (latest : FlowVersion) :
  updateLatest f (earlier ++ [latest]) = earlier ++ [f latest].
Proof.
  induction earlier as [|v rest IH]; [reflexivity|].
  cbn [app updateLatest]. rewrite IH.
  destruct (rest ++ [latest]) eqn:E; [|reflexivity].
  destruct rest; discriminate.
Qed.

Lemma recordRunResult_snoc (ok : bool) (d : FlowDir)
    (earlier : list FlowVersion) (latest : FlowVersion) :
  versions d = Some (earlier ++ [latest]) ->
  recordRunResult ok d =
  {| files := files d; versions := Some (earlier ++ [recorded ok latest]) |}.
Proof.
  intros Hv. unfold recordRunResult, loadVersionHistory. rewrite Hv.
  rewrite updateLatest_snoc.
  destruct (earlier ++ [latest]) eqn:E; [destruct earlier; discriminate|].
  reflexivity.
Qed.

Lemma round_near (x : Q) (k : Z) :
  (inject_Z k - (1 # 4) <= x)%Q -> (x <= inject_Z k + (1 # 4))%Q -> round x = k.
Proof.
  intros Hlo Hhi. unfold round.
  assert (H1 : k <= Qfloor (x + (1 # 2))).
  { rewrite <- (Qfloor_Z k) at 1. apply Qfloor_resp_le. lra. }
  assert (H2 : Qfloor (x + (1 # 2)) < k + 1).
  { rewrite Zlt_Qlt. eapply Qle_lt_trans; [apply Qfloor_le|].
    rewrite inject_Z_plus. change (inject_Z 1) with 1%Q. lra. }
  lia.
Qed.

Lemma recorded_near (ok : bool) (latest : FlowVersion) (k : Z) :
  0 <= countOf latest ->
  standsFor latest k ->
  (rateOf (recorded ok latest) ==
   inject_Z (k + outcomeZ ok) / inject_Z (countOf latest + 1))%Q.
Proof.
  intros Hc [Hlo Hhi]. unfold recorded, rateOf at 1. cbn [successRate].
  fold (countOf latest). fold (outcomeZ ok).
  replace (countOf latest + 1 - 1) with (countOf latest) by lia.
  now rewrite (round_near _ k Hlo Hhi).
Qed.

Lemma count_nonzero (n : Z) : 0 <= n -> ~ (inject_Z (n + 1) == 0)%Q.
Proof.
  intros Hn E. pose proof (proj1 (inject_Z_injective (n + 1) 0) E). lia.
Qed.




End VersioningFacts.

(** ** Rollback *)

Module RollbackFacts.
Import Js JsFacts StepTypes Eff FlowVersioning.
Local Open Scope list_scope.

(** *** The sort puts a best element first *)

Section Sorting.
  Context {A : Type}.
  Variable weight : A -> Q.

Lemma insertBy_In (x : A) (l : list A) (y : A) :
    In y (insertBy (byWeight weight) x l) <-> y = x \/ In y l.
  Proof.
    induction l as [|h t IH]; cbn [insertBy].
    - cbn. intuition.
    - destruct (Qle_bool ((byWeight weight) x h) 0); cbn [In]; [intuition|].
      rewrite IH. intuition.
  Qed.

Lemma insertBy_headBest (x : A) (l : list A) :
    headBest weight l -> headBest weight (insertBy (byWeight weight) x l).
  Proof.
    destruct l as [|h t]; cbn [insertBy headBest].
    - intros _ y [<- | []]. apply Qle_refl.
    - intros Hh. destruct (Qle_bool ((byWeight weight) x h) 0) eqn:E.
      + apply Qle_bool_iff in E. unfold byWeight in E.
        assert (Hxh : (weight h <= weight x)%Q).
        { apply Qle_minus_iff in E. apply Qle_minus_iff.
          eapply Qle_trans; [exact E|]. apply Qle_lteq. right. ring. }
        intros y [<- | Hy]; [apply Qle_refl|].
        eapply Qle_trans; [apply Hh, Hy | exact Hxh].
      + assert (Hhx : (weight x <= weight h)%Q).
        { destruct (Qlt_le_dec (weight h) (weight x)) as [Hlt | Hle]; [|exact Hle].
          exfalso. assert (Qle_bool ((byWeight weight) x h) 0 = true); [|congruence].
          apply Qle_bool_iff. unfold byWeight. apply Qlt_le_weak in Hlt.
          apply Qle_minus_iff in Hlt. apply Qle_minus_iff.
          eapply Qle_trans; [exact Hlt|]. apply Qle_lteq. right. ring. }
        intros y [<- | Hy]; [apply Qle_refl|].
        apply insertBy_In in Hy as [-> | Hy]; [exact Hhx|].
        apply Hh. now right.
  Qed.

Lemma sortBy_In (l : list A) (y : A) : In y (sortBy (byWeight weight) l) <-> In y l.
  Proof.
    induction l as [|x t IH]; [reflexivity|].
    cbn [sortBy fold_right]. fold (sortBy (byWeight weight) t).
    rewrite insertBy_In, IH. cbn. intuition.
  Qed.

Lemma sortBy_headBest (l : list A) : headBest weight (sortBy (byWeight weight) l).
  Proof.
    induction l as [|x t IH]; [exact I|].
    cbn [sortBy fold_right]. now apply insertBy_headBest.
  Qed.

Lemma sortBy_nonempty (l : list A) : l <> [] -> sortBy (byWeight weight) l <> [].
  Proof.
    destruct l as [|x t]; [congruence|]. intros _ E.
    assert (In x (sortBy (byWeight weight) (x :: t))) as H by (apply sortBy_In; now left).
    rewrite E in H. exact H.
  Qed.

End Sorting.

Lemma scored_In (now : Z) (history : list FlowVersion) (p : FlowVersion * Q) :
  In p (scored now history) <-> In (fst p) history /\ snd p = scoreOf now (fst p).
Proof.
  unfold scored. rewrite in_map_iff. split.
  - intros [v [<- Hv]]. auto.
  - intros [Hv Hs]. exists (fst p). split; [|exact Hv]. destruct p; cbn in *; congruence.
Qed.

Lemma rollbackTarget_best (now : Z) (history : list FlowVersion) (target : FlowVersion) :
  rollbackTarget now history = Some target ->
  In target history /\
  forall v, In v history -> (scoreOf now v <= scoreOf now target)%Q.
Proof.
  unfold rollbackTarget.
  pose proof (sortBy_headBest (A := FlowVersion * Q) snd (scored now history)) as Hb.
  pose proof (sortBy_In (A := FlowVersion * Q) snd (scored now history)) as Hin.
  change (byWeight (A := FlowVersion * Q) snd) with byScore in *.
  destruct (sortBy byScore (scored now history)) as [|[t q] rest]; [discriminate|].
  intros [= ->].
  assert (Ht : In (target, q) (scored now history)) by (apply Hin; now left).
  apply scored_In in Ht as [Ht Hq]. cbn in Ht, Hq. split; [exact Ht|].
  intros v Hv. cbn [headBest] in Hb.
  assert (Hvin : In (v, scoreOf now v) ((target, q) :: rest))
    by (apply Hin; apply scored_In; auto).
  specialize (Hb _ Hvin). cbn [snd] in Hb. now rewrite Hq in Hb.
Qed.

Lemma rollbackTarget_some (now : Z) (history : list FlowVersion) :
  history <> [] -> exists target, rollbackTarget now history = Some target.
Proof.
  intros Hne. unfold rollbackTarget.
  pose proof (sortBy_nonempty (A := FlowVersion * Q) snd (scored now history)) as Hs.
  change (byWeight (A := FlowVersion * Q) snd) with byScore in *.
  destruct (sortBy byScore (scored now history)) as [|[t q] rest].
  - exfalso. apply Hs; [|reflexivity]. destruct history; [congruence | discriminate].
  - eauto.
Qed.


(** *** Archive names *)

Lemma archiveName_inj (a b : Z) : archiveName a = archiveName b -> a = b.
Proof.
  unfold archiveName. intros H.
  apply append_inv_head in H. apply append_inv_tail in H.
  now apply (inj pretty) in H.
Qed.

Lemma archiveName_not_script (n : Z) : archiveName n <> "script.ts".
Proof.
  unfold archiveName. rewrite !append_cons, append_nil_l. discriminate.
Qed.

(** *** Histories built by archiving *)

Lemma lastVersion_cons (v : FlowVersion) (rest : list FlowVersion) :
  lastVersion (v :: rest) =
  match rest with
  | [] => version v
  | _ => lastVersion rest
  end.
Proof. destruct rest; reflexivity. Qed.

Lemma wellFormedFrom_In (history : list FlowVersion) :
  forall low v, wellFormedFrom low history -> In v history ->
    low < version v /\ version v <= lastVersion history /\
    scriptFile v = archiveName (version v).
Proof.
  induction history as [|h rest IH]; intros low v Hwf Hin; [destruct Hin|].
  destruct Hwf as [Hlow [Hname Hrest]]. rewrite lastVersion_cons.
  destruct Hin as [<- | Hin].
  - split; [exact Hlow|]. split; [|exact Hname].
    destruct rest as [|r rest']; [lia|].
    destruct (IH (version h) r Hrest ltac:(now left)) as [H1 [H2 _]]. lia.
  - destruct (IH (version h) v Hrest Hin) as [H1 [H2 H3]].
    destruct rest; [destruct Hin|]. repeat split; [lia | exact H2 | exact H3].
Qed.

Lemma wellFormedFrom_snoc (history : list FlowVersion) :
  forall low now,
    0 <= low -> wellFormedFrom low history ->
    low <= lastVersion history \/ history = [] ->
    wellFormedFrom low
      (history ++ [{| version := Z.max low (lastVersion history) + 1; savedAt := now;
                      scriptFile := archiveName (Z.max low (lastVersion history) + 1);
                      successRate := None; runCount := Some 0 |}]).
Proof.
  induction history as [|h rest IH]; intros low now Hlow Hwf _.
  - cbn. repeat split. unfold lastVersion. cbn. lia.
  - destruct Hwf as [Hh [Hname Hrest]]. cbn [app wellFormedFrom].
    split; [exact Hh|]. split; [exact Hname|].
    rewrite lastVersion_cons.
    destruct rest as [|r rest'].
    + cbn. repeat split. lia.
    + assert (Hb : version h < lastVersion (r :: rest')).
      { destruct (wellFormedFrom_In (r :: rest') (version h) r Hrest
                    ltac:(now left)) as [H1 [H2 _]]. lia. }
      specialize (IH (version h) now ltac:(lia) Hrest ltac:(left; lia)).
      replace (Z.max (version h) (lastVersion (r :: rest')))
        with (lastVersion (r :: rest')) in IH by lia.
      replace (Z.max low (lastVersion (r :: rest')))
        with (lastVersion (r :: rest')) by lia.
      exact IH.
Qed.

Lemma lastVersion_nonneg (history : list FlowVersion) :
  wellFormed history -> 0 <= lastVersion history.
Proof.
  intros Hwf. destruct history as [|h rest]; [unfold lastVersion; cbn; lia|].
  destruct (wellFormedFrom_In (h :: rest) 0 h Hwf ltac:(now left)) as [H1 [H2 _]].
  lia.
Qed.

Lemma archive_keeps_wellFormed (now : Z) (history : list FlowVersion) :
  wellFormed history -> wellFormed (history ++ [archiveEntry now history]).
Proof.
  intros Hwf. pose proof (lastVersion_nonneg history Hwf) as Hn.
  pose proof (wellFormedFrom_snoc history 0 now ltac:(lia) Hwf ltac:(left; lia)) as H.
  replace (Z.max 0 (lastVersion history)) with (lastVersion history) in H by lia.
  exact H.
Qed.

Lemma archiveCurrentScript_present (now : Z) (d : FlowDir) (current : string) :
  files d !! "script.ts" = Some current ->
  archiveCurrentScript now d =
  ({| files := <[archiveName (lastVersion (loadVersionHistory d) + 1) := current]> (files d);
      versions := Some (loadVersionHistory d ++ [archiveEntry now (loadVersionHistory d)]) |},
   Ok (lastVersion (loadVersionHistory d) + 1 + 1)).
Proof.
  intros Hc. unfold archiveCurrentScript, existsSync. rewrite Hc. cbn [negb].
  unfold bind, copyFileSync. rewrite Hc. reflexivity.
Qed.

Lemma archiveCurrentScript_absent (now : Z) (d : FlowDir) :
  files d !! "script.ts" = None -> archiveCurrentScript now d = (d, Ok 1).
Proof.
  intros Hc. unfold archiveCurrentScript, existsSync. now rewrite Hc.
Qed.


(** *** Scores *)

Lemma scoreOf_design (now : Z) (v : FlowVersion) :
  (scoreOf now v == designScore (rateOf v) (ageInDays now v))%Q.
Proof.
  unfold scoreOf, designScore, recencyOf, ageInDays.
  apply Qplus_comp; [reflexivity|]. apply Qmult_comp; [reflexivity|].
  apply Q.max_compat; [reflexivity|].
  change (inject_Z maxAgeMs) with (2592000000 # 1)%Q.
  change (inject_Z msPerDay) with (86400000 # 1)%Q.
  field.
Qed.

Lemma recencyOf_old (now : Z) (v : FlowVersion) :
  maxAgeMs <= now - savedAt v -> (recencyOf now v == 0)%Q.
Proof.
  intros Hold. unfold recencyOf. apply Q.max_l.
  assert (H1 : (1 <= inject_Z (now - savedAt v) / inject_Z maxAgeMs)%Q).
  { apply Qle_shift_div_l; [reflexivity|].
    rewrite Qmult_1_l. now rewrite <- Zle_Qle. }
  apply Qle_minus_iff in H1. apply Qle_minus_iff.
  eapply Qle_trans; [exact H1|]. apply Qle_lteq. right. ring.
Qed.

Lemma scoreOf_old (now : Z) (v : FlowVersion) :
  maxAgeMs <= now - savedAt v -> (scoreOf now v == (7 # 10) * rateOf v)%Q.
Proof.
  intros Hold. unfold scoreOf. rewrite (recencyOf_old now v Hold). ring.
Qed.

Lemma scoreOf_at (now : Z) (v : FlowVersion) (rate : Q) (age : Z) :
  (rateOf v == rate)%Q -> now - savedAt v = age ->
  (scoreOf now v ==
   (7 # 10) * rate + (3 # 10) * Qmax 0 (1 - inject_Z age / inject_Z maxAgeMs))%Q.
Proof.
  intros Hr Ha. unfold scoreOf, recencyOf. now rewrite Hr, Ha.
Qed.

(** The two versions of the worked example of the design. *)
Lemma example_scores (now : Z) (a b : FlowVersion) :
  (rateOf a == 9 # 10)%Q -> now - savedAt a = 40 * msPerDay ->
  (rateOf b == 6 # 10)%Q -> now - savedAt b = 1 * msPerDay ->
  (scoreOf now a == 63 # 100)%Q /\ (scoreOf now b == 71 # 100)%Q.
Proof.
  intros Ha Hta Hb Htb.
  rewrite (scoreOf_at now a _ _ Ha Hta), (scoreOf_at now b _ _ Hb Htb).
  split; reflexivity.
Qed.

Lemma example_target (now : Z) (a b : FlowVersion) (history : list FlowVersion) :
  (rateOf a == 9 # 10)%Q -> now - savedAt a = 40 * msPerDay ->
  (rateOf b == 6 # 10)%Q -> now - savedAt b = 1 * msPerDay ->
  history = [a; b] \/ history = [b; a] ->
  rollbackTarget now history = Some b.
Proof.
  intros Ha Hta Hb Htb Hh.
  destruct (example_scores now a b Ha Hta Hb Htb) as [Sa Sb].
  assert (Hne : history <> []) by (destruct Hh as [-> | ->]; discriminate).
  destruct (rollbackTarget_some now history Hne) as [t Ht].
  destruct (rollbackTarget_best now history t Ht) as [Hin Hbest].
  assert (Hb_in : In b history) by (destruct Hh as [-> | ->]; cbn; auto).
  assert (Hcases : t = a \/ t = b)
    by (destruct Hh as [-> | ->]; cbn in Hin; intuition).
  destruct Hcases as [-> | ->]; [|exact Ht].
  exfalso. specialize (Hbest b Hb_in). rewrite Sa, Sb in Hbest.
  vm_compute in Hbest. now apply Hbest.
Qed.

(** The earlier ordering, by rate alone, prefers the other version. *)
Lemma example_target_by_rate :
  let a := {| version := 1; savedAt := 0; scriptFile := archiveName 1;
              successRate := Some (9 # 10); runCount := Some 10 |} in
  let b := {| version := 2; savedAt := 39 * msPerDay; scriptFile := archiveName 2;
              successRate := Some (6 # 10); runCount := Some 10 |} in
  rollbackTargetByRate [a; b] = Some a /\
  rollbackTarget (40 * msPerDay) [a; b] = Some b.
Proof. split; reflexivity. Qed.

(** *** Rollback *)





End RollbackFacts.

(** ** The monad *)

Module EffFacts.
Import Js Eff.

Lemma bind_Ok {St A B} (p : M St A) (k : A -> M St B) (s s' : St) (a : A) :
  p s = (s', Ok a) -> bind p k s = k a s'.
Proof. intros E. unfold bind. now rewrite E. Qed.

Lemma bind_Throw {St A B} (p : M St A) (k : A -> M St B) (s s' : St) (t : Thrown) :
  p s = (s', Throw t) -> bind p k s = (s', Throw t).
Proof. intros E. unfold bind. now rewrite E. Qed.

Lemma settle_eq {St A} (p : M St A) (s s' : St) (r : Result A) :
  p s = (s', r) -> settle p s = (s', Ok r).
Proof. intros E. unfold settle. now rewrite E. Qed.

Lemma orElse_Ok {St A} (p : M St A) (d : A) (s : St) :
  exists s' a, orElse p d s = (s', Ok a).
Proof. unfold orElse. destruct (p s) as [s' [a | t]]; eauto. Qed.

End EffFacts.

(** ** Element resolution *)

Module ResolverFacts.
Import Js StepTypes Eff EffFacts Retry Playwright SelectorEngine Resolver Executor Vocabulary.
Local Open Scope list_scope.

Lemma prioritizedSelectors_order (selectors : SelectorSet) :
  prioritizedSelectors selectors = presentInOrder selectors.
Proof.
  destruct selectors as [[[|? ?]|] [[|? ?]|] [[|? ?]|] [[|? ?]|] [[|? ?]|] n];
    reflexivity.
Qed.

Section WithPlatform.
Context `{Platform}.

Lemma pageProbe_false (sel : string) (m m1 : Machine) :
  pageProbe sel m = (m1, Ok false) <->
  exists t, call (WaitForVisible (pageLocator sel) 5000) m = (m1, Throw t).
Proof.
  unfold pageProbe, bind, settle, ret.
  destruct (call (WaitForVisible (pageLocator sel) 5000) m) as [m' [[]|t]]; cbn.
  - split; [discriminate | intros [t' [=]]].
  - split; [intros [= <-]; eauto | intros [t' [= <- <-]]; reflexivity].
Qed.

Lemma pageProbe_true (sel : string) (m m1 : Machine) :
  pageProbe sel m = (m1, Ok true) <->
  call (WaitForVisible (pageLocator sel) 5000) m = (m1, Ok tt).
Proof.
  unfold pageProbe, bind, settle, ret.
  destruct (call (WaitForVisible (pageLocator sel) 5000) m) as [m' [[]|t]]; cbn.
  - split; [intros [= <-]; reflexivity | intros [= <-]; reflexivity].
  - split; [discriminate | discriminate].
Qed.

Lemma firstVisible_none (ordered : list string) (m m' : Machine) :
  noneSeen pageProbe ordered m m' -> firstVisible ordered m = (m', Ok None).
Proof.
  induction 1 as [m | sel rest m m1 m2 Hp Hn IH]; [reflexivity|].
  apply pageProbe_false in Hp as [t Hp]. cbn [firstVisible].
  now rewrite (bind_Ok _ _ _ _ _ (settle_eq _ _ _ _ Hp)).
Qed.

Lemma firstVisible_found (before after : list string) (sel : string)
    (m m1 m2 : Machine) :
  noneSeen pageProbe before m m1 ->
  pageProbe sel m1 = (m2, Ok true) ->
  firstVisible (before ++ sel :: after) m = (m2, Ok (Some (pageLocator sel))).
Proof.
  induction 1 as [m | s rest m m1 m3 Hp Hn IH]; intros Hs.
  - apply pageProbe_true in Hs. cbn [app firstVisible].
    now rewrite (bind_Ok _ _ _ _ _ (settle_eq _ _ _ _ Hs)).
  - apply pageProbe_false in Hp as [t Hp]. cbn [app firstVisible].
    rewrite (bind_Ok _ _ _ _ _ (settle_eq _ _ _ _ Hp)). now apply IH.
Qed.

Lemma firstVisibleInFrame_none (f : string) (ordered : list string) (m m' : Machine) :
  noneSeen (frameProbe f) ordered m m' ->
  firstVisibleInFrame f ordered m = (m', Ok None).
Proof.
  induction 1 as [m | sel rest m m1 m2 Hp Hn IH]; [reflexivity|].
  cbn [firstVisibleInFrame]. unfold frameProbe in Hp.
  now rewrite (bind_Ok _ _ _ _ _ Hp).
Qed.

Lemma firstVisibleInFrame_found (f : string) (before after : list string)
    (sel : string) (m m1 m2 : Machine) :
  noneSeen (frameProbe f) before m m1 ->
  frameProbe f sel m1 = (m2, Ok true) ->
  firstVisibleInFrame f (before ++ sel :: after) m
  = (m2, Ok (Some (frameLocator f sel))).
Proof.
  induction 1 as [m | s rest m m1 m3 Hp Hn IH]; intros Hs.
  - cbn [app firstVisibleInFrame]. unfold frameProbe in Hs.
    now rewrite (bind_Ok _ _ _ _ _ Hs).
  - cbn [app firstVisibleInFrame]. unfold frameProbe in Hp.
    rewrite (bind_Ok _ _ _ _ _ Hp). now apply IH.
Qed.

Lemma firstVisible_blind (ordered : list string) :
  nothingShows -> forall m, exists m', firstVisible ordered m = (m', Ok None).
Proof.
  intros Hblind. induction ordered as [|sel rest IH]; intros m.
  - exists m. reflexivity.
  - cbn [firstVisible]. unfold bind, settle, call.
    destruct (Hblind sel (world m)) as [w' [t Hw]]. rewrite Hw. cbn.
    apply IH.
Qed.

Lemma resilientRounds_blind (ordered : list string) (config : RetryConfig)
    (fuel : nat) :
  nothingShows ->
  forall attempt lastError m,
    Z.of_nat fuel = maxRetries config + 1 - attempt ->
    exists m', resilientRounds ordered config fuel attempt lastError m =
               (m', Throw (match fuel with
                           | O => lastError
                           | S _ => noSelectorMatched ordered
                           end)).
Proof.
  intros Hblind. induction fuel as [|k IH]; intros attempt lastError m Hfuel.
  - exists m. cbn [resilientRounds].
    replace (attempt <=? maxRetries config) with false by lia. reflexivity.
  - cbn [resilientRounds].
    replace (attempt <=? maxRetries config) with true by lia.
    destruct (firstVisible_blind ordered Hblind m) as [m1 Hf].
    rewrite (bind_Ok _ _ _ _ _ Hf).
    assert (Hd : exists m2,
               (if attempt <? maxRetries config
                then lift (sleep (calcBackoff attempt config))
                else ret tt) m1 = (m2, Ok tt)).
    { destruct (attempt <? maxRetries config); eexists; reflexivity. }
    destruct Hd as [m2 Hd]. rewrite (bind_Ok _ _ _ _ _ Hd).
    destruct (IH (attempt + 1) (noSelectorMatched ordered) m2 ltac:(lia)) as [m3 Hr].
    exists m3. rewrite Hr. destruct k; reflexivity.
Qed.

Lemma pageProbe_records (sel : string) (m m1 : Machine) (r : Result bool) :
  pageProbe sel m = (m1, r) -> trace m1 = trace m ++ [pageWait sel].
Proof.
  unfold pageProbe, bind, settle, ret, call, pageWait.
  destruct (handle unit (WaitForVisible (pageLocator sel) 5000) (world m))
    as [w [[]|t]]; cbn; now intros [= <- _].
Qed.

Lemma noneSeen_records (ordered : list string) (m m1 : Machine) :
  noneSeen pageProbe ordered m m1 -> trace m1 = trace m ++ map pageWait ordered.
Proof.
  induction 1 as [m | sel rest m m1 m2 Hp Hn IH].
  - cbn [map]. now rewrite app_nil_r.
  - rewrite IH, (pageProbe_records _ _ _ _ Hp), <- app_assoc. reflexivity.
Qed.

Lemma roundsMissed_records (ordered : list string) (config : RetryConfig)
    (k : nat) (attempt : Z) (m m1 : Machine) :
  roundsMissed ordered config k attempt m m1 ->
  trace m1 =
  trace m ++ concat (map (fun i => map pageWait ordered ++
                                   [Slept (calcBackoff (attempt + Z.of_nat i) config)])
                         (seq 0 k)).
Proof.
  induction 1 as [attempt m | k attempt m m1 m2 Hn Hr IH].
  - cbn [seq map concat]. now rewrite app_nil_r.
  - rewrite IH. cbn [sleep trace]. rewrite (noneSeen_records _ _ _ Hn).
    cbn [seq map concat]. rewrite Z.add_0_r, <- !app_assoc.
    do 3 f_equal. rewrite <- seq_shift, map_map. f_equal. apply map_ext.
    intros i. now replace (attempt + Z.of_nat (S i)) with (attempt + 1 + Z.of_nat i) by lia.
Qed.

(** The rounds in which nothing is seen are passed over: the loop is where
    it would be had it started after them. *)
Lemma resilientRounds_missed (ordered : list string) (config : RetryConfig)
    (k : nat) (attempt : Z) (m m1 : Machine) :
  roundsMissed ordered config k attempt m m1 ->
  forall fuel lastError,
    Z.of_nat fuel = maxRetries config + 1 - attempt ->
    attempt + Z.of_nat k <= maxRetries config ->
    resilientRounds ordered config fuel attempt lastError m =
    resilientRounds ordered config (fuel - k) (attempt + Z.of_nat k)
      (match k with O => lastError | S _ => noSelectorMatched ordered end) m1.
Proof.
  induction 1 as [attempt m | k attempt m m1 m2 Hn Hr IH];
    intros fuel lastError Hfuel Hle.
  - now rewrite Nat.sub_0_r, Z.add_0_r.
  - destruct fuel as [|fuel]; [lia|]. cbn [resilientRounds].
    replace (attempt <=? maxRetries config) with true by lia.
    rewrite (bind_Ok _ _ _ _ _ (firstVisible_none _ _ _ Hn)).
    replace (attempt <? maxRetries config) with true by lia.
    unfold bind at 1, lift.
    rewrite (IH fuel (noSelectorMatched ordered)) by lia.
    replace (S fuel - S k)%nat with (fuel - k)%nat by lia.
    replace (attempt + 1 + Z.of_nat k) with (attempt + Z.of_nat (S k)) by lia.
    destruct k; reflexivity.
Qed.

Lemma resilientLocator_later_round (selectors : SelectorSet) (config : RetryConfig)
    (k : nat) (before after : list string) (sel : string) (m m1 m2 m3 : Machine) :
  prioritizedSelectors selectors = before ++ sel :: after ->
  Z.of_nat k <= maxRetries config ->
  roundsMissed (prioritizedSelectors selectors) config k 0 m m1 ->
  noneSeen pageProbe before m1 m2 ->
  pageProbe sel m2 = (m3, Ok true) ->
  resilientLocator selectors config m = (m3, Ok (pageLocator sel)) /\
  trace m3 = trace m ++ missedRounds (prioritizedSelectors selectors) config k ++
             map pageWait before ++ [pageWait sel].
Proof.
  intros Hord Hk Hmissed Hnone Hsel. split.
  - unfold resilientLocator.
    rewrite (resilientRounds_missed _ _ _ _ _ _ Hmissed) by lia.
    rewrite Z.add_0_l.
    replace (Z.to_nat (maxRetries config + 1) - k)%nat
      with (S (Z.to_nat (maxRetries config) - k)) by lia.
    cbn [resilientRounds].
    replace (Z.of_nat k <=? maxRetries config) with true by lia.
    rewrite Hord.
    now rewrite (bind_Ok _ _ _ _ _ (firstVisible_found before after sel _ _ _ Hnone Hsel)).
  - rewrite (pageProbe_records _ _ _ _ Hsel), (noneSeen_records _ _ _ Hnone),
      (roundsMissed_records _ _ _ _ _ _ Hmissed), <- !app_assoc.
    reflexivity.
Qed.

Lemma resilientLocator_last_round (selectors : SelectorSet) (config : RetryConfig)
    (m m1 m2 : Machine) :
  0 <= maxRetries config ->
  roundsMissed (prioritizedSelectors selectors) config
               (Z.to_nat (maxRetries config)) 0 m m1 ->
  noneSeen pageProbe (prioritizedSelectors selectors) m1 m2 ->
  resilientLocator selectors config m =
  (m2, Throw (noSelectorMatched (prioritizedSelectors selectors))) /\
  trace m2 = trace m ++
             missedRounds (prioritizedSelectors selectors) config
                          (Z.to_nat (maxRetries config)) ++
             map pageWait (prioritizedSelectors selectors).
Proof.
  intros Hpos Hmissed Hnone. split.
  - unfold resilientLocator.
    rewrite (resilientRounds_missed _ _ _ _ _ _ Hmissed) by lia.
    rewrite Z.add_0_l.
    replace (Z.to_nat (maxRetries config + 1) - Z.to_nat (maxRetries config))%nat
      with 1%nat by lia.
    rewrite Z2Nat.id by exact Hpos.
    cbn [resilientRounds]. rewrite Z.leb_refl.
    rewrite (bind_Ok _ _ _ _ _ (firstVisible_none _ _ _ Hnone)).
    rewrite Z.ltb_irrefl. unfold bind at 1, ret.
    replace (maxRetries config + 1 <=? maxRetries config) with false by lia.
    reflexivity.
  - rewrite (noneSeen_records _ _ _ Hnone),
      (roundsMissed_records _ _ _ _ _ _ Hmissed), <- !app_assoc.
    reflexivity.
Qed.

Lemma noneSeen_blind (ordered : list string) :
  nothingShows -> forall m, exists m', noneSeen pageProbe ordered m m'.
Proof.
  intros Hblind. induction ordered as [|sel rest IH]; intros m.
  - exists m. constructor.
  - destruct (Hblind sel (world m)) as [w' [t Hw]].
    destruct (IH {| world := w'; trace := trace m ++ [pageWait sel] |}) as [m' Hn].
    exists m'. econstructor; [|exact Hn].
    unfold pageProbe, bind, settle, ret, call, pageWait. now rewrite Hw.
Qed.

Lemma roundsMissed_blind (ordered : list string) (config : RetryConfig) (k : nat) :
  nothingShows ->
  forall attempt m, exists m', roundsMissed ordered config k attempt m m'.
Proof.
  intros Hblind. induction k as [|k IH]; intros attempt m.
  - exists m. constructor.
  - destruct (noneSeen_blind ordered Hblind m) as [m1 Hn].
    destruct (IH (attempt + 1) (sleep (calcBackoff attempt config) m1)) as [m2 Hr].
    exists m2. econstructor; eassumption.
Qed.

End WithPlatform.

(** C3, as the code has it.  The candidates are those of the strategies
    present, in the order test-id, ARIA, text, CSS path, XPath.  On the page
    the first candidate that becomes visible within five seconds wins; when
    no candidate ever becomes visible the rounds are used up and resolution
    fails with an error that lists the candidates, without falling back to
    one of them.  Inside an active frame the first candidate reported visible
    wins, and when none is, resolution answers with the first candidate all
    the same, failing only when there is no candidate at all.  On the page
    a round in which no candidate is seen is followed by the backoff delay
    of its attempt and by another round; the first candidate seen in a
    round, the first or a later one up to round [maxRetries], wins, the
    waits and delays up to there being all that was done; after [maxRetries]
    such rounds and one more, which no delay follows, resolution fails;
    with a negative [maxRetries] it fails without a wait. *)
Theorem resolution_order_and_fallback `{Platform} (selectors : SelectorSet)
    (config : RetryConfig) (m : Machine) :
  prioritizedSelectors selectors = presentInOrder selectors /\
  (forall before sel after m1 m2,
     prioritizedSelectors selectors = before ++ sel :: after ->
     0 <= maxRetries config ->
     noneSeen pageProbe before m m1 ->
     pageProbe sel m1 = (m2, Ok true) ->
     resilientLocator selectors config m = (m2, Ok (pageLocator sel))) /\
  (0 <= maxRetries config -> nothingShows ->
   exists m',
     resilientLocator selectors config m =
     (m', Throw (noSelectorMatched (prioritizedSelectors selectors)))) /\
  (forall c r before sel after m1 m2,
     prioritizedSelectors selectors = before ++ sel :: after ->
     noneSeen (frameProbe (String c r)) before m m1 ->
     frameProbe (String c r) sel m1 = (m2, Ok true) ->
     resolveLocator selectors (Some (String c r)) m
     = (m2, Ok (frameLocator (String c r) sel))) /\
  (forall c r m1,
     noneSeen (frameProbe (String c r)) (prioritizedSelectors selectors) m m1 ->
     resolveLocator selectors (Some (String c r)) m =
     (m1, match prioritizedSelectors selectors with
          | first :: _ => Ok (frameLocator (String c r) first)
          | [] => Throw (ErrorObj (frameMessage (String c r)))
          end)) /\
  (forall k before sel after m1 m2 m3,
     prioritizedSelectors selectors = before ++ sel :: after ->
     Z.of_nat k <= maxRetries config ->
     roundsMissed (prioritizedSelectors selectors) config k 0 m m1 ->
     noneSeen pageProbe before m1 m2 ->
     pageProbe sel m2 = (m3, Ok true) ->
     resilientLocator selectors config m = (m3, Ok (pageLocator sel)) /\
     trace m3 = trace m ++ missedRounds (prioritizedSelectors selectors) config k ++
                map pageWait before ++ [pageWait sel]) /\
  (forall m1 m2,
     0 <= maxRetries config ->
     roundsMissed (prioritizedSelectors selectors) config
                  (Z.to_nat (maxRetries config)) 0 m m1 ->
     noneSeen pageProbe (prioritizedSelectors selectors) m1 m2 ->
     resilientLocator selectors config m =
     (m2, Throw (noSelectorMatched (prioritizedSelectors selectors))) /\
     trace m2 = trace m ++
                missedRounds (prioritizedSelectors selectors) config
                             (Z.to_nat (maxRetries config)) ++
                map pageWait (prioritizedSelectors selectors)) /\
  (nothingShows ->
   exists m1 m2,
     roundsMissed (prioritizedSelectors selectors) config
                  (Z.to_nat (maxRetries config)) 0 m m1 /\
     noneSeen pageProbe (prioritizedSelectors selectors) m1 m2) /\
  (maxRetries config < 0 ->
   resilientLocator selectors config m =
   (m, Throw (ErrorObj "No selectors available"))).
Proof.
  split; [apply prioritizedSelectors_order|].
  split; [|split; [|split; [|split; [|split; [|split; [|split]]]]]].
  - intros before sel after m1 m2 Hord Hpos Hnone Hsel.
    unfold resilientLocator. rewrite Hord.
    replace (Z.to_nat (maxRetries config + 1))
      with (S (Z.to_nat (maxRetries config))) by lia.
    cbn [resilientRounds]. replace (0 <=? maxRetries config) with true by lia.
    now rewrite (bind_Ok _ _ _ _ _ (firstVisible_found before after sel m m1 m2 Hnone Hsel)).
  - intros Hpos Hblind. unfold resilientLocator.
    destruct (resilientRounds_blind (prioritizedSelectors selectors) config
                (Z.to_nat (maxRetries config + 1)) Hblind 0
                (ErrorObj "No selectors available") m ltac:(lia)) as [m' Hr].
    exists m'. rewrite Hr.
    replace (Z.to_nat (maxRetries config + 1))
      with (S (Z.to_nat (maxRetries config))) by lia.
    reflexivity.
  - intros c r before sel after m1 m2 Hord Hnone Hsel.
    unfold resolveLocator. rewrite Hord.
    now rewrite (bind_Ok _ _ _ _ _
                   (firstVisibleInFrame_found _ before after sel m m1 m2 Hnone Hsel)).
  - intros c r m1 Hnone. unfold resolveLocator.
    rewrite (bind_Ok _ _ _ _ _ (firstVisibleInFrame_none _ _ m m1 Hnone)).
    destruct (prioritizedSelectors selectors); reflexivity.
  - intros k before sel after m1 m2 m3.
    apply resilientLocator_later_round.
  - intros m1 m2. apply resilientLocator_last_round.
  - intros Hblind.
    destruct (roundsMissed_blind (prioritizedSelectors selectors) config
                (Z.to_nat (maxRetries config)) Hblind 0 m) as [m1 Hr].
    destruct (noneSeen_blind (prioritizedSelectors selectors) Hblind m1) as [m2 Hn].
    exists m1, m2. split; assumption.
  - intros Hneg. unfold resilientLocator.
    replace (Z.to_nat (maxRetries config + 1)) with 0%nat by lia.
    cbn [resilientRounds]. replace (0 <=? maxRetries config) with false by lia.
    reflexivity.
Qed.

(** In a frame of the portal before login nothing is visible, and the first
    candidate is the answer.  On a page whose elements take 1200 ms to
    appear the candidate is missed in two rounds, after which 500 ms and
    1000 ms are waited, and seen in the third. *)
Lemma resolution_order_and_fallback_witness :
  resolveLocator (H := Demo.portal) (Demo.cssOnly "button") (Some "#frame")
                 (Demo.boot true)
  = (@Build_Machine Demo.portal (Demo.site true)
        [Called (IsVisible (frameLocator "#frame" "button") 3000)],
     Ok (frameLocator "#frame" "button")) /\
  let seen := @Build_Machine Scenarios.slowPage (0 + 500 + 1000)%Q
                [pageWait "button"; Slept 500; pageWait "button"; Slept 1000;
                 pageWait "button"] in
  resilientLocator (H := Scenarios.slowPage) (Demo.cssOnly "button")
                   DEFAULT_RETRY_CONFIG Scenarios.slowStart
  = (seen, Ok (pageLocator "button")) /\
  trace seen = missedRounds ["button"] DEFAULT_RETRY_CONFIG 2 ++ [pageWait "button"].
Proof.
  split.
  - destruct (resolution_order_and_fallback (H := Demo.portal) (Demo.cssOnly "button")
                DEFAULT_RETRY_CONFIG (Demo.boot true)) as [_ [_ [_ [_ [Hfall _]]]]].
    refine (Hfall "#"%char "frame"
              (@Build_Machine Demo.portal (Demo.site true)
                 [Called (IsVisible (frameLocator "#frame" "button") 3000)]) _).
    eapply noneSeen_cons; [reflexivity | apply noneSeen_nil].
  - destruct (resolution_order_and_fallback (H := Scenarios.slowPage)
                (Demo.cssOnly "button") DEFAULT_RETRY_CONFIG Scenarios.slowStart)
      as [_ [_ [_ [_ [_ [Hlater _]]]]]].
    intros seen. subst seen.
    eapply (Hlater 2%nat [] "button" []).
    + reflexivity.
    + cbn. lia.
    + eapply roundsMissed_more.
      { eapply noneSeen_cons; [reflexivity | apply noneSeen_nil]. }
      eapply roundsMissed_more.
      { eapply noneSeen_cons; [reflexivity | apply noneSeen_nil]. }
      apply roundsMissed_none.
    + apply noneSeen_nil.
    + reflexivity.
Defined.

(** On the page of the portal before login nothing becomes visible either,
    and resolution fails instead of answering with the first candidate. *)
Lemma resilientLocator_fails_counterexample :
  prioritizedSelectors (Demo.cssOnly "button") = ["button"] /\
  (exists m', firstVisible (H := Demo.portal) ["button"] (Demo.boot true)
              = (m', Ok None)) /\
  snd (resilientLocator (H := Demo.portal) (Demo.cssOnly "button")
         DEFAULT_RETRY_CONFIG (Demo.boot true))
  = Throw (ErrorObj "No selector matched for step. Tried: button") /\
  snd (resilientLocator (H := Demo.portal) (Demo.cssOnly "button")
         DEFAULT_RETRY_CONFIG (Demo.boot true))
  <> Ok (pageLocator "button").
Proof.
  split; [reflexivity|]. split; [eexists; reflexivity|].
  assert (E : snd (resilientLocator (H := Demo.portal) (Demo.cssOnly "button")
                     DEFAULT_RETRY_CONFIG (Demo.boot true))
              = Throw (ErrorObj "No selector matched for step. Tried: button"))
    by (vm_compute; reflexivity).
  split; [exact E|]. rewrite E. discriminate.
Qed.

End ResolverFacts.

(** ** The frame scope *)

Module FrameFacts.
Import Js StepTypes Eff Retry Playwright SelectorEngine Resolver Executor Vocabulary.
Local Open Scope list_scope.

Section Logic.
Context `{Platform}.
Variable P : Event -> Prop.

Lemma extends_refl (m : Machine) : extends P m m.
Proof. exists []. split; [now rewrite app_nil_r | constructor]. Qed.

Lemma extends_trans (m1 m2 m3 : Machine) :
  extends P m1 m2 -> extends P m2 m3 -> extends P m1 m3.
Proof.
  intros [n1 [E1 F1]] [n2 [E2 F2]]. exists (n1 ++ n2). split.
  - now rewrite E2, E1, app_assoc.
  - apply Forall_app. auto.
Qed.

Lemma ensures_ret {A} (Q : A -> Prop) (a : A) : Q a -> ensures P Q (ret a).
Proof.
  intros Ha m. split; [apply extends_refl|]. cbn. now intros ? [= <-].
Qed.

Lemma ensures_throw {A} (Q : A -> Prop) (t : Thrown) : ensures P Q (throw t).
Proof. intros m. split; [apply extends_refl|]. cbn. discriminate. Qed.

Lemma ensures_liftResult {A} (Q : A -> Prop) (r : Result A) :
  (forall a, r = Ok a -> Q a) -> ensures P Q (liftResult r).
Proof. intros Hr m. split; [apply extends_refl|]. cbn. exact Hr. Qed.

Lemma ensures_call {R} (c : Call R) :
  P (Called c) -> ensures P (fun _ => True) (call c).
Proof.
  intros Hc m. split; [|auto]. unfold call.
  destruct (handle R c (world m)) as [w r]. cbn.
  exists [Called c]. split; [reflexivity|]. repeat constructor. exact Hc.
Qed.

Lemma ensures_sleep (ms : Q) : P (Slept ms) -> ensures P (fun _ => True) (lift (sleep ms)).
Proof.
  intros Hs m. split; [|auto]. cbn.
  exists [Slept ms]. split; [reflexivity|]. repeat constructor. exact Hs.
Qed.

Lemma ensures_weaken {A} (Q Q' : A -> Prop) (p : M Machine A) :
  (forall a, Q a -> Q' a) -> ensures P Q p -> ensures P Q' p.
Proof. intros HQ Hp m. destruct (Hp m) as [He Ha]. split; auto. Qed.

Lemma ensures_bind {A B} (Q1 : A -> Prop) (Q : B -> Prop)
    (p : M Machine A) (k : A -> M Machine B) :
  ensures P Q1 p -> (forall a, Q1 a -> ensures P Q (k a)) -> ensures P Q (bind p k).
Proof.
  intros Hp Hk m. destruct (Hp m) as [He Ha]. unfold bind.
  destruct (p m) as [m1 [a | t]]; cbn in *.
  - destruct (Hk a (Ha a eq_refl) m1) as [He' Ha']. split; [|exact Ha'].
    eapply extends_trans; eauto.
  - split; [exact He | discriminate].
Qed.

Lemma ensures_orElse {A} (Q : A -> Prop) (p : M Machine A) (d : A) :
  ensures P Q p -> Q d -> ensures P Q (orElse p d).
Proof.
  intros Hp Hd m. destruct (Hp m) as [He Ha]. unfold orElse.
  destruct (p m) as [m1 [a | t]]; cbn in *; (split; [exact He|]).
  - exact Ha.
  - now intros ? [= <-].
Qed.

Lemma ensures_settle {A} (Q : A -> Prop) (p : M Machine A) :
  ensures P Q p -> ensures P (fun r => forall a, r = Ok a -> Q a) (settle p).
Proof.
  intros Hp m. destruct (Hp m) as [He Ha]. unfold settle.
  destruct (p m) as [m1 r]; cbn in *. split; [exact He|].
  now intros ? [= <-].
Qed.

End Logic.

Ltac not_a_lookup := intros ? Hsc; cbn in Hsc |- *; congruence.

Section Steps.
Context `{Platform}.

Lemma firstVisible_scoped (ordered : list string) :
  ensures (scopedTo None) (fun o => forall l, o = Some l -> inFrame l = None)
          (firstVisible ordered).
Proof.
  induction ordered as [|sel rest IH]; cbn [firstVisible].
  - apply ensures_ret. discriminate.
  - eapply ensures_bind.
    + apply ensures_settle, ensures_call. not_a_lookup.
    + intros [[]|t] _.
      * apply ensures_ret. now intros l [= <-].
      * exact IH.
Qed.

Lemma resilientRounds_scoped (ordered : list string) (config : RetryConfig)
    (turns : nat) :
  forall attempt lastError,
    ensures (scopedTo None) (fun l => inFrame l = None)
            (resilientRounds ordered config turns attempt lastError).
Proof.
  induction turns as [|k IH]; intros attempt lastError; cbn [resilientRounds];
    (destruct (attempt <=? maxRetries config); [|apply ensures_throw]).
  - apply ensures_throw.
  - eapply ensures_bind; [apply firstVisible_scoped|].
    intros [l|] Hl; [apply ensures_ret; auto|].
    eapply ensures_bind; [|intros _ _; apply IH].
    destruct (attempt <? maxRetries config).
    + apply ensures_sleep. not_a_lookup.
    + now apply ensures_ret.
Qed.

Lemma firstVisibleInFrame_scoped (f : string) (selectorList : list string) :
  ensures (scopedTo (Some f)) (fun o => forall l, o = Some l -> inFrame l = Some f)
          (firstVisibleInFrame f selectorList).
Proof.
  induction selectorList as [|sel rest IH]; cbn [firstVisibleInFrame].
  - apply ensures_ret. discriminate.
  - eapply ensures_bind.
    + apply (ensures_orElse _ (fun _ => True)); [|exact I].
      apply ensures_call. not_a_lookup.
    + intros [|] _; [|exact IH].
      apply ensures_ret. now intros l [= <-].
Qed.

Lemma resolveLocator_scoped (selectors : SelectorSet) (active : option string) :
  ensures (scopedTo (effectiveScope active))
          (fun l => inFrame l = effectiveScope active)
          (resolveLocator selectors active).
Proof.
  unfold resolveLocator.
  destruct active as [[|c r]|]; cbn [effectiveScope];
    try apply resilientRounds_scoped.
  eapply ensures_bind; [apply firstVisibleInFrame_scoped|].
  intros [l|] Hl; [apply ensures_ret; auto|].
  destruct (prioritizedSelectors selectors); [apply ensures_throw|].
  now apply ensures_ret.
Qed.

(** A handler that resolves an element and acts on it. *)
Lemma on_element_scoped (selectors : SelectorSet) (active : option string)
    (act : Locator -> Call unit) :
  (forall l sc, lookupScope (Called (act l)) = Some sc -> sc = inFrame l) ->
  ensures (scopedTo (effectiveScope active)) (fun f => f = active)
    (bind (resolveLocator selectors active)
          (fun loc => bind (call (act loc)) (fun _ => ret active))).
Proof.
  intros Hact. eapply ensures_bind; [apply resolveLocator_scoped|].
  intros l Hl. eapply ensures_bind; [|intros; now apply ensures_ret].
  apply ensures_call. intros sc Hsc. rewrite <- Hl. now apply Hact.
Qed.

Lemma executeStep_scoped (s : RecordedStep) (params : gmap string string)
    (flowDir : string) (active : option string) :
  ensures (scopedTo (effectiveScope active))
          (fun f => type s <> frame_switch -> f = active)
          (executeStep s params flowDir active).
Proof.
  unfold executeStep.
  destruct (type s) eqn:Ht;
    try (apply (ensures_weaken _ (fun f => f = active));
         [ intros ? ? ?; assumption
         | apply on_element_scoped; intros l sc [= <-]; reflexivity ]);
    try (eapply ensures_bind;
         [ apply ensures_call; not_a_lookup
         | intros; now apply ensures_ret ]).
  - (* wait *)
    eapply ensures_bind; [|intros; now apply ensures_ret].
    destruct (prioritizedSelectors (selectors s)) as [|first rest].
    + destruct (truthy (url s)); apply ensures_call; not_a_lookup.
    + destruct (negb (first =? "body")%string).
      * destruct active as [[|c r]|]; apply ensures_call; not_a_lookup.
      * destruct (truthy (url s)); apply ensures_call; not_a_lookup.
  - (* frame-switch *)
    apply ensures_ret. congruence.
  - (* script *)
    destruct (nullish (scriptPath s) (value s)) as [[|c r]|];
      try apply ensures_throw.
    eapply ensures_bind; [apply ensures_call; not_a_lookup|].
    intros exports _.
    apply (ensures_bind _ (fun _ => True)); [|intros; now apply ensures_ret].
    destruct exports; try (apply ensures_call; not_a_lookup).
    apply ensures_throw.
  - (* other *)
    apply ensures_throw.
Qed.


Lemma beforeStep_scoped (P : Event -> Prop) (s : RecordedStep)
    (flow : FlowDocument) (options : ExecuteOptions) :
  (forall ms, P (Slept ms)) ->
  ensures P (fun _ => True) (beforeStep s flow options).
Proof.
  intros HP. unfold beforeStep.
  apply (ensures_bind _ (fun _ => True)).
  - destruct (Qle_bool (delayBetween options) 0);
      [now apply ensures_ret | now apply ensures_sleep].
  - intros _ _. unfold securityGate.
    destruct (gateApplies s flow) as [[u allowed]|];
      [now apply ensures_liftResult | now apply ensures_ret].
Qed.

Lemma isAuthFailure_scoped (P : Event -> Prop) :
  P (Called TextContentBody) -> ensures P (fun _ => True) isAuthFailure.
Proof.
  intros HP m. unfold isAuthFailure.
  destruct (existsb _ authPatterns).
  - split; [apply extends_refl | auto].
  - apply (ensures_orElse P (fun _ => True)); [|exact I].
    apply (ensures_bind _ (fun _ => True)); [now apply ensures_call|].
    intros. now apply ensures_ret.
Qed.

Lemma terminal_scoped (P : Event -> Prop) (st : RunState) (s : RecordedStep)
    (msg : option string) (shot : string) (n : Z) :
  ensures P (fun st' => activeFrameSelector st' = activeFrameSelector st)
          (terminal st s msg shot n).
Proof.
  intros m. split; [apply extends_refl|]. cbn. now intros ? [= <-].
Qed.

Lemma runSteps_scoped (flow : FlowDocument) (options : ExecuteOptions)
    (flowDir shotsDir : string) (todo : list RecordedStep) :
  Forall (fun s => type s <> frame_switch) todo ->
  forall st,
    ensures (scopedTo (effectiveScope (activeFrameSelector st)))
            (fun st' => activeFrameSelector st' = activeFrameSelector st)
            (runSteps flow options flowDir shotsDir todo st).
Proof.
  induction 1 as [|s rest Hs Hrest IH]; intros st; cbn [runSteps].
  - now apply ensures_ret.
  - apply (ensures_bind _ (fun _ => True));
      [apply beforeStep_scoped; intros; not_a_lookup|].
    intros _ _.
    eapply ensures_bind; [apply ensures_settle, executeStep_scoped|].
    intros [frame | err] Hr.
    + specialize (Hr frame eq_refl Hs). subst frame.
      apply (IH (advance st (activeFrameSelector st) [successEntry s])).
    + apply (ensures_bind _ (fun _ => True)); [now apply ensures_liftResult|].
      intros errMsg _. cbn zeta.
      apply (ensures_bind _ (fun _ => True)).
      { unfold failureShot. apply (ensures_orElse _ (fun _ => True)); [|exact I].
        apply ensures_call. not_a_lookup. }
      intros shot _.
      apply (ensures_bind _ (fun _ => True));
        [apply isAuthFailure_scoped; not_a_lookup|].
      intros [|] _;
        [|exact (terminal_scoped _ (noteFailure st s errMsg shot) s _ shot _)].
      eapply ensures_bind.
      { apply ensures_settle. unfold recoverAndRetry.
        apply (ensures_bind _ (fun _ => True));
          [apply ensures_call; not_a_lookup|].
        intros _ _. apply executeStep_scoped. }
      intros [frame | authErr] Hr2.
      * specialize (Hr2 frame eq_refl Hs). cbn in Hr2. subst frame.
        apply (IH (advance (noteFailure st s errMsg shot)
                           (activeFrameSelector st) [])).
      * apply (ensures_bind _ (fun _ => True)); [now apply ensures_liftResult|].
        intros msg _.
        exact (terminal_scoped _ (noteFailure st s errMsg shot) s _ shot _).
Qed.

End Steps.



End FrameFacts.

(** ** Recovery from a lost session *)

Module RecoveryFacts.
Import Js StepTypes Eff EffFacts Retry Playwright SelectorEngine Resolver Executor.
Local Open Scope list_scope.

Section WithPlatform.
Context `{Platform}.

Variables (flow : FlowDocument) (options : ExecuteOptions).
Variables (flowDir shotsDir : string).

Local Abbreviation run := (runSteps flow options flowDir shotsDir).
Local Abbreviation exec s frame := (executeStep s (params options) flowDir frame).
Local Abbreviation login :=
  (call (RunAuthFlow (opt_name options) (metadata_url (metadata flow)))).

Lemma runSteps_success (s : RecordedStep) (rest : list RecordedStep)
    (st : RunState) (m m1 m2 : Machine) (frame : option string) :
  beforeStep s flow options m = (m1, Ok tt) ->
  exec s (activeFrameSelector st) m1 = (m2, Ok frame) ->
  run (s :: rest) st m = run rest (advance st frame [successEntry s]) m2.
Proof.
  intros H1 H2. cbn [runSteps].
  rewrite (bind_Ok _ _ _ _ _ H1).
  rewrite (bind_Ok _ _ _ _ _ (settle_eq _ _ _ _ H2)). reflexivity.
Qed.

Lemma runSteps_failure (s : RecordedStep) (rest : list RecordedStep)
    (st : RunState) (m m1 m2 m3 m4 : Machine) (err : Thrown)
    (errMsg : option string) (shot : string) (auth : bool) :
  beforeStep s flow options m = (m1, Ok tt) ->
  exec s (activeFrameSelector st) m1 = (m2, Throw err) ->
  messageOf err = Ok errMsg ->
  failureShot s shotsDir m2 = (m3, Ok shot) ->
  isAuthFailure m3 = (m4, Ok auth) ->
  run (s :: rest) st m =
  let st1 := noteFailure st s errMsg shot in
  if auth then
    match recoverAndRetry s flow options flowDir (activeFrameSelector st) m4 with
    | (m5, Ok frame) => run rest (advance st1 frame []) m5
    | (m5, Throw authErr) =>
        match messageOf authErr with
        | Ok msg => terminal st1 s msg shot 1 m5
        | Throw t => (m5, Throw t)
        end
    end
  else terminal st1 s errMsg shot 0 m4.
Proof.
  intros H1 H2 Hmsg H3 H4. cbn [runSteps].
  rewrite (bind_Ok _ _ _ _ _ H1).
  rewrite (bind_Ok _ _ _ _ _ (settle_eq _ _ _ _ H2)).
  rewrite Hmsg. change (liftResult (Ok errMsg)) with (@ret Machine _ errMsg).
  unfold bind at 1, ret at 1.
  rewrite (bind_Ok _ _ _ _ _ H3).
  rewrite (bind_Ok _ _ _ _ _ H4).
  cbn zeta. destruct auth; [|reflexivity].
  cbn [noteFailure activeFrameSelector].
  destruct (recoverAndRetry s flow options flowDir (activeFrameSelector st) m4)
    as [m5 [frame | authErr]] eqn:E.
  - rewrite (bind_Ok _ _ _ _ _ (settle_eq _ _ _ _ E)). reflexivity.
  - rewrite (bind_Ok _ _ _ _ _ (settle_eq _ _ _ _ E)).
    unfold bind, liftResult. destruct (messageOf authErr); reflexivity.
Qed.

(** The [catch] cannot read the message of a [null] or [undefined] that was
    thrown: the [TypeError] leaves the loop before a screenshot is taken or
    the page is looked at. *)
Lemma runSteps_unreadable (s : RecordedStep) (rest : list RecordedStep)
    (st : RunState) (m m1 m2 : Machine) (err t : Thrown) :
  beforeStep s flow options m = (m1, Ok tt) ->
  exec s (activeFrameSelector st) m1 = (m2, Throw err) ->
  messageOf err = Throw t ->
  run (s :: rest) st m = (m2, Throw t).
Proof.
  intros H1 H2 Hmsg. cbn [runSteps].
  rewrite (bind_Ok _ _ _ _ _ H1).
  rewrite (bind_Ok _ _ _ _ _ (settle_eq _ _ _ _ H2)).
  rewrite Hmsg. reflexivity.
Qed.

Lemma recoverAndRetry_login_ok (s : RecordedStep) (frame : option string)
    (m4 m5 : Machine) :
  login m4 = (m5, Ok tt) ->
  recoverAndRetry s flow options flowDir frame m4 = exec s frame m5.
Proof. intros E. unfold recoverAndRetry. now rewrite (bind_Ok _ _ _ _ _ E). Qed.

Lemma recoverAndRetry_login_fails (s : RecordedStep) (frame : option string)
    (m4 m5 : Machine) (e : Thrown) :
  login m4 = (m5, Throw e) ->
  recoverAndRetry s flow options flowDir frame m4 = (m5, Throw e).
Proof. intros E. unfold recoverAndRetry. now rewrite (bind_Throw _ _ _ _ _ E). Qed.

End WithPlatform.



End RecoveryFacts.

(** ** What a run hands to its caller *)

Module ExecuteFacts.
Import Js StepTypes Eff EffFacts Retry Playwright SelectorEngine Resolver Executor.
Import Vocabulary FrameFacts LifeCycle.
Local Open Scope list_scope.

Section Raising.
Context `{Platform}.
Variable E : Thrown -> Prop.

Lemma raises_ret {A} (a : A) : raises E (ret a).
Proof. intros m m' t. discriminate. Qed.

Lemma raises_throw {A} (t : Thrown) : E t -> raises E (@throw Machine A t).
Proof. intros Ht m m' t' [= _ <-]. exact Ht. Qed.

Lemma raises_lift (f : Machine -> Machine) : raises E (lift f).
Proof. intros m m' t. discriminate. Qed.

Lemma raises_settle {A} (p : M Machine A) : raises E (settle p).
Proof. intros m m' t. unfold settle. destruct (p m). discriminate. Qed.

Lemma raises_orElse {A} (p : M Machine A) (d : A) : raises E (orElse p d).
Proof. intros m m' t. unfold orElse. destruct (p m) as [? [|]]; discriminate. Qed.

Lemma raises_liftResult {A} (r : Result A) :
  (forall t, r = Throw t -> E t) -> raises E (liftResult r).
Proof. intros Hr m m' t [= _ ->]. now apply Hr. Qed.

Lemma raises_bind {A B} (p : M Machine A) (k : A -> M Machine B) :
  raises E p -> (forall a, raises E (k a)) -> raises E (bind p k).
Proof.
  intros Hp Hk m m' t. unfold bind.
  destruct (p m) as [m1 [a | t1]] eqn:Ep.
  - apply Hk.
  - intros [= <- <-]. eapply Hp, Ep.
Qed.

(** What [settle p] hands on is a value [p] has thrown. *)
Lemma raises_caught {A B} (E' : Thrown -> Prop) (p : M Machine A)
    (k : Result A -> M Machine B) :
  raises E' p ->
  (forall a, raises E (k (Ok a))) ->
  (forall t, E' t -> raises E (k (Throw t))) ->
  raises E (bind (settle p) k).
Proof.
  intros Hp Hok Hthrow m m' t. unfold bind, settle.
  destruct (p m) as [m1 [a | t1]] eqn:Ep.
  - apply Hok.
  - apply Hthrow. eapply Hp, Ep.
Qed.

Lemma raises_isAuthFailure : raises E isAuthFailure.
Proof.
  intros m m' t. unfold isAuthFailure.
  destruct (existsb _ authPatterns); [discriminate|]. apply raises_orElse.
Qed.

Lemma raises_terminal (st : RunState) (s : RecordedStep) (msg : option string)
    (shot : string) (n : Z) : raises E (terminal st s msg shot n).
Proof. intros m m' t. discriminate. Qed.

End Raising.

(** On a platform that rejects with readable values, so does the dispatch of
    a step: the errors of the executor itself are [Error] objects. *)
Section Readable.
Context `{Platform}.
Hypothesis polite : rejectsReadably.

Lemma readable_ErrorObj (msg : string) : readable (ErrorObj msg).
Proof. now exists (Some msg). Qed.

Lemma raises_call {R} (c : Call R) : raises readable (call c).
Proof.
  intros m m' t. unfold call.
  destruct (handle R c (world m)) as [w r] eqn:Hc. intros [= _ ->].
  eapply polite, Hc.
Qed.

Lemma raises_firstVisible (ordered : list string) :
  raises readable (firstVisible ordered).
Proof.
  induction ordered as [|sel rest IH]; cbn [firstVisible].
  - apply raises_ret.
  - apply raises_bind; [apply raises_settle|].
    intros [[]|t]; [apply raises_ret | exact IH].
Qed.

Lemma raises_resilientRounds (ordered : list string) (config : RetryConfig)
    (fuel : nat) :
  forall attempt lastError,
    readable lastError ->
    raises readable (resilientRounds ordered config fuel attempt lastError).
Proof.
  induction fuel as [|k IH]; intros attempt lastError Hl; cbn [resilientRounds];
    (destruct (attempt <=? maxRetries config); [|now apply raises_throw]).
  - now apply raises_throw.
  - apply raises_bind; [apply raises_firstVisible|].
    intros [l|]; [apply raises_ret|].
    apply raises_bind.
    + destruct (attempt <? maxRetries config); [apply raises_lift | apply raises_ret].
    + intros _. apply IH, readable_ErrorObj.
Qed.

Lemma raises_firstVisibleInFrame (f : string) (selectorList : list string) :
  raises readable (firstVisibleInFrame f selectorList).
Proof.
  induction selectorList as [|sel rest IH]; cbn [firstVisibleInFrame].
  - apply raises_ret.
  - apply raises_bind; [apply raises_orElse|].
    intros [|]; [apply raises_ret | exact IH].
Qed.

Lemma raises_resolveLocator (selectors : SelectorSet) (active : option string) :
  raises readable (resolveLocator selectors active).
Proof.
  unfold resolveLocator.
  destruct active as [[|c r]|];
    try (apply raises_resilientRounds, readable_ErrorObj).
  apply raises_bind; [apply raises_firstVisibleInFrame|].
  intros [l|]; [apply raises_ret|].
  destruct (prioritizedSelectors selectors);
    [apply raises_throw, readable_ErrorObj | apply raises_ret].
Qed.

Lemma raises_on_element (selectors : SelectorSet) (active : option string)
    (act : Locator -> Call unit) :
  raises readable
    (bind (resolveLocator selectors active)
          (fun loc => bind (call (act loc)) (fun _ => ret active))).
Proof.
  apply raises_bind; [apply raises_resolveLocator|]. intros loc.
  apply raises_bind; [apply raises_call | intros; apply raises_ret].
Qed.

Lemma raises_executeStep (s : RecordedStep) (params : gmap string string)
    (flowDir : string) (active : option string) :
  raises readable (executeStep s params flowDir active).
Proof.
  unfold executeStep.
  destruct (type s);
    try apply raises_on_element;
    try (apply raises_bind; [apply raises_call | intros; apply raises_ret]).
  - (* wait *)
    apply raises_bind; [|intros; apply raises_ret].
    destruct (prioritizedSelectors (selectors s)) as [|first rest].
    + destruct (truthy (url s)); apply raises_call.
    + destruct (negb (first =? "body")%string).
      * destruct active as [[|c r]|]; apply raises_call.
      * destruct (truthy (url s)); apply raises_call.
  - (* frame-switch *)
    apply raises_ret.
  - (* script *)
    destruct (nullish (scriptPath s) (value s)) as [[|c r]|];
      try apply raises_throw, readable_ErrorObj.
    apply raises_bind; [apply raises_call|]. intros exports.
    apply raises_bind; [|intros; apply raises_ret].
    destruct exports; try apply raises_call.
    apply raises_throw, readable_ErrorObj.
  - (* other *)
    apply raises_throw, readable_ErrorObj.
Qed.

Lemma raises_recoverAndRetry (s : RecordedStep) (flow : FlowDocument)
    (options : ExecuteOptions) (flowDir : string) (frame : option string) :
  raises readable (recoverAndRetry s flow options flowDir frame).
Proof.
  unfold recoverAndRetry.
  apply raises_bind; [apply raises_call | intros; apply raises_executeStep].
Qed.

End Readable.

Section Loop.
Context `{Platform}.
Variables (flow : FlowDocument) (options : ExecuteOptions).
Variables (flowDir shotsDir : string).

Lemma assertDomainAllowed_throws (u : string) (allowed : list string)
    (name : string) (t : Thrown) :
  DomainAllowlist.assertDomainAllowed URL_hostname u allowed name = Throw t ->
  DomainAllowlist.isDomainAllowed URL_hostname u allowed = Ok false /\
  t = ErrorObj (DomainAllowlist.securityMessage u allowed name).
Proof.
  unfold DomainAllowlist.assertDomainAllowed.
  destruct (GateFacts.isDomainAllowed_returns URL_hostname u allowed) as [b Hb].
  rewrite Hb. destruct b; [discriminate|]. now intros [= <-].
Qed.

Lemma raises_beforeStep (s : RecordedStep) (todo : list RecordedStep) :
  In s todo ->
  raises (blockedBy flow (opt_name options) todo) (beforeStep s flow options).
Proof.
  intros Hin. unfold beforeStep. apply raises_bind.
  - destruct (Qle_bool (delayBetween options) 0);
      [apply raises_ret | apply raises_lift].
  - intros _. unfold securityGate.
    destruct (gateApplies s flow) as [[u allowed]|] eqn:Hg; [|apply raises_ret].
    apply raises_liftResult. intros t Ht.
    apply assertDomainAllowed_throws in Ht as [Hb ->].
    exists s, u, allowed. auto.
Qed.

Lemma blockedBy_cons (s : RecordedStep) (rest : list RecordedStep) (t : Thrown) :
  blockedBy flow (opt_name options) rest t ->
  blockedBy flow (opt_name options) (s :: rest) t.
Proof.
  intros [s' [u [allowed [Hin Hrest]]]]. exists s', u, allowed.
  split; [now right | exact Hrest].
Qed.

Lemma raises_weaken {A} (E E' : Thrown -> Prop) (p : M Machine A) :
  (forall t, E t -> E' t) -> raises E p -> raises E' p.
Proof. intros HE Hp m m' t Ht. eapply HE, Hp, Ht. Qed.

Lemma raises_readable_message {A} (E : Thrown -> Prop) (err : Thrown)
    (k : option string -> M Machine A) :
  readable err -> (forall msg, raises E (k msg)) ->
  raises E (bind (liftResult (messageOf err)) k).
Proof.
  intros [msg Hm] Hk. rewrite Hm. apply raises_bind; [|exact Hk].
  intros m m' t. discriminate.
Qed.

Lemma raises_runSteps (todo : list RecordedStep) :
  rejectsReadably ->
  forall st, raises (blockedBy flow (opt_name options) todo)
                    (runSteps flow options flowDir shotsDir todo st).
Proof.
  intros polite.
  induction todo as [|s rest IH]; intros st; cbn [runSteps].
  - apply raises_ret.
  - assert (Hrest : forall st',
               raises (blockedBy flow (opt_name options) (s :: rest))
                      (runSteps flow options flowDir shotsDir rest st')).
    { intros st'. eapply raises_weaken; [apply blockedBy_cons | apply IH]. }
    apply raises_bind; [apply raises_beforeStep; now left|]. intros _.
    apply (raises_caught _ readable);
      [now apply raises_executeStep | intros; apply Hrest|].
    intros err Herr. apply raises_readable_message; [exact Herr|]. intros errMsg.
    cbn zeta. apply raises_bind; [apply raises_orElse|]. intros shot.
    apply raises_bind; [apply raises_isAuthFailure|].
    intros [|]; [|apply raises_terminal].
    apply (raises_caught _ readable);
      [now apply raises_recoverAndRetry | intros; apply Hrest|].
    intros authErr Hauth. apply raises_readable_message; [exact Hauth|].
    intros msg. apply raises_terminal.
Qed.

Lemma accounted_step (s : RecordedStep) (rest : list RecordedStep)
    (st st2 st' : RunState) :
  stepsCompleted st2 = stepsCompleted st + 1 ->
  accounted rest st2 st' -> accounted (s :: rest) st st'.
Proof.
  unfold accounted. intros Hc. destruct (stepError st') as [e|].
  - intros [done [s' [rest' [-> [Hn Hrest]]]]].
    exists (s :: done), s', rest'. split; [reflexivity|].
    split; [|exact Hrest]. cbn [length]. lia.
  - intros ->. cbn [length]. lia.
Qed.

Lemma accounted_terminal (s : RecordedStep) (rest : list RecordedStep)
    (st st1 : RunState) (msg : option string) (shot : string) (n : Z) :
  stepsCompleted st1 = stepsCompleted st -> n = 0 \/ n = 1 ->
  ensures (fun _ => True) (accounted (s :: rest) st) (terminal st1 s msg shot n).
Proof.
  intros Hc Hn m. split; [apply extends_refl|]. cbn. intros ? [= <-].
  unfold accounted. cbn. exists [], s, rest. cbn. repeat split; lia.
Qed.

Lemma runSteps_accounted (todo : list RecordedStep) :
  forall st, stepError st = None ->
    ensures (fun _ => True) (accounted todo st)
            (runSteps flow options flowDir shotsDir todo st).
Proof.
  induction todo as [|s rest IH]; intros st Hst; cbn [runSteps].
  - apply ensures_ret. unfold accounted. rewrite Hst. cbn. lia.
  - apply (ensures_bind _ (fun _ => True)); [now apply beforeStep_scoped|].
    intros _ _.
    apply (ensures_bind _ (fun _ => True)).
    { intros m. split; [|auto]. unfold settle.
      destruct (executeStep_scoped s (params options) flowDir
                  (activeFrameSelector st) m) as [[new [Hn _]] _].
      destruct (executeStep _ _ _ _ m). exists new. split; [exact Hn|].
      apply Forall_forall. auto. }
    intros [frame | err] _.
    + eapply ensures_weaken; [|apply IH; exact Hst].
      intros st'. now apply accounted_step.
    + apply (ensures_bind _ (fun _ => True)); [now apply ensures_liftResult|].
      intros errMsg _. cbn zeta.
      apply (ensures_bind _ (fun _ => True)).
      { unfold failureShot. apply (ensures_orElse _ (fun _ => True)); [|exact I].
        now apply ensures_call. }
      intros shot _.
      apply (ensures_bind _ (fun _ => True)); [now apply isAuthFailure_scoped|].
      intros [|] _; [|apply accounted_terminal; auto].
      apply (ensures_bind _ (fun _ => True)).
      { intros m. split; [|auto]. unfold settle, recoverAndRetry, bind.
        destruct (ensures_call (fun _ => True)
                    (RunAuthFlow (opt_name options) (metadata_url (metadata flow)))
                    I m) as [He _].
        destruct (call _ m) as [m1 [[]|t]]; [|exact He].
        destruct (executeStep_scoped s (params options) flowDir
                    (activeFrameSelector (noteFailure st s errMsg shot)) m1)
          as [[new [Hn _]] _].
        destruct (executeStep _ _ _ _ m1). eapply extends_trans; [exact He|].
        exists new. split; [exact Hn|]. apply Forall_forall. auto. }
      intros [frame | authErr] _.
      * eapply ensures_weaken; [|apply IH; exact Hst].
        intros st'. now apply accounted_step.
      * apply (ensures_bind _ (fun _ => True)); [now apply ensures_liftResult|].
        intros msg _. apply accounted_terminal; auto.
Qed.

End Loop.

Section Execute.
Context `{Platform}.

Lemma returns_of_ensures {A} (P : Event -> Prop) (Q : A -> Prop) (p : M Machine A) :
  ensures P Q p -> returns Q p.
Proof. intros Hp m m' a E. destruct (Hp m) as [_ Hq]. apply Hq. now rewrite E. Qed.

Lemma returns_ret {A} (Q : A -> Prop) (a : A) : Q a -> returns Q (ret a).
Proof. intros Ha m m' a' [= _ <-]. exact Ha. Qed.

Lemma returns_bind {A B} (Q1 : A -> Prop) (Q : B -> Prop)
    (p : M Machine A) (k : A -> M Machine B) :
  returns Q1 p -> (forall a, Q1 a -> returns Q (k a)) -> returns Q (bind p k).
Proof.
  intros Hp Hk m m' b. unfold bind. destruct (p m) as [m1 [a | t]] eqn:Ep.
  - apply Hk. eapply Hp, Ep.
  - discriminate.
Qed.

Lemma returns_then {A B} (Q : B -> Prop) (p : M Machine A) (k : A -> M Machine B) :
  (forall a, returns Q (k a)) -> returns Q (bind p k).
Proof.
  intros Hk. apply (returns_bind (fun _ => True)); [|auto].
  intros m m' a _. exact I.
Qed.

Lemma returns_finally {A} (Q : A -> Prop) (p : M Machine A) (f : M Machine unit) :
  returns Q p -> returns Q (finally p f).
Proof.
  intros Hp m m' a. unfold finally. destruct (p m) as [m1 r] eqn:Ep.
  destruct (f m1) as [m2 [[]|t]]; [|discriminate].
  intros [= _ ->]. eapply Hp, Ep.
Qed.

Lemma alwaysThrows_then {A B} (p : M Machine A) (k : A -> M Machine B) :
  (forall a, alwaysThrows (k a)) -> alwaysThrows (bind p k).
Proof.
  intros Hk m. unfold bind. destruct (p m) as [m1 [a | t]]; [apply Hk | eauto].
Qed.

Lemma alwaysThrows_bind {A B} (p : M Machine A) (k : A -> M Machine B) :
  alwaysThrows p -> alwaysThrows (bind p k).
Proof.
  intros Hp m. destruct (Hp m) as [m1 [t Ht]]. unfold bind. rewrite Ht. eauto.
Qed.

Lemma alwaysThrows_finally {A} (p : M Machine A) (f : M Machine unit) :
  alwaysThrows p -> alwaysThrows (finally p f).
Proof.
  intros Hp m. destruct (Hp m) as [m1 [t Ht]]. unfold finally. rewrite Ht.
  destruct (f m1) as [m2 [[]|t']]; eauto.
Qed.

Lemma completes_ret {A} (a : A) : completes (ret a).
Proof. intros m. eauto. Qed.

Lemma completes_bind {A B} (p : M Machine A) (k : A -> M Machine B) :
  completes p -> (forall a, completes (k a)) -> completes (bind p k).
Proof.
  intros Hp Hk m. destruct (Hp m) as [m1 [a Ha]].
  rewrite (bind_Ok _ _ _ _ _ Ha). apply Hk.
Qed.

Lemma completes_call {R} (c : Call R) :
  dependable -> aroundTheRun c -> completes (call c).
Proof.
  intros Hd Hc m. unfold call. destruct (Hd R c (world m) Hc) as [w' [a Ha]].
  rewrite Ha. eauto.
Qed.

Lemma completes_orElse {A} (p : M Machine A) (d : A) : completes (orElse p d).
Proof. intros m. apply orElse_Ok. Qed.

Lemma completes_finally {A} (p : M Machine A) (f : M Machine unit) :
  completes p -> completes f -> completes (finally p f).
Proof.
  intros Hp Hf m. unfold finally. destruct (Hp m) as [m1 [a Ha]]. rewrite Ha.
  destruct (Hf m1) as [m2 [[] Hu]]. rewrite Hu. eauto.
Qed.

Lemma completes_connectWithRetry (wsUrl : string) :
  dependable -> completes (connectWithRetry wsUrl 3 2000).
Proof.
  intros Hd m. unfold connectWithRetry.
  change (Z.to_nat (3 + 1)) with 4%nat. cbn [connectRounds].
  change (0 <=? 3) with true. cbv iota.
  destruct (completes_call (ConnectOverCDP wsUrl) Hd I m) as [m1 [[] Hc]].
  rewrite (bind_Ok _ _ _ _ _ (settle_eq _ _ _ _ Hc)). eauto.
Qed.

Variables (flow : FlowDocument) (options : ExecuteOptions).

Lemma completes_runSteps (flowDir shotsDir : string) (todo : list RecordedStep)
    (st : RunState) :
  rejectsReadably -> gateOpen flow todo ->
  completes (runSteps flow options flowDir shotsDir todo st).
Proof.
  intros polite Hopen m.
  destruct (runSteps flow options flowDir shotsDir todo st m) as [m' [st' | t]] eqn:E;
    [eauto|].
  exfalso.
  destruct (raises_runSteps flow options flowDir shotsDir todo polite st m m' t E)
    as [s [u [allowed [Hin [Hg [Hb _]]]]]].
  rewrite (Hopen s u allowed Hin Hg) in Hb. discriminate.
Qed.

Lemma completes_executeFlow :
  dependable -> rejectsReadably -> gateOpen flow (steps flow) ->
  completes (executeFlow flow options).
Proof.
  intros Hd polite Hopen. unfold executeFlow.
  apply completes_bind; [now apply completes_call|]. intros _.
  destruct (dryRun options); [apply completes_ret|].
  apply completes_bind; [now apply completes_call|]. intros _.
  apply completes_bind.
  { unfold launch. destruct (lightweight options).
    - apply completes_bind; [now apply completes_connectWithRetry|].
      intros _. now apply completes_call.
    - apply completes_bind; [now apply completes_call|].
      intros _. apply completes_ret. }
  intros targetPage.
  apply completes_bind; [now apply completes_call|]. intros saved.
  apply completes_bind.
  { destruct saved; [now apply completes_call | apply completes_ret]. }
  intros _.
  apply completes_bind; [now apply completes_call|]. intros _.
  apply completes_bind.
  { destruct targetPage; [apply completes_ret | now apply completes_call]. }
  intros _.
  apply completes_bind.
  { unfold guardedRun. apply completes_finally.
    - apply completes_bind; [now apply completes_runSteps|]. intros st.
      apply completes_bind.
      { destruct (stepError st); [apply completes_ret|].
        apply completes_bind; [apply completes_orElse|]. intros. apply completes_ret. }
      intros st'. apply completes_bind; [|intros; apply completes_ret].
      destruct (stepError st'); [apply completes_ret|].
      apply completes_bind; [now apply completes_call|].
      intros. now apply completes_call.
    - apply completes_bind; [apply completes_orElse|].
      intros. now apply completes_call. }
  intros st.
  apply completes_bind; [now apply completes_call|]. intros _.
  apply completes_bind; [now apply completes_call|]. intros _.
  apply completes_ret.
Qed.

Lemma runSteps_blocked (flowDir shotsDir : string) (s : RecordedStep)
    (rest : list RecordedStep) (u : string) (allowed : list string)
    (st : RunState) (m : Machine) :
  gateApplies s flow = Some (u, allowed) ->
  DomainAllowlist.isDomainAllowed URL_hostname u allowed = Ok false ->
  exists m',
    runSteps flow options flowDir shotsDir (s :: rest) st m =
    (m', Throw (ErrorObj (DomainAllowlist.securityMessage u allowed (opt_name options)))) /\
    extends (fun e => exists ms, e = Slept ms) m m'.
Proof.
  intros Hg Hb. cbn [runSteps]. unfold beforeStep, securityGate.
  rewrite Hg. unfold DomainAllowlist.assertDomainAllowed. rewrite Hb.
  destruct (Qle_bool (delayBetween options) 0).
  - exists m. split; [reflexivity | apply extends_refl].
  - eexists. split; [reflexivity|].
    exists [Slept (delayBetween options)]. split; [reflexivity|].
    repeat constructor. eauto.
Qed.

Lemma succeeded_iff (st : RunState) : succeeded st = true <-> stepError st = None.
Proof. unfold succeeded. destruct (stepError st); split; congruence. Qed.

Lemma guardedRun_accounted (flowDir shotsDir : string) :
  returns (accounted (steps flow) initialRunState)
          (guardedRun flow options flowDir shotsDir).
Proof.
  unfold guardedRun. apply returns_finally.
  eapply returns_bind.
  { eapply returns_of_ensures, runSteps_accounted. reflexivity. }
  intros st Hst.
  apply (returns_bind (fun st' => accounted (steps flow) initialRunState st')).
  - destruct (stepError st) eqn:Hs; [now apply returns_ret|].
    apply returns_then. intros finalShot. apply returns_ret.
    unfold accounted in *. cbn [stepError stepsCompleted]. now rewrite Hs in *.
  - intros st' Hst'. apply returns_then. intros _. now apply returns_ret.
Qed.

Lemma resultOf_wellFormed (st : RunState) :
  accounted (steps flow) initialRunState st ->
  wellFormedResult flow (opt_name options) (resultOf flow (opt_name options) st).
Proof.
  intros Hacc. split; [apply succeeded_iff|]. split; [reflexivity|].
  right. exists st. auto.
Qed.

Lemma executeFlow_wellFormed :
  returns (wellFormedResult flow (opt_name options)) (executeFlow flow options).
Proof.
  unfold executeFlow. apply returns_then. intros _.
  destruct (dryRun options).
  - apply returns_ret. split; [split; reflexivity|]. split; [reflexivity|]. now left.
  - do 6 (apply returns_then; intros ?).
    eapply returns_bind; [apply guardedRun_accounted|]. intros st Hst.
    do 2 (apply returns_then; intros ?).
    apply returns_ret. now apply resultOf_wellFormed.
Qed.

Lemma executeFlow_blocked (s : RecordedStep) (rest : list RecordedStep)
    (u : string) (allowed : list string) :
  dryRun options = false ->
  steps flow = s :: rest ->
  gateApplies s flow = Some (u, allowed) ->
  DomainAllowlist.isDomainAllowed URL_hostname u allowed = Ok false ->
  alwaysThrows (executeFlow flow options).
Proof.
  intros Hdry Hsteps Hg Hb. unfold executeFlow. rewrite Hdry.
  do 7 (apply alwaysThrows_then; intros ?).
  apply alwaysThrows_bind. unfold guardedRun.
  apply alwaysThrows_finally, alwaysThrows_bind. rewrite Hsteps. intros m.
  destruct (runSteps_blocked (getFlowDir (opt_name options))
              (joinPath (getFlowDir (opt_name options)) "screenshots")
              s rest u allowed initialRunState m Hg Hb) as [m' [Hr _]].
  eauto.
Qed.

(** *** A run that the gate stops, on a platform that does its part *)

(** The events of a run in which no step is dispatched. *)
Local Abbreviation idle :=
  (fun e : Event => aroundSteps e = true \/ exists ms, e = Slept ms).

Lemma quietly_ret {A} (a : A) : quietly idle (ret a).
Proof. intros m. exists m, a. split; [reflexivity | apply extends_refl]. Qed.

Lemma quietly_bind {A B} (p : M Machine A) (k : A -> M Machine B) :
  quietly idle p -> (forall a, quietly idle (k a)) -> quietly idle (bind p k).
Proof.
  intros Hp Hk m. destruct (Hp m) as [m1 [a [Ha He]]].
  destruct (Hk a m1) as [m2 [b [Hb He2]]].
  exists m2, b. rewrite (bind_Ok _ _ _ _ _ Ha). split; [exact Hb|].
  eapply extends_trans; eassumption.
Qed.

Lemma quietly_call {R} (c : Call R) :
  dependable -> aroundTheRun c -> aroundSteps (Called c) = true ->
  quietly idle (call c).
Proof.
  intros Hd Hc Hi m. unfold call. destruct (Hd R c (world m) Hc) as [w' [a Ha]].
  rewrite Ha. eexists _, a. split; [reflexivity|].
  exists [Called c]. split; [reflexivity|].
  constructor; [now left | constructor].
Qed.

Lemma quietly_connectWithRetry (wsUrl : string) :
  dependable -> quietly idle (connectWithRetry wsUrl 3 2000).
Proof.
  intros Hd m. unfold connectWithRetry.
  change (Z.to_nat (3 + 1)) with 4%nat. cbn [connectRounds].
  change (0 <=? 3) with true. cbv iota.
  destruct (quietly_call (ConnectOverCDP wsUrl) Hd I eq_refl m) as [m1 [[] [Hc He]]].
  rewrite (bind_Ok _ _ _ _ _ (settle_eq _ _ _ _ Hc)). exists m1, tt. auto.
Qed.

Lemma endsThrowing_after {A B} (t : Thrown) (last : list Event)
    (p : M Machine A) (k : A -> M Machine B) :
  quietly idle p -> (forall a, endsThrowing idle t last (k a)) ->
  endsThrowing idle t last (bind p k).
Proof.
  intros Hp Hk m. destruct (Hp m) as [m1 [a [Ha He]]].
  destruct (Hk a m1) as [m2 [Hb [He2 Hlast]]].
  exists m2. rewrite (bind_Ok _ _ _ _ _ Ha). split; [exact Hb|].
  split; [eapply extends_trans; eassumption | exact Hlast].
Qed.

Lemma endsThrowing_bind {A B} (t : Thrown) (last : list Event)
    (p : M Machine A) (k : A -> M Machine B) :
  endsThrowing idle t last p -> endsThrowing idle t last (bind p k).
Proof.
  intros Hp m. destruct (Hp m) as [m1 [Ha Hrest]].
  exists m1. now rewrite (bind_Throw _ _ _ _ _ Ha).
Qed.

Lemma endsThrowing_finally {A} (t : Thrown) (p : M Machine A) (flowDir : string) :
  dependable ->
  endsThrowing idle t [] p ->
  endsThrowing idle t (closing flowDir)
    (finally p (bind (orElse (call (TracingStop (joinPath flowDir "trace.zip"))) tt)
                     (fun _ => call ContextClose))).
Proof.
  intros Hd Hp m. destruct (Hp m) as [m1 [Ha [He _]]].
  unfold finally. rewrite Ha. unfold bind, orElse, call.
  set (stop := handle unit (TracingStop (joinPath flowDir "trace.zip")) (world m1)).
  assert (Hstop : exists w1, (let (w, r) := stop in
                   ({| world := w;
                       trace := trace m1 ++
                                [Called (TracingStop (joinPath flowDir "trace.zip"))] |},
                    r)) = ({| world := w1;
                              trace := trace m1 ++
                                [Called (TracingStop (joinPath flowDir "trace.zip"))] |},
                           snd stop)).
  { destruct stop as [w1 r]. now exists w1. }
  destruct Hstop as [w1 Hstop]. rewrite Hstop.
  destruct (Hd unit ContextClose w1 I) as [w2 [[] Hclose]].
  destruct (snd stop) as [[]|t']; cbn [world trace]; rewrite Hclose;
    (eexists; split; [reflexivity|]; split;
     [ eapply extends_trans; [exact He|];
       exists (closing flowDir); split;
       [cbn [trace closing]; now rewrite <- app_assoc
       | constructor; [now left|]; constructor; [now left | constructor]]
     | exists (trace m1); cbn [trace closing]; now rewrite <- app_assoc ]).
Qed.

Lemma executeFlow_stopped (s : RecordedStep) (rest : list RecordedStep)
    (u : string) (allowed : list string) :
  dependable ->
  dryRun options = false ->
  steps flow = s :: rest ->
  gateApplies s flow = Some (u, allowed) ->
  DomainAllowlist.isDomainAllowed URL_hostname u allowed = Ok false ->
  endsThrowing idle
    (ErrorObj (DomainAllowlist.securityMessage u allowed (opt_name options)))
    (closing (getFlowDir (opt_name options)))
    (executeFlow flow options).
Proof.
  intros Hd Hdry Hsteps Hg Hb. unfold executeFlow. rewrite Hdry.
  apply endsThrowing_after; [now apply quietly_call|]. intros _.
  apply endsThrowing_after; [now apply quietly_call|]. intros _.
  apply endsThrowing_after.
  { unfold launch. destruct (lightweight options).
    - apply quietly_bind; [now apply quietly_connectWithRetry|].
      intros _. now apply quietly_call.
    - apply quietly_bind; [now apply quietly_call|].
      intros _. apply quietly_ret. }
  intros targetPage.
  apply endsThrowing_after; [now apply quietly_call|]. intros saved.
  apply endsThrowing_after.
  { destruct saved; [now apply quietly_call | apply quietly_ret]. }
  intros _.
  apply endsThrowing_after; [now apply quietly_call|]. intros _.
  apply endsThrowing_after.
  { destruct targetPage; [apply quietly_ret | now apply quietly_call]. }
  intros _.
  apply endsThrowing_bind. unfold guardedRun.
  apply endsThrowing_finally; [exact Hd|].
  apply endsThrowing_bind. rewrite Hsteps. intros m.
  destruct (runSteps_blocked (getFlowDir (opt_name options))
              (joinPath (getFlowDir (opt_name options)) "screenshots")
              s rest u allowed initialRunState m Hg Hb) as [m' [Hr [new [Hn Hall]]]].
  exists m'. split; [exact Hr|]. split.
  - exists new. split; [exact Hn|].
    eapply Forall_impl; [exact Hall|]. intros e He. now right.
  - exists (trace m'). now rewrite app_nil_r.
Qed.

End Execute.




End ExecuteFacts.

(** ** Backoff delays and recovery of a retried operation *)

Module BackoffFacts.
Import Js StepTypes Eff EffFacts Retry Attempts Playwright Resolver Executor Vocabulary.
Import RetryFacts.
Local Open Scope list_scope.

Lemma calcBackoff_le_ceiling (attempt : Z) (config : RetryConfig) :
  (calcBackoff attempt config <= maxBackoffMs config)%Q.
Proof. unfold calcBackoff. apply Q.le_min_r. Qed.

(** X1.  The delay never exceeds the ceiling, whatever the configuration; with a
    non-negative initial delay and a multiplier of at least one it does not
    shrink from one attempt to a later one, and it is not negative unless
    the ceiling is. *)
Theorem calcBackoff_bounded_monotone (config : RetryConfig) (a b : Z) :
  (0 <= backoffMs config)%Q ->
  (1 <= backoffMultiplier config)%Q ->
  a <= b ->
  (calcBackoff a config <= maxBackoffMs config)%Q /\
  (calcBackoff a config <= calcBackoff b config)%Q /\
  ((0 <= maxBackoffMs config)%Q -> (0 <= calcBackoff a config)%Q).
Proof.
  intros Hb Hm Hab.
  assert (H0 : (0 <= backoffMultiplier config)%Q).
  { eapply Qle_trans; [|exact Hm]. discriminate. }
  split; [apply calcBackoff_le_ceiling|]. split.
  - unfold calcBackoff. apply Q.min_le_compat_r.
    apply Qmult_le_compat_nonneg.
    + split; [exact Hb | apply Qle_refl].
    + split; [now apply Qpower_0_le | now apply Qpower_le_compat_l].
  - intros Hc. unfold calcBackoff. apply Q.min_glb; [|exact Hc].
    apply Qmult_le_0_compat; [exact Hb | now apply Qpower_0_le].
Qed.

Lemma calcBackoff_bounded_monotone_witness :
  (calcBackoff 2 DEFAULT_RETRY_CONFIG <= 8000)%Q /\
  (calcBackoff 2 DEFAULT_RETRY_CONFIG <= calcBackoff 5 DEFAULT_RETRY_CONFIG)%Q.
Proof.
  destruct (calcBackoff_bounded_monotone DEFAULT_RETRY_CONFIG 2 5) as [H1 [H2 _]].
  - cbn. discriminate.
  - cbn. discriminate.
  - lia.
  - split; [exact H1 | exact H2].
Defined.

Lemma stateBefore_succ {St T} (fn : M St T) (s : St) (k : nat) :
  stateBefore fn (fst (fn s)) k = stateBefore fn s (S k).
Proof. unfold stateBefore. now rewrite Nat.iter_succ_r. Qed.


Section Loop.
  Context {St T : Type}.
  Variable fn : M St T.
  Variable config : RetryConfig.
  Variable idx : Z.
  Variable cb : option OnStepFail.
  Hypothesis always_retry : forall e a, answers cb idx e a = retry.

Lemma counted_eq (m : Mock St) :
  counted fn m =
  ({| inner := fst (fn (inner m)); calls := S (calls m); sleeps := sleeps m |},
   snd (fn (inner m))).
Proof. unfold counted. destruct (fn (inner m)). reflexivity. Qed.

Lemma withRetryLoop_recovers (k : nat) :
  forall (fuel : nat) (attempt : Z) (lastError : Thrown) (m : Mock St) (v : T),
    Z.of_nat fuel = maxRetries config + 1 - attempt ->
    attempt + Z.of_nat k <= maxRetries config ->
    (forall i, (i < k)%nat -> exists e, snd (fn (stateBefore fn (inner m) i)) = Throw e) ->
    snd (fn (stateBefore fn (inner m) k)) = Ok v ->
    let out := withRetryLoop recordedSleep idx (counted fn) config cb
                 fuel attempt lastError m in
    calls (fst out) = (calls m + S k)%nat /\
    inner (fst out) = stateBefore fn (inner m) (S k) /\
    sleeps (fst out) =
      sleeps m ++ map (fun i => calcBackoff (attempt + Z.of_nat i) config) (seq 0 k) /\
    snd out = Ok (Some v).
Proof.
  induction k as [|k IH]; intros fuel attempt lastError m v Hfuel Hk Hfail Hok.
  - destruct fuel as [|fuel]; [lia|]. cbn [withRetryLoop].
    replace (attempt <=? maxRetries config) with true by lia.
    rewrite counted_eq. change (stateBefore fn (inner m) 0) with (inner m) in Hok.
    rewrite Hok. cbn. repeat split; [lia | now rewrite app_nil_r].
  - destruct fuel as [|fuel]; [lia|]. cbn [withRetryLoop].
    replace (attempt <=? maxRetries config) with true by lia.
    rewrite counted_eq.
    destruct (Hfail 0%nat ltac:(lia)) as [e He].
    change (stateBefore fn (inner m) 0) with (inner m) in He. rewrite He.
    replace (attempt <? maxRetries config) with true by lia.
    pose proof (always_retry (toError e) attempt) as Ha. unfold answers in Ha.
    rewrite Ha.
    set (m' := recordedSleep (calcBackoff attempt config) _).
    destruct (IH fuel (attempt + 1) (toError e) m' v) as [H1 [H2 [H3 H4]]].
    + lia.
    + lia.
    + intros i Hi. cbn [m' recordedSleep inner]. rewrite stateBefore_succ.
      apply Hfail. lia.
    + cbn [m' recordedSleep inner]. rewrite stateBefore_succ. exact Hok.
    + cbn zeta. rewrite H1, H2, H3, H4. cbn [m' recordedSleep inner calls sleeps].
      rewrite stateBefore_succ. repeat split; [lia|].
      rewrite (shifted_delays (fun a => calcBackoff a config)).
      now rewrite <- app_assoc.
Qed.

Hypothesis always_fails : forall x, exists e, snd (fn x) = Throw e.

Lemma withRetryLoop_delays (fuel : nat) :
  forall (attempt : Z) (lastError : Thrown) (m : Mock St),
    Z.of_nat fuel = maxRetries config + 1 - attempt ->
    sleeps (fst (withRetryLoop recordedSleep idx (counted fn) config cb
                   fuel attempt lastError m)) =
    sleeps m ++ map (fun i => calcBackoff (attempt + Z.of_nat i) config)
                    (seq 0 (pred fuel)).
Proof.
  induction fuel as [|k IH]; intros attempt lastError m Hfuel.
  - cbn [withRetryLoop].
    replace (attempt <=? maxRetries config) with false by lia.
    cbn. now rewrite app_nil_r.
  - cbn [withRetryLoop].
    replace (attempt <=? maxRetries config) with true by lia.
    rewrite counted_eq. destruct (always_fails (inner m)) as [e He]. rewrite He.
    destruct k as [|k].
    + replace (attempt <? maxRetries config) with false by lia.
      rewrite (IH (attempt + 1)) by lia. cbn. reflexivity.
    + replace (attempt <? maxRetries config) with true by lia.
      pose proof (always_retry (toError e) attempt) as Ha. unfold answers in Ha.
      rewrite Ha. rewrite (IH (attempt + 1)) by lia.
      cbn [recordedSleep sleeps pred].
      rewrite (shifted_delays (fun a => calcBackoff a config)).
      now rewrite <- app_assoc.
Qed.

End Loop.

(** X2.  An operation whose first [k] invocations fail and whose next one returns
    [v], with [k] at most [maxRetries]: it is invoked [k + 1] times, the
    delays taken are those of the attempts [0] to [k - 1] in that order (none
    at all when the first invocation succeeds), and [v] is returned. *)
Theorem withRetry_recovers {St T : Type} (idx : Z) (fn : M St T)
    (config : RetryConfig) (s : St) (k : nat) (v : T) :
  Z.of_nat k <= maxRetries config ->
  (forall i, (i < k)%nat -> exists e, snd (fn (stateBefore fn s i)) = Throw e) ->
  snd (fn (stateBefore fn s k)) = Ok v ->
  let out := withRetry recordedSleep idx (counted fn) config None (mockStart s) in
  calls (fst out) = S k /\
  sleeps (fst out) = backoffs config k /\
  snd out = Ok (Some v).
Proof.
  intros Hk Hfail Hok out. subst out. unfold withRetry.
  destruct (withRetryLoop_recovers fn config idx None (fun _ _ => eq_refl) k
              (Z.to_nat (maxRetries config + 1)) 0 (ErrorObj "Unknown error")
              (mockStart s) v ltac:(lia) ltac:(lia) Hfail Hok) as [H1 [_ [H3 H4]]].
  cbn zeta in H1, H3, H4. split; [exact H1|]. split; [|exact H4].
  rewrite H3. reflexivity.
Qed.

Lemma withRetry_recovers_witness :
  let out := withRetry recordedSleep 7 (counted failsFirst) DEFAULT_RETRY_CONFIG None
               (mockStart 2%nat) in
  calls (fst out) = 3%nat /\
  sleeps (fst out) = backoffs DEFAULT_RETRY_CONFIG 2 /\
  snd out = Ok (Some "done").
Proof.
  apply (withRetry_recovers 7 failsFirst DEFAULT_RETRY_CONFIG 2%nat 2%nat "done").
  - cbn. lia.
  - intros i Hi. destruct i as [|[|i]]; [eexists; reflexivity .. | lia].
  - reflexivity.
Defined.

(** X3.  An operation that always fails, with the default answer to a failure:
    the delays taken are those of the attempts [0] to [maxRetries - 1], none
    following the last invocation; with a negative [maxRetries] the operation
    is not invoked at all and the error thrown is the initial one. *)
Theorem withRetry_exhaustion_delays {St T : Type} (idx : Z) (fn : M St T)
    (config : RetryConfig) (s : St) :
  (forall x, exists e, snd (fn x) = Throw e) ->
  let out := withRetry recordedSleep idx (counted fn) config None (mockStart s) in
  (0 <= maxRetries config ->
   sleeps (fst out) = backoffs config (Z.to_nat (maxRetries config))) /\
  (maxRetries config < 0 ->
   fst out = mockStart s /\ snd out = Throw (ErrorObj "Unknown error")).
Proof.
  intros Hfail out. subst out. unfold withRetry. split.
  - intros Hpos.
    rewrite (withRetryLoop_delays fn config idx None (fun _ _ => eq_refl) Hfail)
      by lia.
    replace (Z.to_nat (maxRetries config + 1))
      with (S (Z.to_nat (maxRetries config))) by lia.
    reflexivity.
  - intros Hneg.
    replace (Z.to_nat (maxRetries config + 1)) with 0%nat by lia.
    cbn [withRetryLoop].
    replace (0 <=? maxRetries config) with false by lia. split; reflexivity.
Qed.

Lemma withRetry_exhaustion_delays_witness :
  sleeps (fst (withRetry recordedSleep 0 (counted alwaysFails) DEFAULT_RETRY_CONFIG
                 None (mockStart tt)))
  = backoffs DEFAULT_RETRY_CONFIG 3.
Proof.
  refine (proj1 (withRetry_exhaustion_delays 0 alwaysFails DEFAULT_RETRY_CONFIG tt _) _).
  - intros x. exists (ErrorObj "always fails"). reflexivity.
  - cbn. lia.
Defined.

End BackoffFacts.

(** ** Giving up: elements that never show, endpoints that never answer *)

Module GivingUpFacts.
Import Js StepTypes Eff EffFacts Retry Attempts Playwright SelectorEngine Resolver Executor Vocabulary.
Import RetryFacts BackoffFacts.
Local Open Scope list_scope.

Section WithPlatform.
Context `{Platform}.

Lemma firstVisible_unseen (ordered : list string) :
  neverShow ordered ->
  forall m, exists m' new,
    firstVisible ordered m = (m', Ok None) /\
    trace m' = trace m ++ new /\
    omap probeOf new = ordered /\ omap delayOf new = [] /\
    Forall (fun e => is_Some (probeOf e) \/ is_Some (delayOf e)) new.
Proof.
  induction ordered as [|sel rest IH]; intros Hn m.
  - exists m, []. rewrite app_nil_r. repeat split. constructor.
  - cbn [firstVisible]. unfold bind, settle, call.
    destruct (Hn sel (world m) ltac:(now left)) as [w' [t Hw]]. rewrite Hw. cbn.
    destruct (IH (fun s w Hs => Hn s w (or_intror Hs))
                 {| world := w'; trace := trace m ++ [Called (WaitForVisible (pageLocator sel) 5000)] |})
      as [m' [new [Hf [Ht [Hp [Hd Hq]]]]]].
    exists m', (Called (WaitForVisible (pageLocator sel) 5000) :: new).
    split; [exact Hf|]. split; [rewrite Ht; cbn; now rewrite <- app_assoc|].
    split; [cbn; now rewrite Hp|]. split; [cbn; exact Hd|].
    constructor; [left; cbn; eauto | exact Hq].
Qed.

Lemma resilientRounds_unseen (ordered : list string) (config : RetryConfig)
    (fuel : nat) :
  neverShow ordered ->
  forall attempt lastError m,
    Z.of_nat fuel = maxRetries config + 1 - attempt ->
    exists m' new,
      resilientRounds ordered config fuel attempt lastError m =
      (m', Throw (match fuel with
                  | O => lastError
                  | S _ => noSelectorMatched ordered
                  end)) /\
      trace m' = trace m ++ new /\
      omap probeOf new = concat (replicate fuel ordered) /\
      omap delayOf new =
        map (fun i => calcBackoff (attempt + Z.of_nat i) config) (seq 0 (pred fuel)) /\
      Forall (fun e => is_Some (probeOf e) \/ is_Some (delayOf e)) new.
Proof.
  intros Hn. induction fuel as [|k IH]; intros attempt lastError m Hfuel.
  - exists m, []. cbn [resilientRounds].
    replace (attempt <=? maxRetries config) with false by lia.
    rewrite app_nil_r. repeat split. constructor.
  - cbn [resilientRounds].
    replace (attempt <=? maxRetries config) with true by lia.
    destruct (firstVisible_unseen ordered Hn m) as [m1 [new1 [Hf [Ht1 [Hp1 [Hd1 Hq1]]]]]].
    rewrite (bind_Ok _ _ _ _ _ Hf).
    destruct k as [|k].
    + replace (attempt <? maxRetries config) with false by lia.
      unfold bind at 1. cbn [ret].
      destruct (IH (attempt + 1) (noSelectorMatched ordered) m1 ltac:(lia))
        as [m2 [new2 [Hr [Ht2 [Hp2 [Hd2 Hq2]]]]]].
      exists m2, (new1 ++ new2). rewrite Hr.
      split; [reflexivity|]. split; [rewrite Ht2, Ht1; now rewrite <- app_assoc|].
      rewrite !omap_app, Hp1, Hp2, Hd1, Hd2. cbn [replicate concat].
      repeat split. now apply Forall_app.
    + replace (attempt <? maxRetries config) with true by lia.
      unfold bind at 1, lift.
      destruct (IH (attempt + 1) (noSelectorMatched ordered)
                   (sleep (calcBackoff attempt config) m1) ltac:(lia))
        as [m2 [new2 [Hr [Ht2 [Hp2 [Hd2 Hq2]]]]]].
      exists m2, (new1 ++ Slept (calcBackoff attempt config) :: new2). rewrite Hr.
      split; [reflexivity|]. split.
      { rewrite Ht2. cbn [sleep trace]. rewrite Ht1, <- !app_assoc. reflexivity. }
      rewrite !omap_app. cbn [omap list_omap delayOf probeOf].
      rewrite Hp1, Hp2, Hd1, Hd2.
      split; [reflexivity|]. split.
      { cbn [app pred]. now rewrite (shifted_delays (fun a => calcBackoff a config)). }
      apply Forall_app. split; [exact Hq1|].
      constructor; [right; cbn; eauto | exact Hq2].
Qed.

Lemma connectRounds_unreachable (wsUrl : string) (maxRetries : Z) (base : Q)
    (fuel : nat) :
  unreachable wsUrl ->
  forall attempt lastError m,
    Z.of_nat fuel = maxRetries + 1 - attempt ->
    exists m' new last,
      connectRounds wsUrl maxRetries base fuel attempt lastError m =
      (m', Throw (connectFailed wsUrl maxRetries last)) /\
      (match fuel with O => last = lastError | S _ => exists t, last = toError t end) /\
      trace m' = trace m ++ new /\
      omap connectOf new = replicate fuel wsUrl /\
      omap delayOf new =
        map (fun i => (base * Qpower 2 (attempt + Z.of_nat i))%Q) (seq 0 (pred fuel)).
Proof.
  intros Hu. induction fuel as [|k IH]; intros attempt lastError m Hfuel.
  - exists m, [], lastError. cbn [connectRounds].
    replace (attempt <=? maxRetries) with false by lia.
    rewrite app_nil_r. repeat split.
  - cbn [connectRounds].
    replace (attempt <=? maxRetries) with true by lia.
    unfold bind at 1, settle, call.
    destruct (Hu (world m)) as [w' [t Hw]]. rewrite Hw. cbn [ret].
    set (m1 := {| world := w'; trace := trace m ++ [Called (ConnectOverCDP wsUrl)] |}).
    destruct k as [|k].
    + replace (attempt <? maxRetries) with false by lia.
      unfold bind at 1. cbn [ret].
      destruct (IH (attempt + 1) (toError t) m1 ltac:(lia))
        as [m2 [new2 [last [Hr [Hl [Ht2 [Hc2 Hd2]]]]]]].
      exists m2, (Called (ConnectOverCDP wsUrl) :: new2), last. rewrite Hr.
      split; [reflexivity|]. split; [exists t; exact Hl|].
      split; [rewrite Ht2; cbn [m1 trace]; now rewrite <- app_assoc|].
      cbn [omap list_omap connectOf delayOf]. rewrite Hc2, Hd2. split; reflexivity.
    + replace (attempt <? maxRetries) with true by lia.
      unfold bind at 1, lift.
      destruct (IH (attempt + 1) (toError t) (sleep (base * 2 ^ attempt) m1) ltac:(lia))
        as [m2 [new2 [last [Hr [Hl [Ht2 [Hc2 Hd2]]]]]]].
      exists m2, (Called (ConnectOverCDP wsUrl) :: Slept (base * 2 ^ attempt) :: new2), last.
      rewrite Hr.
      split; [reflexivity|]. split; [exact Hl|].
      split.
      { rewrite Ht2. cbn [sleep m1 trace]. rewrite <- !app_assoc. reflexivity. }
      cbn [omap list_omap connectOf delayOf]. rewrite Hc2, Hd2.
      split; [reflexivity|].
      cbn [pred]. now rewrite (shifted_delays (fun a => (base * 2 ^ a)%Q)).
Qed.

End WithPlatform.

(** X4.  When no candidate of a SelectorSet ever becomes visible on the page,
    resolution waits for each candidate in each of [maxRetries + 1] rounds,
    takes the backoff delays of the attempts [0] to [maxRetries - 1] between
    the rounds, does nothing else, and fails with the error that lists the
    candidates.  A SelectorSet with no candidate waits through the same
    delays without asking the page anything. *)
Theorem resilientLocator_gives_up `{Platform} (selectors : SelectorSet)
    (config : RetryConfig) (m : Machine) :
  0 <= maxRetries config ->
  neverShow (prioritizedSelectors selectors) ->
  exists m' new,
    resilientLocator selectors config m =
      (m', Throw (noSelectorMatched (prioritizedSelectors selectors))) /\
    trace m' = trace m ++ new /\
    omap probeOf new =
      concat (replicate (Z.to_nat (maxRetries config + 1))
                        (prioritizedSelectors selectors)) /\
    omap delayOf new = backoffs config (Z.to_nat (maxRetries config)) /\
    Forall (fun e => is_Some (probeOf e) \/ is_Some (delayOf e)) new.
Proof.
  intros Hpos Hn. unfold resilientLocator.
  destruct (resilientRounds_unseen (prioritizedSelectors selectors) config
              (Z.to_nat (maxRetries config + 1)) Hn 0
              (ErrorObj "No selectors available") m ltac:(lia))
    as [m' [new [Hr [Ht [Hp [Hd Hq]]]]]].
  exists m', new. rewrite Hr.
  replace (Z.to_nat (maxRetries config + 1))
    with (S (Z.to_nat (maxRetries config))) in * by lia.
  repeat split; assumption.
Qed.

Lemma resilientLocator_gives_up_witness :
  exists m' new,
    resilientLocator (H := Offline.deadPage) (Demo.cssOnly "#approve")
      DEFAULT_RETRY_CONFIG Offline.start =
      (m', Throw (ErrorObj "No selector matched for step. Tried: #approve")) /\
    omap probeOf new = ["#approve"; "#approve"; "#approve"; "#approve"] /\
    omap delayOf new = backoffs DEFAULT_RETRY_CONFIG 3.
Proof.
  destruct (resilientLocator_gives_up (H := Offline.deadPage) (Demo.cssOnly "#approve")
              DEFAULT_RETRY_CONFIG Offline.start)
    as [m' [new [Hr [_ [Hp [Hd _]]]]]].
  - cbn. lia.
  - intros sel w _. exists w, (ErrorObj "Timeout exceeded"). reflexivity.
  - exists m', new. split; [exact Hr|]. split; [exact Hp | exact Hd].
Defined.



End GivingUpFacts.

(** ** Navigation and dry runs *)

Module RunFacts.
Import Js StepTypes Eff EffFacts Retry Attempts Playwright SelectorEngine Resolver Executor Vocabulary.
Import Scenarios.
Local Open Scope list_scope.



(** X7.  A dry run creates the screenshots directory and does nothing else: no
    preflight, no browser, no step and no check of the allowlist.  It reports
    success with every step counted as completed. *)
Theorem dry_run_reports_success `{Platform} (options : ExecuteOptions)
    (flow : FlowDocument) (m : Machine) :
  loadFlow (opt_name options) (world m) = Some flow ->
  dryRun options = true ->
  let shotsDir := joinPath (getFlowDir (opt_name options)) "screenshots" in
  (forall w',
     handle unit (Mkdir shotsDir) (world m) = (w', Ok tt) ->
     exists r,
       execute options m =
         ({| world := w'; trace := trace m ++ [Called (Mkdir shotsDir)] |},
          Returned r) /\
       success r = true /\ error r = None /\ screenshots r = [] /\
       steps_completed r = Z.of_nat (length (steps flow)) /\
       steps_total r = Z.of_nat (length (steps flow))) /\
  (forall w' t,
     handle unit (Mkdir shotsDir) (world m) = (w', Throw t) ->
     execute options m =
       ({| world := w'; trace := trace m ++ [Called (Mkdir shotsDir)] |}, Threw t)).
Proof.
  intros Hl Hd shotsDir. unfold execute, executeFlow. rewrite Hl, Hd.
  fold shotsDir. unfold bind, call. split.
  - intros w' Hm. rewrite Hm. cbn. eexists. split; [reflexivity|].
    repeat split.
  - intros w' t Hm. rewrite Hm. reflexivity.
Qed.

Lemma dry_run_reports_success_witness :
  exists m' r,
    execute (H := Demo.portal) (dryOptions "stray") (Demo.boot true) = (m', Returned r) /\
    trace m' = [Called (Mkdir "/flows/stray/screenshots")] /\
    success r = true /\ steps_completed r = 1.
Proof.
  destruct (dry_run_reports_success (H := Demo.portal) (dryOptions "stray")
              Demo.strayFlow (Demo.boot true) eq_refl eq_refl) as [Hok _].
  destruct (Hok (Demo.site true) eq_refl) as [r [He [Hs [_ [_ [Hc _]]]]]].
  eexists _, r. split; [exact He|]. split; [reflexivity|]. split; [exact Hs | exact Hc].
Defined.

End RunFacts.

(** ** The run log and the end of a failed run *)

Module LogFacts.
Import Js StepTypes Eff EffFacts Retry Attempts Playwright SelectorEngine Resolver Executor Vocabulary.
Import Scenarios.
Local Open Scope list_scope.

Section WithPlatform.
Context `{Platform}.
Variables (flow : FlowDocument) (options : ExecuteOptions).
Variables (flowDir shotsDir : string).

(** The run log after the steps [todo], from a state without error: the
    entries of the steps that were dispatched, in their order. *)
Lemma runSteps_logged (todo : list RecordedStep) :
  forall st m m' st',
    stepError st = None ->
    runSteps flow options flowDir shotsDir todo st m = (m', Ok st') ->
    exists n,
      Z.of_nat n = stepsCompleted st' - stepsCompleted st + Z.of_nat (failedCount st') /\
      (n <= length todo)%nat /\
      map stepIndex (logged st') =
        map stepIndex (logged st) ++ map index (take n todo).
Proof.
  induction todo as [|s rest IH]; intros st m m' st' Hst Hrun.
  - cbn in Hrun. injection Hrun as <- <-. exists 0%nat.
    unfold failedCount. rewrite Hst. cbn. rewrite app_nil_r. split; [lia|]. split; [lia|reflexivity].
  - cbn [runSteps] in Hrun. unfold bind at 1 in Hrun.
    destruct (beforeStep s flow options m) as [m1 [[]|t]]; [|discriminate].
    unfold bind at 1, settle in Hrun.
    destruct (executeStep s (params options) flowDir (activeFrameSelector st) m1)
      as [m2 [frame|err]].
    + destruct (IH (advance st frame [successEntry s]) m2 m' st' Hst Hrun)
        as [n [Hn [Hle Hlog]]].
      exists (S n). cbn [advance stepsCompleted logged] in *.
      split; [lia|]. split; [cbn; lia|].
      rewrite Hlog, map_app. cbn. now rewrite <- app_assoc.
    + unfold bind at 1, liftResult in Hrun.
      destruct (messageOf err) as [errMsg|t]; [|discriminate].
      cbn zeta in Hrun. unfold bind at 1 in Hrun.
      destruct (failureShot s shotsDir m2) as [m3 [shot|t]]; [|discriminate].
      unfold bind at 1 in Hrun.
      destruct (isAuthFailure m3) as [m4 [[|]|t]]; [| |discriminate].
      * unfold bind at 1, settle in Hrun.
        destruct (recoverAndRetry s flow options flowDir
                    (activeFrameSelector (noteFailure st s errMsg shot)) m4)
          as [m5 [frame|authErr]].
        -- destruct (IH (advance (noteFailure st s errMsg shot) frame [])
                        m5 m' st' Hst Hrun) as [n [Hn [Hle Hlog]]].
           exists (S n). cbn [advance noteFailure stepsCompleted logged] in *.
           split; [lia|]. split; [cbn [length]; lia|].
           rewrite Hlog, !map_app. cbn. rewrite app_nil_r, <- app_assoc. reflexivity.
        -- unfold bind at 1, liftResult in Hrun.
           destruct (messageOf authErr) as [msg|t]; [|discriminate].
           unfold terminal in Hrun. injection Hrun as <- <-.
           exists 1%nat. cbn. split; [lia|]. split; [lia|].
           rewrite map_app. reflexivity.
      * unfold terminal in Hrun. injection Hrun as <- <-.
        exists 1%nat. cbn. split; [lia|]. split; [lia|].
        rewrite map_app. reflexivity.
Qed.

End WithPlatform.

(** X10.  The run log of a run that ends with a state holds one entry for
    each step that was dispatched, in the order of the flow: as many entries
    as steps completed, and one more for the step the run failed at.  A step
    that failed with a value whose message can be read and succeeded only
    when retried after the login sub-flow keeps the one entry of its
    failure. *)
Theorem run_log_one_entry_per_step `{Platform} (flow : FlowDocument)
    (options : ExecuteOptions) (flowDir shotsDir : string) (m m' : Machine)
    (st' : RunState) :
  runSteps flow options flowDir shotsDir (steps flow) initialRunState m = (m', Ok st') ->
  Z.of_nat (length (logged st')) = stepsCompleted st' + Z.of_nat (failedCount st') /\
  map stepIndex (logged st') = map index (take (length (logged st')) (steps flow)) /\
  (forall s rest m0 m1 m2 m3 m4 m5 m6 err errMsg shot frame st,
     stepError st = None ->
     beforeStep s flow options m0 = (m1, Ok tt) ->
     executeStep s (params options) flowDir (activeFrameSelector st) m1 = (m2, Throw err) ->
     messageOf err = Ok errMsg ->
     failureShot s shotsDir m2 = (m3, Ok shot) ->
     isAuthFailure m3 = (m4, Ok true) ->
     call (RunAuthFlow (opt_name options) (metadata_url (metadata flow))) m4 = (m5, Ok tt) ->
     executeStep s (params options) flowDir (activeFrameSelector st) m5 = (m6, Ok frame) ->
     runSteps flow options flowDir shotsDir (s :: rest) st m0 =
     runSteps flow options flowDir shotsDir rest
       {| stepsCompleted := stepsCompleted st + 1; stepError := None;
          activeFrameSelector := frame; shots := pushShot shot (shots st);
          logged := logged st ++ [failureEntry s errMsg shot] |} m6).
Proof.
  intros Hrun.
  destruct (runSteps_logged flow options flowDir shotsDir (steps flow)
              initialRunState m m' st' eq_refl Hrun) as [n [Hn [Hle Hlog]]].
  cbn [initialRunState logged stepsCompleted map app] in Hn, Hlog.
  assert (Hlen : length (logged st') = n).
  { rewrite <- (length_map stepIndex), Hlog, length_map, length_take. lia. }
  split; [lia|]. split; [now rewrite Hlen|].
  intros s rest m0 m1 m2 m3 m4 m5 m6 err errMsg shot frame st Hst H1 H2 Hm H3 H4 H5 H6.
  rewrite (RecoveryFacts.runSteps_failure flow options flowDir shotsDir s rest st
             m0 m1 m2 m3 m4 err errMsg shot true H1 H2 Hm H3 H4).
  cbn zeta.
  rewrite (RecoveryFacts.recoverAndRetry_login_ok flow options flowDir s _ m4 m5 H5).
  rewrite H6. unfold advance, noteFailure. cbn. rewrite Hst, app_nil_r. reflexivity.
Qed.

Lemma run_log_one_entry_per_step_witness :
  exists m' st',
    runSteps (H := Demo.portal) Demo.approvalFlow (Demo.optionsFor "approve")
      "/flows/approve" "/flows/approve/screenshots" (steps Demo.approvalFlow)
      initialRunState (Demo.boot true) = (m', Ok st') /\
    Z.of_nat (length (logged st')) = 3 /\
    map stepIndex (logged st') = [1; 2; 3] /\
    map status (logged st') = [status_success; status_failure; status_success].
Proof.
  destruct (runSteps (H := Demo.portal) Demo.approvalFlow (Demo.optionsFor "approve")
              "/flows/approve" "/flows/approve/screenshots" (steps Demo.approvalFlow)
              initialRunState (Demo.boot true)) as [m' [st' | t]] eqn:E.
  - destruct (run_log_one_entry_per_step (H := Demo.portal) Demo.approvalFlow
                (Demo.optionsFor "approve") "/flows/approve"
                "/flows/approve/screenshots" (Demo.boot true) m' st' E)
      as [Hlen [Hidx _]].
    exists m', st'. split; [reflexivity|].
    vm_compute in E. injection E as _ <-.
    split; [exact Hlen|]. split; [exact Hidx | reflexivity].
  - exfalso. vm_compute in E. discriminate.
Defined.



End LogFacts.

(** ** The end of every run: trace, context, cookies *)

Module LifeCycleFacts.
Import Js StepTypes Eff EffFacts Retry Playwright SelectorEngine Resolver Executor Vocabulary.
Import FrameFacts LifeCycle.
Local Open Scope list_scope.

Ltac of_a_step := cbn; reflexivity.

Section Steps.
Context `{Platform}.

Local Abbreviation P := (fun e : Event => aroundSteps e = false).

Lemma firstVisible_inner (ordered : list string) :
  ensures P (fun _ => True) (firstVisible ordered).
Proof.
  induction ordered as [|sel rest IH]; cbn [firstVisible].
  - now apply ensures_ret.
  - apply (ensures_bind _ (fun _ => True)).
    + apply (ensures_weaken _ (fun r => forall a, r = Ok a -> True)); [auto|].
      apply ensures_settle, ensures_call. of_a_step.
    + intros [[]|t] _; [now apply ensures_ret | exact IH].
Qed.

Lemma resilientRounds_inner (ordered : list string) (config : RetryConfig)
    (turns : nat) :
  forall attempt lastError,
    ensures P (fun _ => True) (resilientRounds ordered config turns attempt lastError).
Proof.
  induction turns as [|k IH]; intros attempt lastError; cbn [resilientRounds];
    (destruct (attempt <=? maxRetries config); [|apply ensures_throw]).
  - apply ensures_throw.
  - apply (ensures_bind _ (fun _ => True)); [apply firstVisible_inner|].
    intros [l|] _; [now apply ensures_ret|].
    apply (ensures_bind _ (fun _ => True)); [|intros _ _; apply IH].
    destruct (attempt <? maxRetries config).
    + apply ensures_sleep. of_a_step.
    + now apply ensures_ret.
Qed.

Lemma firstVisibleInFrame_inner (f : string) (selectorList : list string) :
  ensures P (fun _ => True) (firstVisibleInFrame f selectorList).
Proof.
  induction selectorList as [|sel rest IH]; cbn [firstVisibleInFrame].
  - now apply ensures_ret.
  - apply (ensures_bind _ (fun _ => True)).
    + apply (ensures_orElse _ (fun _ => True)); [|exact I].
      apply ensures_call. of_a_step.
    + intros [|] _; [now apply ensures_ret | exact IH].
Qed.

Lemma resolveLocator_inner (selectors : SelectorSet) (active : option string) :
  ensures P (fun _ => True) (resolveLocator selectors active).
Proof.
  unfold resolveLocator.
  destruct active as [[|c r]|]; try apply resilientRounds_inner.
  apply (ensures_bind _ (fun _ => True)); [apply firstVisibleInFrame_inner|].
  intros [l|] _; [now apply ensures_ret|].
  destruct (prioritizedSelectors selectors); [apply ensures_throw|].
  now apply ensures_ret.
Qed.

Lemma on_element_inner (selectors : SelectorSet) (active : option string)
    (act : Locator -> Call unit) :
  (forall l, aroundSteps (Called (act l)) = false) ->
  ensures P (fun _ => True)
    (bind (resolveLocator selectors active)
          (fun loc => bind (call (act loc)) (fun _ => ret active))).
Proof.
  intros Hact. apply (ensures_bind _ (fun _ => True)); [apply resolveLocator_inner|].
  intros l _. apply (ensures_bind _ (fun _ => True)); [|intros; now apply ensures_ret].
  apply ensures_call. apply Hact.
Qed.

Lemma executeStep_inner (s : RecordedStep) (params : gmap string string)
    (flowDir : string) (active : option string) :
  ensures P (fun _ => True) (executeStep s params flowDir active).
Proof.
  unfold executeStep.
  destruct (type s) eqn:Ht;
    try (apply on_element_inner; intros l; reflexivity);
    try (apply (ensures_bind _ (fun _ => True));
         [ apply ensures_call; of_a_step
         | intros; now apply ensures_ret ]).
  - (* wait *)
    apply (ensures_bind _ (fun _ => True)); [|intros; now apply ensures_ret].
    destruct (prioritizedSelectors (selectors s)) as [|first rest].
    + destruct (truthy (url s)); apply ensures_call; of_a_step.
    + destruct (negb (first =? "body")%string).
      * destruct active as [[|c r]|]; apply ensures_call; of_a_step.
      * destruct (truthy (url s)); apply ensures_call; of_a_step.
  - (* frame-switch *)
    now apply ensures_ret.
  - (* script *)
    destruct (nullish (scriptPath s) (value s)) as [[|c r]|];
      try apply ensures_throw.
    apply (ensures_bind _ (fun _ => True)); [apply ensures_call; of_a_step|].
    intros exports _.
    apply (ensures_bind _ (fun _ => True)); [|intros; now apply ensures_ret].
    destruct exports; try (apply ensures_call; of_a_step).
    apply ensures_throw.
  - (* other *)
    apply ensures_throw.
Qed.

Lemma runSteps_inner (flow : FlowDocument) (options : ExecuteOptions)
    (flowDir shotsDir : string) (todo : list RecordedStep) :
  forall st, ensures P (fun _ => True) (runSteps flow options flowDir shotsDir todo st).
Proof.
  induction todo as [|s rest IH]; intros st; cbn [runSteps].
  - now apply ensures_ret.
  - apply (ensures_bind _ (fun _ => True));
      [apply beforeStep_scoped; intros; of_a_step|].
    intros _ _.
    apply (ensures_bind _ (fun _ => True)).
    { apply (ensures_weaken _ (fun r => forall a, r = Ok a -> True)); [auto|].
      apply ensures_settle, executeStep_inner. }
    intros [frame | err] _; [apply IH|].
    apply (ensures_bind _ (fun _ => True)); [now apply ensures_liftResult|].
    intros errMsg _. cbn zeta.
    apply (ensures_bind _ (fun _ => True)).
    { unfold failureShot. apply (ensures_orElse _ (fun _ => True)); [|exact I].
      apply ensures_call. of_a_step. }
    intros shot _.
    apply (ensures_bind _ (fun _ => True));
      [apply isAuthFailure_scoped; of_a_step|].
    intros [|] _.
    + apply (ensures_bind _ (fun _ => True)).
      { apply (ensures_weaken _ (fun r => forall a, r = Ok a -> True)); [auto|].
        apply ensures_settle. unfold recoverAndRetry.
        apply (ensures_bind _ (fun _ => True));
          [apply ensures_call; of_a_step|].
        intros _ _. apply executeStep_inner. }
      intros [frame | authErr] _; [apply IH|].
      apply (ensures_bind _ (fun _ => True)); [now apply ensures_liftResult|].
      intros msg _.
      intros m. split; [apply extends_refl | auto].
    + intros m. split; [apply extends_refl | auto].
Qed.

End Steps.

(** X8.  Whatever the loop over the steps does, return or throw, the guarded part
    of a run ends by stopping the trace and closing the browser context, and
    does neither before; a value thrown by the loop is thrown on after them,
    unless closing the context fails in its turn. *)
Theorem context_closed_on_every_path `{Platform} (flow : FlowDocument)
    (options : ExecuteOptions) (flowDir shotsDir : string) (m : Machine) :
  (exists body,
     trace (fst (guardedRun flow options flowDir shotsDir m)) =
     trace m ++ body ++ closing flowDir /\
     Forall (fun e => forall c, In c (closing flowDir) -> e <> c) body) /\
  (forall m1 t,
     runSteps flow options flowDir shotsDir (steps flow) initialRunState m
       = (m1, Throw t) ->
     exists t', snd (guardedRun flow options flowDir shotsDir m) = Throw t' /\
       (t' = t \/ exists w, snd (handle unit ContextClose w) = Throw t')).
Proof.
  split.
  - unfold guardedRun, finally.
    match goal with |- context [let (s1, r) := ?body m in _] => set (p := body) end.
    assert (Hp : exists new, trace (fst (p m)) = trace m ++ new /\
                   Forall (fun e => forall c, In c (closing flowDir) -> e <> c) new).
    { subst p. cbv beta.
      assert (Hstep : forall e, aroundSteps e = false ->
                 forall c, In c (closing flowDir) -> e <> c).
      { intros e He c [<- | [<- | []]] ->; discriminate He. }
      assert (Hnot : forall R (c : Call R),
                 (forall c', In c' (closing flowDir) -> Called c <> c') ->
                 ensures (fun e => forall c', In c' (closing flowDir) -> e <> c')
                         (fun _ => True) (call c)).
      { intros R c Hc. now apply ensures_call. }
      set (Q := fun e => forall c, In c (closing flowDir) -> e <> c).
      assert (Hbody : ensures Q (fun _ => True)
                (bind (runSteps flow options flowDir shotsDir (steps flow) initialRunState)
                   (fun st =>
                      bind (match stepError st with
                            | None =>
                                bind (orElse (call (CaptureScreenshot shotsDir "final")) "")
                                  (fun finalShot =>
                                     ret {| stepsCompleted := stepsCompleted st;
                                            stepError := stepError st;
                                            activeFrameSelector := activeFrameSelector st;
                                            shots := pushShot finalShot (shots st);
                                            logged := logged st |})
                            | Some _ => ret st
                            end)
                        (fun st =>
                           bind (match stepError st with
                                 | None => bind (call ContextCookies)
                                             (fun cookies => call (SaveCookies (opt_name options) cookies))
                                 | Some _ => ret tt
                                 end)
                             (fun _ => ret st))))).
      { apply (ensures_bind _ (fun _ => True)).
        { intros m0. destruct (runSteps_inner flow options flowDir shotsDir (steps flow)
                                 initialRunState m0) as [[new [Ht Hf]] _].
          split; [|auto]. exists new. split; [exact Ht|].
          eapply Forall_impl; [exact Hf | exact Hstep]. }
        intros st _.
        apply (ensures_bind _ (fun _ => True)).
        { destruct (stepError st); [now apply ensures_ret|].
          apply (ensures_bind _ (fun _ => True)).
          - apply (ensures_orElse _ (fun _ => True)); [|exact I].
            apply ensures_call. intros c [<- | [<- | []]]; discriminate.
          - intros. now apply ensures_ret. }
        intros st' _.
        apply (ensures_bind _ (fun _ => True)); [|intros; now apply ensures_ret].
        destruct (stepError st'); [now apply ensures_ret|].
        apply (ensures_bind _ (fun _ => True)).
        - apply ensures_call. intros c [<- | [<- | []]]; discriminate.
        - intros. apply ensures_call. intros c [<- | [<- | []]]; discriminate. }
      destruct (Hbody m) as [[new [Ht Hf]] _]. exists new. split; assumption. }
    destruct Hp as [new [Hnew Hq]]. destruct (p m) as [m1 r]. cbn [fst] in Hnew.
    unfold bind, orElse, call.
    destruct (handle unit (TracingStop (joinPath flowDir "trace.zip")) (world m1))
      as [w1 r1].
    exists new. split; [|exact Hq]. unfold closing.
    destruct r1 as [[]|t1]; cbn [world trace];
      destruct (handle unit ContextClose w1) as [w2 [[]|t2]]; cbn [fst trace];
      rewrite Hnew, <- !app_assoc; reflexivity.
  - intros m1 t Hrun. unfold guardedRun, finally.
    rewrite (bind_Throw _ _ _ _ _ Hrun).
    unfold bind, orElse, call.
    destruct (handle unit (TracingStop (joinPath flowDir "trace.zip")) (world m1))
      as [w1 r1].
    destruct r1 as [[]|t1]; cbn [world trace];
      destruct (handle unit ContextClose w1) as [w2 [[]|t2]] eqn:E; cbn [snd];
      eexists; split; try reflexivity; try (now left);
      right; exists w1; rewrite E; reflexivity.
Qed.

Lemma inner_saves_nothing (l : list Event) :
  Forall (fun e => aroundSteps e = false) l -> omap savedCookies l = [].
Proof.
  induction 1 as [|e l He Hl IH]; [reflexivity|]. cbn [omap list_omap].
  rewrite IH. destruct e as [R c | ms]; [|reflexivity].
  destruct c; try reflexivity; discriminate He.
Qed.

Lemma call_trace `{Platform} {R} (c : Call R) (m m' : Machine) (r : Result R) :
  call c m = (m', r) -> trace m' = trace m ++ [Called c].
Proof.
  unfold call. destruct (handle R c (world m)) as [w r']. now intros [= <- _].
Qed.

Lemma orElse_call_trace `{Platform} {R} (c : Call R) (d : R) (m m' : Machine)
    (r : Result R) :
  orElse (call c) d m = (m', r) -> trace m' = trace m ++ [Called c].
Proof.
  unfold orElse. destruct (call c m) as [m1 [a|t]] eqn:E; intros [= <- _];
    exact (call_trace c m m1 _ E).
Qed.

Lemma finally_state {St A} (p : M St A) (f : M St unit) (s : St) :
  fst (finally p f s) = fst (f (fst (p s))).
Proof.
  unfold finally. destruct (p s) as [s1 r]. cbn [fst].
  destruct (f s1) as [s2 [[]|t]]; reflexivity.
Qed.

Lemma closing_trace `{Platform} (flowDir : string) (m : Machine) :
  trace (fst (bind (orElse (call (TracingStop (joinPath flowDir "trace.zip"))) tt)
                   (fun _ => call ContextClose) m))
  = trace m ++ closing flowDir.
Proof.
  unfold bind.
  destruct (orElse (call (TracingStop (joinPath flowDir "trace.zip"))) tt m)
    as [ma ra] eqn:Ea.
  pose proof (orElse_call_trace _ _ _ _ _ Ea) as Hta.
  assert (exists u, ra = Ok u) as [[] ->].
  { unfold orElse in Ea. destruct (call _ m) as [? [?|?]]; injection Ea as _ <-; eauto. }
  destruct (call ContextClose ma) as [mb rb] eqn:Eb.
  pose proof (call_trace _ _ _ _ Eb) as Htb. cbn [fst].
  rewrite Htb, Hta, <- app_assoc. reflexivity.
Qed.



End LifeCycleFacts.

(** ** The allowlist as a set of normalised entries *)

Module AllowlistFacts.
Import Js JsFacts DomainAllowlist GateFacts Entries.
Local Open Scope list_scope.

(** Both facts are read off the table of the 256 code units. *)
Lemma isWhite_lowerChar (c : ascii) : isWhite (lowerChar c) = isWhite c.
Proof. destruct c as [[] [] [] [] [] [] [] []]; reflexivity. Qed.

Lemma isCapital_lowerChar (c : ascii) : isCapital (lowerChar c) = false.
Proof. destruct c as [[] [] [] [] [] [] [] []]; reflexivity. Qed.

Lemma toLowerCase_idem (s : string) : toLowerCase (toLowerCase s) = toLowerCase s.
Proof.
  induction s as [|c s IH]; [reflexivity|]. cbn [toLowerCase]. rewrite IH. f_equal.
  unfold lowerChar at 1. now rewrite isCapital_lowerChar.
Qed.

Lemma toLowerCase_trimStart (s : string) :
  toLowerCase (trimStart s) = trimStart (toLowerCase s).
Proof.
  induction s as [|c s IH]; [reflexivity|]. cbn [trimStart toLowerCase].
  rewrite isWhite_lowerChar. destruct (isWhite c); [exact IH | reflexivity].
Qed.

Lemma toLowerCase_trimEnd (s : string) :
  toLowerCase (trimEnd s) = trimEnd (toLowerCase s).
Proof.
  induction s as [|c s IH]; [reflexivity|]. cbn [trimEnd toLowerCase].
  rewrite <- IH, isWhite_lowerChar.
  destruct (trimEnd s) as [|d t]; cbn [toLowerCase].
  - destruct (isWhite c); reflexivity.
  - reflexivity.
Qed.

Lemma toLowerCase_trim (s : string) : toLowerCase (trim s) = trim (toLowerCase s).
Proof. unfold trim. now rewrite toLowerCase_trimEnd, toLowerCase_trimStart. Qed.

Lemma trimEnd_idem (s : string) : trimEnd (trimEnd s) = trimEnd s.
Proof.
  induction s as [|c s IH]; [reflexivity|]. cbn [trimEnd].
  destruct (trimEnd s) as [|d t] eqn:E.
  - destruct (isWhite c) eqn:Hc; [reflexivity|]. cbn [trimEnd]. now rewrite Hc.
  - cbn [trimEnd]. cbn [trimEnd] in IH. rewrite IH. reflexivity.
Qed.

Lemma trimStart_unpadded (s : string) : unpadded (trimStart s).
Proof.
  induction s as [|c s IH]; [exact I|]. cbn [trimStart].
  destruct (isWhite c) eqn:Hc; [exact IH | exact Hc].
Qed.

Lemma trimStart_of_unpadded (s : string) : unpadded s -> trimStart s = s.
Proof. destruct s as [|c s]; [reflexivity|]. cbn. now intros ->. Qed.

Lemma trimEnd_unpadded (s : string) : unpadded s -> unpadded (trimEnd s).
Proof.
  destruct s as [|c s]; [intros _; exact I|]. cbn [unpadded trimEnd]. intros Hc.
  destruct (trimEnd s); [rewrite Hc|]; exact Hc.
Qed.

Lemma trim_idem (s : string) : trim (trim s) = trim s.
Proof.
  unfold trim.
  rewrite (trimStart_of_unpadded (trimEnd (trimStart s)))
    by apply trimEnd_unpadded, trimStart_unpadded.
  apply trimEnd_idem.
Qed.

Lemma normalise_idem (entry : string) : normalise (normalise entry) = normalise entry.
Proof.
  unfold normalise. now rewrite toLowerCase_trim, toLowerCase_idem, trim_idem.
Qed.

Lemma patternMatches_normalise (host entry : string) :
  patternMatches host (normalise entry) = patternMatches host entry.
Proof.
  unfold patternMatches. fold (normalise (normalise entry)). fold (normalise entry).
  now rewrite normalise_idem.
Qed.

Lemma matchPatterns_normalise (host : string) (allowed : list string) :
  matchPatterns host (map normalise allowed) = matchPatterns host allowed.
Proof.
  induction allowed as [|p rest IH]; [reflexivity|]. cbn [map matchPatterns].
  now rewrite patternMatches_normalise, IH.
Qed.

(** X12.  The decision depends on the entries only after they are lower-cased and
    trimmed: writing the entries in another letter case, or with white space
    around them, does not change it. *)
Theorem allowlist_entries_case_and_space_insensitive
    (parse : string -> Result string) (url : string) (allowed allowed' : list string) :
  map normalise allowed = map normalise allowed' ->
  isDomainAllowed parse url allowed = isDomainAllowed parse url allowed'.
Proof.
  intros Hn. unfold isDomainAllowed.
  assert (Hlen : length allowed = length allowed')
    by (rewrite <- (length_map normalise allowed), Hn; apply length_map).
  rewrite Hlen. destruct (length allowed' =? 0)%nat; [reflexivity|].
  destruct (parse url) as [host|t]; [|reflexivity].
  rewrite <- (matchPatterns_normalise _ allowed), Hn, matchPatterns_normalise.
  reflexivity.
Qed.

Lemma allowlist_entries_case_and_space_insensitive_witness :
  isDomainAllowed plainHostname "https://App.Example.com/x" [" *.EXAMPLE.com "; "Intra.Net"]
  = isDomainAllowed plainHostname "https://App.Example.com/x" ["*.example.com"; "intra.net"].
Proof.
  apply (allowlist_entries_case_and_space_insensitive plainHostname).
  reflexivity.
Defined.

(** X13.  Adding entries to a non-empty allowlist never blocks a URL it let
    through, and the order and repetition of the entries do not matter.  The
    empty allowlist is not the strictest but the most permissive one. *)
Theorem allowlist_grows_monotonically
    (parse : string -> Result string) (url : string) (allowed allowed' : list string) :
  allowed <> [] ->
  (forall entry, In entry allowed -> In entry allowed') ->
  (isDomainAllowed parse url allowed = Ok true ->
   isDomainAllowed parse url allowed' = Ok true) /\
  ((forall entry, In entry allowed' -> In entry allowed) ->
   isDomainAllowed parse url allowed' = isDomainAllowed parse url allowed) /\
  isDomainAllowed parse url [] = Ok true.
Proof.
  intros Hne Hsub.
  assert (Hne' : allowed' <> []).
  { destruct allowed as [|e l]; [congruence|]. intros ->. exact (Hsub e (or_introl eq_refl)). }
  assert (Hmono : forall l l' host,
             (forall e, In e l -> In e l') ->
             matchPatterns host l = true -> matchPatterns host l' = true).
  { intros l l' host Hs Hm. apply matchPatterns_spec in Hm as [e [Hin He]].
    apply matchPatterns_spec. exists e. split; [now apply Hs | exact He]. }
  rewrite !isDomainAllowed_nonempty by assumption.
  split; [|split; [|reflexivity]].
  - destruct (parse url) as [host|t]; [|discriminate].
    intros [= Hm]. f_equal. now apply (Hmono allowed).
  - intros Hsup. destruct (parse url) as [host|t]; [|reflexivity]. f_equal.
    destruct (matchPatterns (toLowerCase host) allowed) eqn:E.
    + now apply (Hmono allowed).
    + destruct (matchPatterns (toLowerCase host) allowed') eqn:E'; [|reflexivity].
      apply (Hmono allowed' allowed) in E'; [congruence | exact Hsup].
Qed.

Lemma allowlist_grows_monotonically_witness :
  isDomainAllowed plainHostname "https://app.example.com/" ["intra.net"; "*.example.com"]
  = Ok true.
Proof.
  refine (proj1 (allowlist_grows_monotonically plainHostname "https://app.example.com/"
                   ["*.example.com"] ["intra.net"; "*.example.com"] _ _) _).
  - discriminate.
  - intros entry [<- | []]. right. now left.
  - reflexivity.
Defined.

End AllowlistFacts.

(** ** The hash of a DOM snapshot *)

Module DomHashFacts.
Import Js DomHash.
Local Open Scope list_scope.

Lemma toInt32_mod (x : Z) : toInt32 x mod 2 ^ 32 = x mod 2 ^ 32.
Proof.
  unfold toInt32.
  rewrite Zminus_mod, Zmod_mod, <- Zminus_mod.
  f_equal. lia.
Qed.

Lemma hashStep_mod (h h' c : Z) :
  h mod 2 ^ 32 = h' mod 2 ^ 32 ->
  hashStep h c mod 2 ^ 32 = (h' * 31 + c) mod 2 ^ 32.
Proof.
  intros E. unfold hashStep. rewrite toInt32_mod, Z.shiftl_mul_pow2 by lia.
  rewrite Zplus_mod, Zminus_mod, toInt32_mod.
  rewrite (Zmult_mod h), E, <- (Zmult_mod h').
  rewrite <- Zminus_mod, <- Zplus_mod. f_equal. ring.
Qed.

Lemma fold_hashStep_mod (codes : list Z) :
  forall h h', h mod 2 ^ 32 = h' mod 2 ^ 32 ->
    fold_left hashStep codes h mod 2 ^ 32 =
    fold_left (fun a c => a * 31 + c) codes h' mod 2 ^ 32.
Proof.
  induction codes as [|c rest IH]; intros h h' E; [exact E|].
  cbn [fold_left]. apply IH. now apply hashStep_mod.
Qed.

Lemma hexValueOf_hexDigit (d : Z) : 0 <= d < 16 -> hexValueOf (hexDigit d) = Some d.
Proof.
  intros Hd.
  assert (d = 0 \/ d = 1 \/ d = 2 \/ d = 3 \/ d = 4 \/ d = 5 \/ d = 6 \/ d = 7 \/
          d = 8 \/ d = 9 \/ d = 10 \/ d = 11 \/ d = 12 \/ d = 13 \/ d = 14 \/ d = 15)
    as H by lia.
  repeat (destruct H as [-> | H]; [reflexivity|]). subst. reflexivity.
Qed.

Lemma parseHexFrom_hexDigits (fuel : nat) :
  forall n acc,
    0 <= n < 16 ^ Z.of_nat fuel ->
    parseHexFrom 0 (hexDigits fuel n acc) = parseHexFrom n acc.
Proof.
  induction fuel as [|fuel IH]; intros n acc Hn.
  - cbn [hexDigits]. change (16 ^ Z.of_nat 0) with 1 in Hn. f_equal. lia.
  - cbn [hexDigits]. destruct (n =? 0) eqn:E.
    + apply Z.eqb_eq in E. now subst n.
    + apply Z.eqb_neq in E.
      assert (Hq : 0 <= n / 16 < 16 ^ Z.of_nat fuel).
      { rewrite Nat2Z.inj_succ, Z.pow_succ_r in Hn by lia.
        split; [apply Z.div_pos; lia|]. apply Z.div_lt_upper_bound; lia. }
      rewrite (IH (n / 16) _ Hq). cbn [parseHexFrom].
      rewrite hexValueOf_hexDigit by (apply Z.mod_pos_bound; lia).
      f_equal. pose proof (Z.div_mod n 16 ltac:(lia)). lia.
Qed.

Lemma hexDigits_nonempty (fuel : nat) :
  forall n c acc, hexDigits fuel n (String c acc) <> "".
Proof.
  induction fuel as [|fuel IH]; intros n c acc; cbn [hexDigits]; [discriminate|].
  destruct (n =? 0); [discriminate | apply IH].
Qed.

Lemma parseHex_toString16 (n : Z) : 0 <= n < 2 ^ 32 -> parseHex (toString16 n) = Some n.
Proof.
  intros Hn. unfold toString16. destruct (n =? 0) eqn:E.
  - apply Z.eqb_eq in E. now subst n.
  - unfold parseHex.
    pose proof (parseHexFrom_hexDigits 8 n "" Hn) as Hp.
    assert (Hne : hexDigits 8 n "" <> "").
    { change (hexDigits 8 n "")
        with (if n =? 0 then ""
              else hexDigits 7 (n / 16) (String (hexDigit (n mod 16)) "")).
      rewrite E. apply hexDigits_nonempty. }
    destruct (hexDigits 8 n ""); [congruence | exact Hp].
Qed.

(** X14.  The hash is the polynomial in 31 whose coefficients are the code units
    of the text, reduced modulo [2^32] and written in base 16: reading the
    string back gives that number.  The hash of the empty text is ["0"], and
    the hash of a text continues the hash of any of its prefixes. *)
Theorem hashDomSnapshot_polynomial (html : string) :
  parseHex (hashDomSnapshot html) = Some (poly31 (charCodes html) mod 2 ^ 32) /\
  hashDomSnapshot EmptyString = "0" /\
  (forall a b : list Z,
     toUint32 (hashCodes (a ++ b)) = toUint32 (fold_left hashStep b (hashCodes a))) /\
  (forall codes : list Z,
     toUint32 (hashCodes codes) = poly31 codes mod 2 ^ 32).
Proof.
  assert (Hp : forall codes, toUint32 (hashCodes codes) = poly31 codes mod 2 ^ 32).
  { intros codes. unfold toUint32, hashCodes, poly31.
    now apply fold_hashStep_mod. }
  split; [|split; [reflexivity | split; [|exact Hp]]].
  - unfold hashDomSnapshot. rewrite Hp. apply parseHex_toString16.
    apply Z.mod_pos_bound. lia.
  - intros a b. unfold hashCodes. now rewrite fold_left_app.
Qed.

End DomHashFacts.

(** ** Archiving, run statistics and rollback by success rate *)

Module HistoryFacts.
Import Js JsFacts StepTypes Eff EffFacts FlowVersioning History VersioningFacts RollbackFacts.
Local Open Scope list_scope.

(** *** A sort by any total order puts a first element first *)

Section SortingBy.
  Context {A : Type}.
  Variable cmp : A -> A -> Q.
  Variable before : A -> A -> Prop.
  Hypothesis before_iff : forall a b, Qle_bool (cmp a b) 0 = true <-> before a b.
  Hypothesis before_total : forall a b, before a b \/ before b a.
  Hypothesis before_trans : forall a b c, before a b -> before b c -> before a c.

Lemma insertBy_any_In (x : A) (l : list A) (y : A) :
  In y (insertBy cmp x l) <-> y = x \/ In y l.
Proof.
  induction l as [|h t IH]; cbn [insertBy].
  - cbn. intuition.
  - destruct (Qle_bool (cmp x h) 0); cbn [In]; [intuition|].
    rewrite IH. intuition.
Qed.

Lemma sortBy_any_In (l : list A) (y : A) : In y (sortBy cmp l) <-> In y l.
Proof.
  induction l as [|x t IH]; [reflexivity|].
  cbn [sortBy fold_right]. fold (sortBy cmp t).
  rewrite insertBy_any_In, IH. cbn. intuition.
Qed.

Lemma before_refl (a : A) : before a a.
Proof. destruct (before_total a a); assumption. Qed.

Lemma insertBy_headFirst (x : A) (l : list A) :
  headFirst before l -> headFirst before (insertBy cmp x l).
Proof.
  destruct l as [|h t]; cbn [insertBy headFirst].
  - intros _ y [<- | []]. apply before_refl.
  - intros Hh. destruct (Qle_bool (cmp x h) 0) eqn:E.
    + apply before_iff in E.
      intros y [<- | Hy]; [apply before_refl|].
      eapply before_trans; [exact E | apply Hh, Hy].
    + assert (Hhx : before h x).
      { destruct (before_total h x) as [Hb | Hb]; [exact Hb|].
        apply before_iff in Hb. congruence. }
      intros y [<- | Hy]; [apply before_refl|].
      apply insertBy_any_In in Hy as [-> | Hy]; [exact Hhx|].
      apply Hh. now right.
Qed.

Lemma sortBy_headFirst (l : list A) : headFirst before (sortBy cmp l).
Proof.
  induction l as [|x t IH]; [exact I|].
  cbn [sortBy fold_right]. now apply insertBy_headFirst.
Qed.

End SortingBy.

Lemma byRate_outranks (a b : FlowVersion) :
  Qle_bool (byRate a b) 0 = true <-> outranks a b.
Proof.
  unfold byRate, outranks. rewrite Qle_bool_iff.
  destruct (Qeq_bool (rateOf b - rateOf a) 0) eqn:E.
  - apply Qeq_bool_iff in E.
    change 0%Q with (inject_Z 0). rewrite <- Zle_Qle. split.
    + intros Hv. right. split; [lra | lia].
    + intros [Hlt | [_ Hv]]; [lra | lia].
  - apply Qeq_bool_neq in E. split.
    + intros Hle. left. apply Qle_lteq in Hle as [Hlt | Heq]; [lra | contradiction].
    + intros [Hlt | [Heq _]]; [lra|]. exfalso. apply E. lra.
Qed.

Lemma outranks_total (a b : FlowVersion) : outranks a b \/ outranks b a.
Proof.
  unfold outranks.
  destruct (Q_dec (rateOf a) (rateOf b)) as [[Hlt | Hgt] | Heq].
  - right. now left.
  - left. now left.
  - destruct (Z_le_gt_dec (version b) (version a)).
    + left. right. split; [lra | assumption].
    + right. right. split; [lra | lia].
Qed.

Lemma outranks_trans (a b c : FlowVersion) :
  outranks a b -> outranks b c -> outranks a c.
Proof.
  unfold outranks. intros [H1 | [E1 V1]] [H2 | [E2 V2]].
  - left. lra.
  - left. lra.
  - left. lra.
  - right. split; [lra | lia].
Qed.

Lemma rollbackTargetByRate_first (history : list FlowVersion) (target : FlowVersion) :
  rollbackTargetByRate history = Some target ->
  In target history /\ forall v, In v history -> outranks target v.
Proof.
  unfold rollbackTargetByRate.
  pose proof (sortBy_headFirst byRate outranks byRate_outranks outranks_total
                outranks_trans history) as Hh.
  pose proof (sortBy_any_In byRate history) as Hin.
  destruct (sortBy byRate history) as [|t rest]; [discriminate|].
  intros [= ->]. split; [apply Hin; now left|].
  intros v Hv. apply Hh. now apply Hin.
Qed.

Lemma rollbackTargetByRate_none (history : list FlowVersion) :
  rollbackTargetByRate history = None <-> history = [].
Proof.
  unfold rollbackTargetByRate. pose proof (sortBy_any_In byRate history) as Hin.
  destruct (sortBy byRate history) as [|t rest] eqn:E.
  - split; [|reflexivity]. intros _. destruct history as [|h l]; [reflexivity|].
    exfalso. apply (Hin h). now left.
  - split; [discriminate|]. intros ->. discriminate.
Qed.

Lemma rollbackTarget_none (now : Z) (history : list FlowVersion) :
  rollbackTarget now history = None <-> history = [].
Proof.
  split.
  - intros Hn. destruct history as [|h l]; [reflexivity|].
    destruct (rollbackTarget_some now (h :: l) ltac:(discriminate)) as [t Ht].
    congruence.
  - intros ->. reflexivity.
Qed.

Lemma restore_returns (archiveTime : Z) (archiveFile : string) (d : FlowDir)
    (content : string) :
  files d !! archiveFile = Some content ->
  exists d' restored,
    restore archiveTime archiveFile d = (d', Ok true) /\
    files d' !! "script.ts" = Some restored /\
    (archiveFile <> archiveName (lastVersion (loadVersionHistory d) + 1) ->
     restored = content).
Proof.
  intros Hc. unfold restore, bind at 1.
  destruct (files d !! "script.ts") as [current|] eqn:Hcur.
  - rewrite (archiveCurrentScript_present archiveTime d current Hcur).
    unfold bind, copyFileSync, ret. cbn [files versions].
    destruct (decide (archiveName (lastVersion (loadVersionHistory d) + 1) = archiveFile))
      as [E | E].
    + rewrite E, lookup_insert_eq. eexists _, current.
      split; [reflexivity|]. split; [apply lookup_insert_eq|]. congruence.
    + rewrite lookup_insert_ne by exact E. rewrite Hc. eexists _, content.
      split; [reflexivity|]. split; [apply lookup_insert_eq | reflexivity].
  - rewrite (archiveCurrentScript_absent archiveTime d Hcur).
    unfold bind, copyFileSync, ret. rewrite Hc. eexists _, content.
    split; [reflexivity|]. split; [apply lookup_insert_eq | reflexivity].
Qed.


(** *** Archiving *)

(** X15.  Archiving the current script appends one entry to the history: its
    version is the last version plus one, its file [script.v<n>.ts] holds the
    current script, and it has no runs yet.  The script itself, the earlier
    entries and their archives stay as they are, and the history keeps its
    versions increasing.  The number returned is the version after the one
    archived.  Without a current script nothing is written and 1 is
    returned, whatever the history. *)
Theorem archiveCurrentScript_appends_version (now : Z) (d : FlowDir) :
  wellFormed (loadVersionHistory d) ->
  (files d !! "script.ts" = None -> archiveCurrentScript now d = (d, Ok 1)) /\
  (forall current,
     files d !! "script.ts" = Some current ->
     exists d' archived,
       archiveCurrentScript now d = (d', Ok (version archived + 1)) /\
       loadVersionHistory d' = loadVersionHistory d ++ [archived] /\
       version archived = lastVersion (loadVersionHistory d) + 1 /\
       scriptFile archived = archiveName (version archived) /\
       savedAt archived = now /\
       runCount archived = Some 0 /\ successRate archived = None /\
       files d' !! scriptFile archived = Some current /\
       files d' !! "script.ts" = Some current /\
       (forall v, In v (loadVersionHistory d) ->
          files d' !! scriptFile v = files d !! scriptFile v) /\
       wellFormed (loadVersionHistory d')).
Proof.
  intros Hwf. split; [apply archiveCurrentScript_absent|].
  intros current Hcur.
  rewrite (archiveCurrentScript_present now d current Hcur).
  eexists _, (archiveEntry now (loadVersionHistory d)).
  split; [reflexivity|]. cbn [files versions loadVersionHistory archiveEntry
                              version scriptFile savedAt runCount successRate].
  repeat split.
  - apply lookup_insert_eq.
  - rewrite lookup_insert_ne by apply archiveName_not_script. exact Hcur.
  - intros v Hv. destruct (wellFormedFrom_In _ 0 v Hwf Hv) as [_ [Hl Hn]].
    rewrite lookup_insert_ne; [reflexivity|].
    rewrite Hn. intros E. apply archiveName_inj in E. lia.
  - now apply archive_keeps_wellFormed.
Qed.

Lemma archiveCurrentScript_appends_version_witness :
  exists d' archived,
    archiveCurrentScript 50 exampleDir = (d', Ok 4) /\
    loadVersionHistory d' = [versionA; versionB; archived] /\
    version archived = 3 /\
    files d' !! "script.v3.ts" = Some "current".
Proof.
  assert (Hwf : wellFormed (loadVersionHistory exampleDir)).
  { cbn. repeat split; lia. }
  destruct (proj2 (archiveCurrentScript_appends_version 50 exampleDir Hwf)
              "current" eq_refl)
    as [d' [archived [Ha [Hh [Hv [Hs [_ [_ [_ [Hf _]]]]]]]]]].
  exists d', archived. rewrite Hv in Ha, Hs. rewrite Hs in Hf.
  repeat split; assumption.
Defined.

(** *** Run statistics *)

Lemma recorded_count (ok : bool) (v : FlowVersion) :
  countOf (recorded ok v) = countOf v + 1.
Proof. reflexivity. Qed.

Lemma recorded_rate (ok : bool) (v : FlowVersion) :
  rateOf (recorded ok v) =
  (inject_Z (round (rateOf v * inject_Z (countOf v)) + outcomeZ ok) /
   inject_Z (countOf v + 1))%Q.
Proof.
  unfold recorded, rateOf at 1, countOf. cbn [successRate].
  replace (match runCount v with Some n => n | None => 0 end + 1 - 1)
    with (match runCount v with Some n => n | None => 0 end) by lia.
  reflexivity.
Qed.

Lemma recorded_whole (ok : bool) (v : FlowVersion) (k : Z) :
  0 <= countOf v ->
  (rateOf v * inject_Z (countOf v) == inject_Z k)%Q ->
  (rateOf (recorded ok v) * inject_Z (countOf (recorded ok v))
   == inject_Z (k + outcomeZ ok))%Q.
Proof.
  intros Hc Hk. rewrite recorded_rate, recorded_count, (round_whole _ k Hk).
  field. intros E. pose proof (proj1 (inject_Z_injective _ 0) E). lia.
Qed.

Lemma recordedAll_whole (outcomes : list bool) :
  forall (v : FlowVersion) (k : Z),
    0 <= countOf v ->
    (rateOf v * inject_Z (countOf v) == inject_Z k)%Q ->
    let v' := fold_left (fun v ok => recorded ok v) outcomes v in
    countOf v' = countOf v + Z.of_nat (length outcomes) /\
    (rateOf v' * inject_Z (countOf v') == inject_Z (k + successes outcomes))%Q /\
    version v' = version v /\ scriptFile v' = scriptFile v /\ savedAt v' = savedAt v.
Proof.
  induction outcomes as [|ok rest IH]; intros v k Hc Hk.
  - cbn [fold_left length successes fold_right]. split; [lia|].
    split; [|repeat split]. rewrite Z.add_0_r. exact Hk.
  - cbn [fold_left].
    destruct (IH (recorded ok v) (k + outcomeZ ok)) as [H1 [H2 [H3 [H4 H5]]]].
    + rewrite recorded_count. lia.
    + now apply recorded_whole.
    + cbn zeta. split; [rewrite H1, recorded_count; cbn [length]; lia|].
      split; [|rewrite H3, H4, H5; repeat split].
      eapply Qeq_trans; [exact H2|].
      cbn [successes fold_right]. fold (successes rest).
      apply inject_Z_injective. lia.
Qed.

Lemma recordAll_snoc (outcomes : list bool) :
  forall (d : FlowDir) (earlier : list FlowVersion) (latest : FlowVersion),
    versions d = Some (earlier ++ [latest]) ->
    recordAll outcomes d =
    {| files := files d;
       versions := Some (earlier ++ [fold_left (fun v ok => recorded ok v) outcomes latest]) |}.
Proof.
  induction outcomes as [|ok rest IH]; intros d earlier latest Hv.
  - cbn. destruct d. cbn in *. now subst.
  - unfold recordAll. cbn [fold_left]. fold (recordAll rest (recordRunResult ok d)).
    rewrite (recordRunResult_snoc ok d earlier latest Hv).
    exact (IH {| files := files d; versions := Some (earlier ++ [recorded ok latest]) |}
              earlier (recorded ok latest) eq_refl).
Qed.

(** X16.  From a version that has no runs yet, recording the outcomes of [n >= 1]
    runs one after the other leaves the latest version with a run count of
    [n] and a success rate of the number of successful runs over [n]; the
    earlier versions and the files are not touched. *)
Theorem recordRunResult_counts_successes (d : FlowDir) (earlier : list FlowVersion)
    (latest : FlowVersion) (outcomes : list bool) :
  versions d = Some (earlier ++ [latest]) ->
  countOf latest = 0 ->
  outcomes <> [] ->
  exists updated rate,
    recordAll outcomes d =
      {| files := files d; versions := Some (earlier ++ [updated]) |} /\
    version updated = version latest /\
    scriptFile updated = scriptFile latest /\
    runCount updated = Some (Z.of_nat (length outcomes)) /\
    successRate updated = Some rate /\
    (rate == inject_Z (successes outcomes) / inject_Z (Z.of_nat (length outcomes)))%Q.
Proof.
  intros Hv Hc Hne.
  destruct outcomes as [|ok rest]; [congruence|].
  destruct (recordedAll_whole rest (recorded ok latest) (outcomeZ ok))
    as [H1 [H2 [H3 [H4 _]]]].
  { rewrite recorded_count. lia. }
  { replace (outcomeZ ok) with (0 + outcomeZ ok) at 2 by lia.
    apply (recorded_whole ok latest 0); [lia|]. rewrite Hc. ring. }
  rewrite recorded_count, Hc in H1. cbn zeta in *.
  set (updated := fold_left (fun v ok0 => recorded ok0 v) rest (recorded ok latest)) in *.
  assert (Hrun : runCount updated = Some (countOf updated) /\
                 successRate updated = Some (rateOf updated)).
  { subst updated. clear. revert ok latest.
    induction rest as [|o r IH]; intros ok latest; [split; reflexivity|].
    cbn [fold_left]. apply IH. }
  destruct Hrun as [Hr Hs].
  exists updated, (rateOf updated).
  split.
  { rewrite (recordAll_snoc (ok :: rest) d earlier latest Hv). reflexivity. }
  split; [exact H3|]. split; [exact H4|].
  split; [rewrite Hr, H1; cbn [length]; f_equal; lia|].
  split; [exact Hs|].
  assert (Hlen : countOf updated = Z.of_nat (length (ok :: rest)))
    by (rewrite H1; cbn [length]; lia).
  rewrite Hlen in H2.
  assert (Hnz : ~ (inject_Z (Z.of_nat (length (ok :: rest))) == 0)%Q).
  { intros E. pose proof (proj1 (inject_Z_injective _ 0) E) as E'. cbn [length] in E'. lia. }
  cbn [successes fold_right]. fold (successes rest).
  apply (Qmult_inj_r _ _ (inject_Z (Z.of_nat (length (ok :: rest))))); [exact Hnz|].
  rewrite H2. field. exact Hnz.
Qed.

Lemma recordRunResult_counts_successes_witness :
  exists updated rate,
    recordAll [true; false; true; true] freshDir =
      {| files := files freshDir; versions := Some ([] ++ [updated]) |} /\
    runCount updated = Some 4 /\
    successRate updated = Some rate /\ (rate == 3 # 4)%Q.
Proof.
  destruct (recordRunResult_counts_successes freshDir [] freshVersion
              [true; false; true; true] eq_refl eq_refl ltac:(discriminate))
    as [updated [rate [Hr [_ [_ [Hc [Hs Hq]]]]]]].
  exists updated, rate. repeat split; assumption.
Defined.

Lemma round_bounds (x : Q) (n : Z) :
  (0 <= x)%Q -> (x <= inject_Z n)%Q -> 0 <= round x <= n.
Proof.
  intros H0 Hn. unfold round. split.
  - change 0 with (Qfloor 0). apply Qfloor_resp_le. lra.
  - assert (Qfloor (x + (1 # 2)) < n + 1); [|lia].
    rewrite Zlt_Qlt. eapply Qle_lt_trans; [apply Qfloor_le|].
    rewrite inject_Z_plus. change (inject_Z 1) with 1%Q. lra.
Qed.

(** X17.  Recording a run keeps the success rate of the latest version between
    0 and 1 and makes its run count positive; with no recorded version
    nothing is written. *)
Theorem recordRunResult_keeps_rate_in_range (ok : bool) (d : FlowDir)
    (earlier : list FlowVersion) (latest : FlowVersion) :
  versions d = Some (earlier ++ [latest]) ->
  0 <= countOf latest ->
  (0 <= rateOf latest)%Q -> (rateOf latest <= 1)%Q ->
  (exists updated,
     recordRunResult ok d =
       {| files := files d; versions := Some (earlier ++ [updated]) |} /\
     (0 <= rateOf updated)%Q /\ (rateOf updated <= 1)%Q /\
     countOf updated = countOf latest + 1) /\
  (forall d0, loadVersionHistory d0 = [] -> recordRunResult ok d0 = d0).
Proof.
  intros Hv Hc H0 H1. split.
  - exists (recorded ok latest). split; [now apply recordRunResult_snoc|].
    rewrite recorded_rate, recorded_count.
    assert (Hx0 : (0 <= rateOf latest * inject_Z (countOf latest))%Q).
    { apply Qmult_le_0_compat; [exact H0|]. change 0%Q with (inject_Z 0).
      now rewrite <- Zle_Qle. }
    assert (Hx1 : (rateOf latest * inject_Z (countOf latest) <= inject_Z (countOf latest))%Q).
    { rewrite <- (Qmult_1_l (inject_Z (countOf latest))) at 2.
      apply Qmult_le_compat_r; [exact H1|]. change 0%Q with (inject_Z 0).
      now rewrite <- Zle_Qle. }
    pose proof (round_bounds _ _ Hx0 Hx1) as [Hr0 Hr1].
    set (r := round (rateOf latest * inject_Z (countOf latest))) in *.
    assert (Hpos : (0 < inject_Z (countOf latest + 1))%Q).
    { change 0%Q with (inject_Z 0). rewrite <- Zlt_Qlt. lia. }
    assert (Ho : 0 <= outcomeZ ok <= 1) by (destruct ok; cbn; lia).
    split; [|split; [|reflexivity]].
    + apply Qle_shift_div_l; [exact Hpos|]. rewrite Qmult_0_l.
      change 0%Q with (inject_Z 0). rewrite <- Zle_Qle. lia.
    + apply Qle_shift_div_r; [exact Hpos|]. rewrite Qmult_1_l.
      rewrite <- Zle_Qle. lia.
  - intros d0 Hd. unfold recordRunResult. now rewrite Hd.
Qed.

Lemma recordRunResult_keeps_rate_in_range_witness :
  exists updated,
    recordRunResult false exampleDir =
      {| files := files exampleDir; versions := Some ([versionA] ++ [updated]) |} /\
    (0 <= rateOf updated)%Q /\ (rateOf updated <= 1)%Q /\ countOf updated = 11.
Proof.
  destruct (recordRunResult_keeps_rate_in_range false exampleDir [versionA] versionB
              eq_refl) as [[updated [Hr [H0 [H1 Hc]]]] _].
  - cbn. lia.
  - cbn. discriminate.
  - cbn. discriminate.
  - exists updated. repeat split; assumption.
Defined.

(** *** Rollback by success rate *)

Lemma restore_keeps (archiveTime : Z) (archiveFile : string) (d d' : FlowDir) (b : bool) :
  wellFormed (loadVersionHistory d) ->
  restore archiveTime archiveFile d = (d', Ok b) ->
  forall v, In v (loadVersionHistory d) ->
    In v (loadVersionHistory d') /\
    files d' !! scriptFile v = files d !! scriptFile v.
Proof.
  intros Hwf Hr v Hv.
  destruct (wellFormedFrom_In _ 0 v Hwf Hv) as [_ [Hl Hn]].
  assert (Hk1 : scriptFile v <> "script.ts")
    by (rewrite Hn; apply archiveName_not_script).
  assert (Hk2 : scriptFile v <> archiveName (lastVersion (loadVersionHistory d) + 1)).
  { rewrite Hn. intros E. apply archiveName_inj in E. lia. }
  unfold restore, bind at 1 in Hr.
  destruct (files d !! "script.ts") as [current|] eqn:Hcur.
  - rewrite (archiveCurrentScript_present archiveTime d current Hcur) in Hr.
    unfold bind, copyFileSync, ret in Hr. cbn [files versions] in Hr.
    destruct (_ !! archiveFile); [|discriminate].
    injection Hr as <- _. cbn [files versions loadVersionHistory].
    split; [apply in_or_app; now left|].
    rewrite !lookup_insert_ne by congruence. reflexivity.
  - rewrite (archiveCurrentScript_absent archiveTime d Hcur) in Hr.
    unfold bind, copyFileSync, ret in Hr.
    destruct (files d !! archiveFile); [|discriminate].
    injection Hr as <- _. cbn [files versions].
    split; [exact Hv|]. rewrite lookup_insert_ne by congruence. reflexivity.
Qed.

(** X18.  The [rollback] that orders by success rate restores a version whose
    rate no other version exceeds and, among the versions of that rate, the
    one with the highest version number; versions without a recorded rate
    count as rate 0, so that with no rate recorded at all the latest version
    is restored.  The script that was active is archived first, and every
    version stays listed with its archive unchanged. *)
Theorem rollbackByRate_restores_highest_rate (archiveTime : Z) (d : FlowDir)
    (target : FlowVersion) (content : string) :
  wellFormed (loadVersionHistory d) ->
  rollbackTargetByRate (loadVersionHistory d) = Some target ->
  files d !! scriptFile target = Some content ->
  In target (loadVersionHistory d) /\
  (forall v, In v (loadVersionHistory d) ->
     (rateOf v <= rateOf target)%Q /\
     ((rateOf v == rateOf target)%Q -> version v <= version target)) /\
  ((forall v, In v (loadVersionHistory d) -> successRate v = None) ->
   version target = lastVersion (loadVersionHistory d)) /\
  exists d',
    rollbackByRate archiveTime d = (d', Ok true) /\
    files d' !! "script.ts" = Some content /\
    (forall v, In v (loadVersionHistory d) ->
       In v (loadVersionHistory d') /\
       files d' !! scriptFile v = files d !! scriptFile v) /\
    (forall current, files d !! "script.ts" = Some current ->
       files d' !! archiveName (lastVersion (loadVersionHistory d) + 1) = Some current).
Proof.
  intros Hwf Ht Hc.
  destruct (rollbackTargetByRate_first _ _ Ht) as [Hin Hfirst].
  split; [exact Hin|]. split; [|split].
  - intros v Hv. destruct (Hfirst v Hv) as [Hlt | [Heq Hver]].
    + split; [lra|]. intros E. lra.
    + split; [lra|]. intros _. exact Hver.
  - intros Hnone.
    assert (Hrate : forall v, In v (loadVersionHistory d) -> rateOf v = 0%Q).
    { intros v Hv. unfold rateOf. now rewrite (Hnone v Hv). }
    destruct (wellFormedFrom_In _ 0 target Hwf Hin) as [_ [Hle _]].
    assert (Hlast : exists l, In l (loadVersionHistory d) /\
                              version l = lastVersion (loadVersionHistory d)).
    { unfold lastVersion. destruct (last (loadVersionHistory d)) as [l|] eqn:El.
      - exists l. split; [|reflexivity].
        apply last_Some in El as [l' ->]. apply in_or_app. right. now left.
      - apply last_None in El. rewrite El in Hin. destruct Hin. }
    destruct Hlast as [l [Hl Hlv]].
    destruct (Hfirst l Hl) as [Hlt | [_ Hver]].
    + rewrite (Hrate l Hl), (Hrate target Hin) in Hlt. lra.
    + lia.
  - destruct (restore_returns archiveTime (scriptFile target) d content Hc)
      as [d' [restored [Hr [Hs Hsame]]]].
    destruct (wellFormedFrom_In _ 0 target Hwf Hin) as [_ [Hl Hn]].
    assert (restored = content) as ->.
    { apply Hsame. rewrite Hn. intros E. apply archiveName_inj in E. lia. }
    exists d'. split.
    { unfold rollbackByRate. rewrite Ht. unfold existsSync. rewrite Hc. exact Hr. }
    split; [exact Hs|].
    split; [exact (restore_keeps archiveTime (scriptFile target) d d' true Hwf Hr)|].
    intros current Hcur. unfold restore, bind at 1 in Hr.
    rewrite (archiveCurrentScript_present archiveTime d current Hcur) in Hr.
    unfold bind, copyFileSync, ret in Hr. cbn [files versions] in Hr.
    destruct (<[archiveName (lastVersion (loadVersionHistory d) + 1) := current]>
                (files d) !! scriptFile target); [|discriminate].
    injection Hr as <-. cbn [files].
    rewrite lookup_insert_ne by (apply not_eq_sym, archiveName_not_script).
    apply lookup_insert_eq.
Qed.

Lemma rollbackByRate_restores_highest_rate_witness :
  exists d',
    rollbackByRate 30 tiedDir = (d', Ok true) /\
    files d' !! "script.ts" = Some "second" /\
    files d' !! "script.v4.ts" = Some "current".
Proof.
  assert (Hwf : wellFormed (loadVersionHistory tiedDir)).
  { cbn. repeat split; lia. }
  destruct (rollbackByRate_restores_highest_rate 30 tiedDir
              {| version := 2; savedAt := 10; scriptFile := archiveName 2;
                 successRate := Some (1 # 2); runCount := Some 4 |}
              "second" Hwf eq_refl eq_refl)
    as [_ [_ [_ [d' [Hr [Hs [_ Harch]]]]]]].
  exists d'. split; [exact Hr|]. split; [exact Hs|].
  exact (Harch "current" eq_refl).
Defined.


End HistoryFacts.

(** ** Generating a script *)

Module GenerateFacts.
Import Js JsFacts StepTypes Eff EffFacts FlowVersioning Generate VersioningFacts RollbackFacts.

Lemma archiveName_not_schema (n : Z) : archiveName n <> "params.schema.json".
Proof. unfold archiveName. rewrite !append_cons, append_nil_l. discriminate. Qed.

Lemma archiveName_not_intent (n : Z) : archiveName n <> "flow-intent.json".
Proof. unfold archiveName. rewrite !append_cons, append_nil_l. discriminate. Qed.

(** What the three writes of [generate] after the archiving leave in a file
    that is none of theirs. *)
Lemma generate_writes (scriptCode : string) (schemaJson : option string)
    (intentJson : string) (d : FlowDir) :
  exists d',
    bind (writeFileSync "script.ts" scriptCode)
      (fun _ => bind (match schemaJson with
                      | Some json => writeFileSync "params.schema.json" json
                      | None => ret tt
                      end)
                  (fun _ d0 =>
                     if negb (existsSync "flow-intent.json" d0)
                     then writeFileSync "flow-intent.json" intentJson d0
                     else (d0, Ok tt))) d = (d', Ok tt) /\
    versions d' = versions d /\
    files d' !! "script.ts" = Some scriptCode /\
    (forall existing, files d !! "flow-intent.json" = Some existing ->
       files d' !! "flow-intent.json" = Some existing) /\
    (files d !! "flow-intent.json" = None ->
       files d' !! "flow-intent.json" = Some intentJson) /\
    (forall f, f <> "script.ts" -> f <> "params.schema.json" ->
       f <> "flow-intent.json" -> files d' !! f = files d !! f).
Proof.
  unfold bind, writeFileSync, lift, ret, existsSync.
  destruct schemaJson as [json|]; cbn [files versions].
  - rewrite !lookup_insert_ne by discriminate.
    destruct (files d !! "flow-intent.json") as [existing|] eqn:Hi; cbn [negb].
    + eexists. split; [reflexivity|]. cbn [files versions]. split; [reflexivity|].
      split; [rewrite lookup_insert_ne by discriminate; apply lookup_insert_eq|].
      split; [intros ? [= <-]; now rewrite !lookup_insert_ne by discriminate|].
      split; [discriminate|].
      intros f H1 H2 H3. now rewrite !lookup_insert_ne by congruence.
    + eexists. split; [reflexivity|]. cbn [files versions]. split; [reflexivity|].
      split; [rewrite !lookup_insert_ne by discriminate; apply lookup_insert_eq|].
      split; [discriminate|]. split; [intros _; apply lookup_insert_eq|].
      intros f H1 H2 H3. now rewrite !lookup_insert_ne by congruence.
  - rewrite !lookup_insert_ne by discriminate.
    destruct (files d !! "flow-intent.json") as [existing|] eqn:Hi; cbn [negb].
    + eexists. split; [reflexivity|]. cbn [files versions]. split; [reflexivity|].
      split; [apply lookup_insert_eq|].
      split; [intros ? [= <-]; now rewrite !lookup_insert_ne by discriminate|].
      split; [discriminate|].
      intros f H1 H2 H3. now rewrite !lookup_insert_ne by congruence.
    + eexists. split; [reflexivity|]. cbn [files versions]. split; [reflexivity|].
      split; [rewrite !lookup_insert_ne by discriminate; apply lookup_insert_eq|].
      split; [discriminate|]. split; [intros _; apply lookup_insert_eq|].
      intros f H1 H2 H3. now rewrite !lookup_insert_ne by congruence.
Qed.

(** X20.  Generating a script never loses the one it replaces: the script that
    was current becomes the newest version of the history, stored under its
    archive name, before the new text is written as [script.ts]; without a
    current script the history stays as it is.  The earlier versions and
    their archives are not touched, an intent file that exists is never
    overwritten, and the history keeps its versions increasing. *)
Theorem generate_keeps_previous_script (now : Z) (scriptCode : string)
    (schemaJson : option string) (intentJson : string) (d : FlowDir) :
  wellFormed (loadVersionHistory d) ->
  exists d',
    generate now scriptCode schemaJson intentJson d = (d', Ok tt) /\
    files d' !! "script.ts" = Some scriptCode /\
    (forall current, files d !! "script.ts" = Some current ->
       exists archived,
         loadVersionHistory d' = (loadVersionHistory d ++ [archived])%list /\
         version archived = lastVersion (loadVersionHistory d) + 1 /\
         scriptFile archived = archiveName (version archived) /\
         runCount archived = Some 0 /\
         files d' !! scriptFile archived = Some current) /\
    (files d !! "script.ts" = None ->
       loadVersionHistory d' = loadVersionHistory d) /\
    (forall v, In v (loadVersionHistory d) ->
       files d' !! scriptFile v = files d !! scriptFile v) /\
    (forall existing, files d !! "flow-intent.json" = Some existing ->
       files d' !! "flow-intent.json" = Some existing) /\
    wellFormed (loadVersionHistory d').
Proof.
  intros Hwf. unfold generate.
  assert (Hold : forall v, In v (loadVersionHistory d) ->
            scriptFile v <> "script.ts" /\ scriptFile v <> "params.schema.json" /\
            scriptFile v <> "flow-intent.json" /\
            scriptFile v <> archiveName (lastVersion (loadVersionHistory d) + 1)).
  { intros v Hv. destruct (wellFormedFrom_In _ 0 v Hwf Hv) as [_ [Hl Hn]].
    rewrite Hn. split; [apply archiveName_not_script|].
    split; [apply archiveName_not_schema|]. split; [apply archiveName_not_intent|].
    intros E. apply archiveName_inj in E. lia. }
  destruct (files d !! "script.ts") as [current|] eqn:Hcur.
  - rewrite (bind_Ok _ _ _ _ _ (archiveCurrentScript_present now d current Hcur)).
    set (d1 := {| files := <[archiveName (lastVersion (loadVersionHistory d) + 1) := current]> (files d);
                  versions := Some (loadVersionHistory d ++ [archiveEntry now (loadVersionHistory d)])%list |}).
    destruct (generate_writes scriptCode schemaJson intentJson d1)
      as [d' [Hg [Hv [Hs [Hkeep [_ Hother]]]]]].
    exists d'. split; [exact Hg|]. split; [exact Hs|].
    assert (Hh : loadVersionHistory d' =
                 (loadVersionHistory d ++ [archiveEntry now (loadVersionHistory d)])%list).
    { unfold loadVersionHistory at 1. rewrite Hv. reflexivity. }
    split.
    { intros c [= <-]. exists (archiveEntry now (loadVersionHistory d)).
      split; [exact Hh|]. split; [reflexivity|]. split; [reflexivity|].
      split; [reflexivity|]. cbn [archiveEntry scriptFile].
      rewrite Hother by (first [apply archiveName_not_script | apply archiveName_not_schema
                               | apply archiveName_not_intent]).
      apply lookup_insert_eq. }
    split; [discriminate|]. split.
    { intros v Hin. destruct (Hold v Hin) as [H1 [H2 [H3 H4]]].
      rewrite Hother by assumption. cbn [d1 files].
      now rewrite lookup_insert_ne by congruence. }
    split.
    { intros existing He. apply Hkeep. cbn [d1 files].
      rewrite lookup_insert_ne by apply archiveName_not_intent. exact He. }
    rewrite Hh. now apply archive_keeps_wellFormed.
  - rewrite (bind_Ok _ _ _ _ _ (archiveCurrentScript_absent now d Hcur)).
    destruct (generate_writes scriptCode schemaJson intentJson d)
      as [d' [Hg [Hv [Hs [Hkeep [_ Hother]]]]]].
    exists d'. split; [exact Hg|]. split; [exact Hs|].
    assert (Hh : loadVersionHistory d' = loadVersionHistory d).
    { unfold loadVersionHistory. now rewrite Hv. }
    split; [discriminate|]. split; [intros _; exact Hh|]. split.
    { intros v Hin. destruct (Hold v Hin) as [H1 [H2 [H3 H4]]].
      now apply Hother. }
    split; [exact Hkeep|]. now rewrite Hh.
Qed.

Lemma generate_keeps_previous_script_witness :
  exists d',
    generate 50 "new script" None "{}" exampleDir = (d', Ok tt) /\
    files d' !! "script.ts" = Some "new script" /\
    files d' !! "script.v3.ts" = Some "current".
Proof.
  assert (Hwf : wellFormed (loadVersionHistory exampleDir)).
  { cbn. repeat split; lia. }
  destruct (generate_keeps_previous_script 50 "new script" None "{}" exampleDir Hwf)
    as [d' [Hg [Hs [Harch _]]]].
  destruct (Harch "current" eq_refl) as [archived [_ [Hv [Hn [_ Hf]]]]].
  exists d'. split; [exact Hg|]. split; [exact Hs|].
  rewrite Hn, Hv in Hf. exact Hf.
Defined.

End GenerateFacts.

(** ** Placeholders *)

Module PlaceholderFacts.
Import Js JsFacts ParamInjector Placeholders.

Lemma wordRun_spec (s : string) :
  forall w r, wordRun s = (w, r) ->
    s = w ++ r /\ allWord w = true /\
    match r with EmptyString => True | String c _ => isWordChar c = false end.
Proof.
  induction s as [|c s IH]; intros w r E; cbn [wordRun] in E.
  - injection E as <- <-. repeat split.
  - destruct (isWordChar c) eqn:Hc.
    + destruct (wordRun s) as [w' r'] eqn:Ew. injection E as <- <-.
      destruct (IH w' r' eq_refl) as [Hs [Hw Hr]].
      split; [rewrite append_cons; now f_equal|]. split; [|exact Hr].
      cbn [allWord]. now rewrite Hc, Hw.
    + injection E as <- <-. split; [reflexivity|]. split; [reflexivity | exact Hc].
Qed.

Lemma wordRun_key (k rest : string) :
  allWord k = true ->
  match rest with EmptyString => True | String c _ => isWordChar c = false end ->
  wordRun (k ++ rest) = (k, rest).
Proof.
  intros Hk Hr. induction k as [|c k IH].
  - rewrite append_nil_l. destruct rest as [|c r]; [reflexivity|].
    cbn [wordRun]. now rewrite Hr.
  - cbn [allWord] in Hk. apply andb_true_iff in Hk as [Hc Hk].
    rewrite append_cons. cbn [wordRun]. rewrite Hc, (IH Hk). reflexivity.
Qed.

Lemma slice_append (p rest : string) : slice (String.length p) (p ++ rest) = rest.
Proof.
  induction p as [|c p IH]; [now rewrite append_nil_l|].
  rewrite append_cons. exact IH.
Qed.

Lemma placeholderAt_placeholder (k rest : string) :
  isKey k ->
  placeholderAt (placeholder k ++ rest) = Some (k, (String.length k + 4)%nat).
Proof.
  intros [Hne Hk]. unfold placeholderAt, placeholder.
  rewrite !append_assoc.
  assert (Hs : startsWith ("{{" ++ k ++ "}}" ++ rest) "{{" = true)
    by (apply startsWith_spec; eauto).
  rewrite Hs. change (slice 2 ("{{" ++ k ++ "}}" ++ rest)) with (k ++ "}}" ++ rest).
  rewrite (wordRun_key k ("}}" ++ rest) Hk eq_refl).
  destruct k as [|c k]; [congruence|]. reflexivity.
Qed.

Lemma placeholderAt_spec (s k : string) (len : nat) :
  placeholderAt s = Some (k, len) ->
  isKey k /\ len = (String.length k + 4)%nat /\
  exists rest, s = placeholder k ++ rest.
Proof.
  unfold placeholderAt. destruct (startsWith s "{{") eqn:Hs; [|discriminate].
  apply startsWith_spec in Hs as [t ->].
  change (slice 2 ("{{" ++ t)) with t.
  destruct (wordRun t) as [w r] eqn:Ew.
  destruct (wordRun_spec t w r Ew) as [-> [Hw _]].
  destruct w as [|c w]; [discriminate|].
  destruct (startsWith r "}}") eqn:Hr; [|discriminate].
  intros [= <- <-]. apply startsWith_spec in Hr as [rest ->].
  split; [split; [discriminate | exact Hw]|]. split; [reflexivity|].
  exists rest. unfold placeholder. now rewrite !append_assoc.
Qed.

Lemma inherited_None (k : string) :
  inherited k = None <-> ~ In k (map fst objectPrototype).
Proof.
  unfold inherited.
  destruct (List.find (fun p => String.eqb (fst p) k) objectPrototype) as [p|] eqn:E.
  - apply find_some in E as [Hin Hk]. apply String.eqb_eq in Hk.
    split; [discriminate|]. intros Hn. exfalso. apply Hn.
    rewrite <- Hk. now apply in_map.
  - split; [|reflexivity]. intros _ Hin.
    apply in_map_iff in Hin as [p [Hp Hin]].
    pose proof (find_none _ _ E p Hin) as Hf. cbn in Hf.
    rewrite Hp, String.eqb_refl in Hf. discriminate.
Qed.

Section Scanning.
Variable params : gmap string string.

Lemma injectFrom_skip (p rest : string) :
  injectFrom (String.length p) (p ++ rest) params = injectFrom 0 rest params.
Proof.
  induction p as [|c p IH]; [now rewrite append_nil_l|].
  rewrite append_cons. cbn [String.length injectFrom]. exact IH.
Qed.

Lemma matchesFrom_skip (p rest : string) :
  matchesFrom (String.length p) (p ++ rest) = matchesFrom 0 rest.
Proof.
  induction p as [|c p IH]; [now rewrite append_nil_l|].
  rewrite append_cons. cbn [String.length matchesFrom]. exact IH.
Qed.

Lemma placeholder_cons (k : string) : placeholder k = String "{" (afterBrace k).
Proof. reflexivity. Qed.

Lemma length_afterBrace (k : string) :
  String.length (afterBrace k) = (String.length k + 4 - 1)%nat.
Proof.
  unfold afterBrace. rewrite append_cons, append_nil_l. cbn [String.length].
  rewrite length_append. cbn [String.length]. lia.
Qed.

Lemma injectParams_placeholder (k rest : string) :
  isKey k ->
  injectParams (placeholder k ++ rest) params =
  match getProperty params k with
  | Some v => v
  | None => placeholder k
  end ++ injectParams rest params.
Proof.
  intros Hk. unfold injectParams.
  pose proof (placeholderAt_placeholder k rest Hk) as Hp.
  rewrite placeholder_cons, append_cons in *. cbn [injectFrom]. rewrite Hp.
  rewrite <- length_afterBrace, injectFrom_skip. reflexivity.
Qed.

Lemma matchesFrom_placeholder (k rest : string) :
  isKey k ->
  matchesFrom 0 (placeholder k ++ rest) = k :: matchesFrom 0 rest.
Proof.
  intros Hk.
  pose proof (placeholderAt_placeholder k rest Hk) as Hp.
  rewrite placeholder_cons, append_cons in *. cbn [matchesFrom]. rewrite Hp.
  rewrite <- length_afterBrace, matchesFrom_skip. reflexivity.
Qed.

Lemma injectParams_unmatched (n : nat) :
  forall template,
    (String.length template <= n)%nat ->
    (forall k, In k (matchesFrom 0 template) -> getProperty params k = None) ->
    injectParams template params = template.
Proof.
  induction n as [|n IH]; intros template Hlen Hnone.
  - destruct template; [reflexivity | cbn in Hlen; lia].
  - destruct template as [|c rest]; [reflexivity|].
    destruct (placeholderAt (String c rest)) as [[k len]|] eqn:Hp.
    + destruct (placeholderAt_spec _ _ _ Hp) as [Hk [-> [tail Ht]]].
      rewrite Ht in *. rewrite (injectParams_placeholder k tail Hk).
      rewrite (matchesFrom_placeholder k tail Hk) in Hnone.
      rewrite (Hnone k (or_introl eq_refl)). f_equal.
      apply IH; [|intros k' Hk'; apply Hnone; now right].
      rewrite length_append in Hlen. unfold placeholder in Hlen.
      cbn [String.length] in Hlen. rewrite append_cons in Hlen.
      cbn [String.length] in Hlen. lia.
    + unfold injectParams. cbn [injectFrom]. rewrite Hp. f_equal.
      apply (IH rest); [cbn [String.length] in Hlen; lia|].
      intros k Hk. apply Hnone. cbn [matchesFrom]. now rewrite Hp.
Qed.

End Scanning.

Lemma uniqueFrom_In (keys : list string) :
  forall seen k,
    In k (uniqueFrom seen keys) <-> In k keys /\ ~ In k seen.
Proof.
  induction keys as [|x rest IH]; intros seen k; cbn [uniqueFrom].
  - cbn. tauto.
  - destruct (existsb (String.eqb x) seen) eqn:E.
    + apply existsb_exists in E as [y [Hy Exy]]. apply String.eqb_eq in Exy. subst y.
      rewrite IH. cbn [In]. split.
      * intros [H1 H2]. auto.
      * intros [[<- | H1] H2]; [contradiction | auto].
    + assert (Hx : ~ In x seen).
      { intros Hx. assert (existsb (String.eqb x) seen = true); [|congruence].
        apply existsb_exists. exists x. split; [exact Hx | apply String.eqb_refl]. }
      cbn [In]. rewrite IH. cbn [In]. split.
      * intros [<- | [H1 H2]]; [auto|]. split; [auto | tauto].
      * intros [[<- | H1] H2]; [now left|].
        destruct (String.eqb_spec x k) as [-> | Hne]; [now left|].
        right. split; [exact H1|]. intros [E' | H3]; [congruence | contradiction].
Qed.

Lemma uniqueFrom_NoDup (keys : list string) :
  forall seen, NoDup (uniqueFrom seen keys).
Proof.
  induction keys as [|x rest IH]; intros seen; cbn [uniqueFrom]; [constructor|].
  destruct (existsb (String.eqb x) seen); [apply IH|].
  apply NoDup_cons_2; [|apply IH].
  rewrite list_elem_of_In, uniqueFrom_In. cbn [In]. tauto.
Qed.

Lemma matchesFrom_keys (n : nat) :
  forall template k,
    (String.length template <= n)%nat ->
    In k (matchesFrom 0 template) ->
    isKey k /\ includes template (placeholder k) = true.
Proof.
  induction n as [|n IH]; intros template k Hlen Hin.
  - destruct template; [destruct Hin | cbn in Hlen; lia].
  - destruct template as [|c rest]; [destruct Hin|].
    destruct (placeholderAt (String c rest)) as [[k0 len]|] eqn:Hp.
    + destruct (placeholderAt_spec _ _ _ Hp) as [Hk [-> [tail Ht]]].
      rewrite Ht in *. rewrite (matchesFrom_placeholder k0 tail Hk) in Hin.
      destruct Hin as [<- | Hin].
      * split; [exact Hk|]. apply includes_spec. exists "", tail. reflexivity.
      * destruct (IH tail k) as [Hk' Hi]; [|exact Hin|].
        { rewrite length_append in Hlen. unfold placeholder in Hlen.
          cbn [String.length] in Hlen. rewrite append_cons in Hlen.
          cbn [String.length] in Hlen. lia. }
        split; [exact Hk'|]. apply includes_spec in Hi as [a [b ->]].
        apply includes_spec. exists (placeholder k0 ++ a), b.
        now rewrite !append_assoc.
    + cbn [matchesFrom] in Hin. rewrite Hp in Hin.
      destruct (IH rest k) as [Hk' Hi]; [cbn [String.length] in Hlen; lia | exact Hin|].
      split; [exact Hk'|]. apply includes_spec in Hi as [a [b ->]].
      apply includes_spec. exists (String c a), b. reflexivity.
Qed.



(** *** Every placeholder of the template is found *)

Lemma isWordChar_brace : isWordChar "{" = false.
Proof. reflexivity. Qed.

(** A placeholder cannot begin inside a word and its closing braces. *)
Lemma behind_word (w : string) :
  allWord w = true ->
  forall a tail x,
    w ++ String "}" (String "}" tail) = a ++ String "{" (String "{" x) ->
    exists a', tail = a' ++ String "{" (String "{" x).
Proof.
  intros Hw. induction w as [|e w IH]; intros a tail x E.
  - rewrite append_nil_l in E.
    destruct a as [|c1 a]; [rewrite append_nil_l in E; discriminate|].
    rewrite append_cons in E. injection E as _ E.
    destruct a as [|c2 a]; [rewrite append_nil_l in E; discriminate|].
    rewrite append_cons in E. injection E as _ E.
    now exists a.
  - cbn [allWord] in Hw. apply andb_true_iff in Hw as [He Hw].
    rewrite append_cons in E.
    destruct a as [|c1 a].
    + rewrite append_nil_l in E. injection E as -> _.
      rewrite isWordChar_brace in He. discriminate.
    + rewrite append_cons in E. injection E as _ E. now apply (IH Hw a tail x).
Qed.

Lemma placeholder_append (k rest : string) :
  placeholder k ++ rest =
  String "{" (String "{" (k ++ String "}" (String "}" rest))).
Proof.
  unfold placeholder. rewrite !append_cons, append_nil_l.
  now rewrite append_assoc.
Qed.

Lemma behind_placeholder (k0 tail a x : string) (c : ascii) :
  isKey k0 ->
  placeholder k0 ++ tail = String c a ++ String "{" (String "{" x) ->
  exists a', tail = a' ++ String "{" (String "{" x).
Proof.
  intros [Hne Hw] E. rewrite placeholder_append, append_cons in E.
  injection E as _ E.
  destruct a as [|c1 a].
  - rewrite append_nil_l in E. injection E as E.
    destruct k0 as [|e k0]; [congruence|].
    rewrite append_cons in E. injection E as -> _.
    cbn [allWord] in Hw. rewrite isWordChar_brace in Hw. discriminate.
  - rewrite append_cons in E. injection E as _ E.
    exact (behind_word k0 Hw a tail x E).
Qed.

Lemma matchesFrom_complete (n : nat) :
  forall template a b k,
    (String.length template <= n)%nat ->
    isKey k ->
    template = a ++ placeholder k ++ b ->
    In k (matchesFrom 0 template).
Proof.
  induction n as [|n IH]; intros template a b k Hlen Hk E.
  - destruct template; [|cbn in Hlen; lia].
    destruct a; [|rewrite append_cons in E; discriminate].
    rewrite append_nil_l in E. unfold placeholder in E.
    rewrite !append_cons in E. discriminate.
  - destruct a as [|c a].
    + rewrite append_nil_l in E. subst template.
      rewrite (matchesFrom_placeholder k b Hk). now left.
    + rewrite append_cons in E. subst template.
      destruct (placeholderAt (String c (a ++ placeholder k ++ b)))
        as [[k0 len]|] eqn:Hp.
      * destruct (placeholderAt_spec _ _ _ Hp) as [Hk0 [-> [tail Ht]]].
        rewrite Ht. rewrite (matchesFrom_placeholder k0 tail Hk0). right.
        assert (Hsplit : exists a', tail = a' ++ placeholder k ++ b).
        { rewrite placeholder_append in *.
          apply (behind_placeholder k0 tail a _ c Hk0).
          now rewrite <- Ht, append_cons. }
        destruct Hsplit as [a' Ha'].
        apply (IH tail a' b k); [|exact Hk | exact Ha'].
        assert (Hl : String.length (String c (a ++ placeholder k ++ b)) =
                     String.length (placeholder k0 ++ tail)) by now rewrite Ht.
        rewrite length_append in Hl. unfold placeholder at 2 in Hl.
        rewrite !append_cons in Hl. cbn [String.length] in Hl, Hlen. lia.
      * cbn [matchesFrom]. rewrite Hp.
        apply (IH (a ++ placeholder k ++ b) a b k); [|exact Hk | reflexivity].
        cbn [String.length] in Hlen. lia.
Qed.

(** *** Each key once, in the order of first appearance *)

Lemma uniqueFrom_seen (keys : list string) :
  forall seen seen',
    (forall y, In y seen <-> In y seen') ->
    uniqueFrom seen keys = uniqueFrom seen' keys.
Proof.
  induction keys as [|x rest IH]; intros seen seen' Hs; [reflexivity|].
  cbn [uniqueFrom].
  assert (E : existsb (String.eqb x) seen = existsb (String.eqb x) seen').
  { apply eq_true_iff_eq. rewrite !existsb_exists.
    split; intros [y [Hy Exy]]; exists y; (split; [now apply Hs | exact Exy]). }
  rewrite E. destruct (existsb (String.eqb x) seen'); [now apply IH|].
  f_equal. apply IH. intros y. cbn [In]. now rewrite Hs.
Qed.

Lemma filter_other (k : string) (l : list string) :
  ~ In k l -> List.filter (fun x => negb (String.eqb x k)) l = l.
Proof.
  induction l as [|x l IH]; intros Hk; [reflexivity|]. cbn [List.filter].
  destruct (String.eqb_spec x k) as [-> | Hne]; [exfalso; apply Hk; now left|].
  cbn [negb]. f_equal. apply IH. intros H. apply Hk. now right.
Qed.

Lemma uniqueFrom_cons (keys : list string) :
  forall seen k,
    uniqueFrom (k :: seen) keys =
    List.filter (fun x => negb (String.eqb x k)) (uniqueFrom seen keys).
Proof.
  induction keys as [|x rest IH]; intros seen k; [reflexivity|].
  cbn [uniqueFrom existsb].
  destruct (String.eqb_spec x k) as [-> | Hne].
  - cbn [orb]. rewrite IH.
    destruct (existsb (String.eqb k) seen); [reflexivity|].
    cbn [List.filter]. rewrite String.eqb_refl. cbn [negb].
    rewrite <- IH. symmetry. apply filter_other.
    rewrite uniqueFrom_In. cbn [In]. tauto.
  - cbn [orb]. destruct (existsb (String.eqb x) seen); [apply IH|].
    cbn [List.filter]. destruct (String.eqb_spec x k) as [E | _]; [contradiction|].
    cbn [negb]. f_equal. rewrite <- IH.
    apply uniqueFrom_seen. intros y. cbn [In]. tauto.
Qed.


End PlaceholderFacts.

(** ** Masking *)

Module MaskingFacts.
Import Js JsFacts Masking.

(** The entries of the masked object: those of [params] with their values
    masked, without an entry named [__proto__]. *)
Lemma maskSensitiveParams_lookup (params : gmap string string)
    (schema : option ParamsSchema) (key : string) :
  maskSensitiveParams params schema !! key =
  if String.eqb key "__proto__" then None
  else maskedValue schema key <$> params !! key.
Proof.
  unfold maskSensitiveParams. revert key.
  apply (map_fold_weak_ind
           (fun (r m : gmap string string) => forall key,
              r !! key = if String.eqb key "__proto__" then None
                         else maskedValue schema key <$> m !! key)).
  - intros key. rewrite !lookup_empty. now destruct (String.eqb key "__proto__").
  - intros i x m r Hi IH key. rewrite setProperty_lookup.
    destruct (String.eqb_spec key i) as [-> | Hne]; cbn [andb].
    + rewrite (IH i). destruct (String.eqb_spec i "__proto__") as [-> | Hp].
      * cbn. reflexivity.
      * cbn [andb negb]. now rewrite lookup_insert_eq.
    + rewrite (IH key). now rewrite lookup_insert_ne.
Qed.


End MaskingFacts.

(** ** Candidates of a SelectorSet *)

Module SelectorFacts.
Import Js StepTypes SelectorEngine.
Local Open Scope list_scope.

(** X24.  A SelectorSet yields at most five candidates and never an empty one: a
    strategy that is absent or the empty string is passed over.  Without any
    candidate the best selector is [body]; otherwise it is the first
    candidate; it is never empty.  The match index of the set plays no part. *)
Theorem prioritizedSelectors_candidates (selectors : SelectorSet) :
  (length (prioritizedSelectors selectors) <= 5)%nat /\
  Forall (fun c => c <> EmptyString) (prioritizedSelectors selectors) /\
  (prioritizedSelectors selectors = [] <->
   truthy (testId selectors) = false /\ truthy (aria selectors) = false /\
   truthy (text selectors) = false /\ truthy (css selectors) = false /\
   truthy (xpath selectors) = false) /\
  bestSelector selectors = hd "body" (prioritizedSelectors selectors) /\
  bestSelector selectors <> EmptyString /\
  (forall n,
     prioritizedSelectors
       {| testId := testId selectors; aria := aria selectors; css := css selectors;
          text := text selectors; xpath := xpath selectors; nthMatch := n |}
     = prioritizedSelectors selectors).
Proof.
  destruct selectors as [[[|? ?]|] [[|? ?]|] [[|? ?]|] [[|? ?]|] [[|? ?]|] n].
  all: cbn.
  all: split; [lia|].
  all: split; [repeat constructor; discriminate|].
  all: split; [split; [intros E; try discriminate E; repeat split
                      | intros [H1 [H2 [H3 [H4 H5]]]]; try discriminate; reflexivity]|].
  all: split; [reflexivity|].
  all: split; [discriminate | reflexivity].
Qed.

End SelectorFacts.

(** ** Screenshot names *)

Module ScreenshotFacts.
Import Js JsFacts ParamInjector Screenshot.

Lemma isSafeChar_underscore : isSafeChar "_" = true.
Proof. reflexivity. Qed.

Lemma allSafe_safeLabel (label : string) : allSafe (safeLabel label) = true.
Proof.
  induction label as [|c rest IH]; [reflexivity|]. cbn [safeLabel allSafe].
  rewrite IH, andb_true_r. destruct (isSafeChar c) eqn:E; [exact E | reflexivity].
Qed.

Lemma safeLabel_of_safe (s : string) : allSafe s = true -> safeLabel s = s.
Proof.
  induction s as [|c rest IH]; [reflexivity|]. cbn [safeLabel allSafe].
  intros H. apply andb_true_iff in H as [Hc Hr]. now rewrite Hc, (IH Hr).
Qed.

Lemma allSafe_append (a b : string) :
  allSafe (a ++ b) = allSafe a && allSafe b.
Proof.
  induction a as [|c a IH]; [now rewrite append_nil_l|].
  rewrite append_cons. cbn [allSafe]. now rewrite IH, andb_assoc.
Qed.

Lemma allSafe_no_unsafe (s : string) (c : ascii) (a b : string) :
  allSafe s = true -> s = a ++ String c b -> isSafeChar c = true.
Proof.
  intros Hs ->. rewrite allSafe_append in Hs. cbn [allSafe] in Hs.
  apply andb_true_iff in Hs as [_ Hs]. now apply andb_true_iff in Hs as [Hc _].
Qed.

Lemma allDigits_allSafe (s : string) : allDigits s = true -> allSafe s = true.
Proof.
  induction s as [|c rest IH]; [reflexivity|]. cbn [allDigits allSafe].
  intros H. apply andb_true_iff in H as [Hc Hr]. rewrite (IH Hr), andb_true_r.
  unfold isSafeChar, isWordChar. rewrite Hc. now rewrite !orb_true_r.
Qed.

Lemma safeLabel_length (label : string) :
  String.length (safeLabel label) = String.length label.
Proof. induction label as [|c rest IH]; [reflexivity|]. cbn. now rewrite IH. Qed.

(** X25.  The label of a screenshot is cleaned character by character: letters,
    digits, the underscore and the hyphen stay, every other character becomes
    an underscore.  The cleaned label has the length of the label, cleaning it
    again changes nothing, and a file name built from it and a numeric time
    stamp holds no character that could leave the screenshots directory
    (no slash, backslash or dot before the extension). *)
Theorem screenshot_label_is_safe (label stamp : string) :
  allDigits stamp = true ->
  allSafe (safeLabel label) = true /\
  String.length (safeLabel label) = String.length label /\
  safeLabel (safeLabel label) = safeLabel label /\
  (allSafe label = true -> safeLabel label = label) /\
  (exists stem, screenshotName label stamp = stem ++ ".png" /\ allSafe stem = true) /\
  (exists stem, fullPageScreenshotName label stamp = stem ++ ".png" /\
                allSafe stem = true) /\
  (forall stem c a b,
     allSafe stem = true -> stem = a ++ String c b ->
     c <> "/"%char /\ c <> "\"%char /\ c <> "."%char).
Proof.
  intros Hd. pose proof (allSafe_safeLabel label) as Hs.
  split; [exact Hs|]. split; [apply safeLabel_length|].
  split; [now apply safeLabel_of_safe|]. split; [apply safeLabel_of_safe|].
  split; [|split].
  - exists (safeLabel label ++ "_" ++ stamp). unfold screenshotName.
    split; [now rewrite !append_assoc|].
    rewrite !allSafe_append, Hs, (allDigits_allSafe stamp Hd). reflexivity.
  - exists (safeLabel label ++ "_full_" ++ stamp). unfold fullPageScreenshotName.
    split; [now rewrite !append_assoc|].
    rewrite !allSafe_append, Hs, (allDigits_allSafe stamp Hd). reflexivity.
  - intros stem c a b Hst E.
    pose proof (allSafe_no_unsafe stem c a b Hst E) as Hc.
    repeat split; intros ->; discriminate.
Qed.

Lemma screenshot_label_is_safe_witness :
  exists stem,
    screenshotName "fail/../step 2" "1700000000000" = stem ++ ".png" /\
    allSafe stem = true.
Proof.
  destruct (screenshot_label_is_safe "fail/../step 2" "1700000000000" eq_refl)
    as [_ [_ [_ [_ [Hn _]]]]].
  exact Hn.
Defined.

End ScreenshotFacts.

(** ** The selector cache *)

Module SelectorCacheFacts.
Import Js SelectorEngine SelectorCache.
Local Open Scope list_scope.

Lemma findEntry_assignFound_same (i : Z) (f : SelectorCacheEntry -> SelectorCacheEntry)
    (cache : list SelectorCacheEntry) (old : SelectorCacheEntry) :
  (forall e, stepIndex (f e) = stepIndex e) ->
  findEntry i cache = Some old ->
  findEntry i (assignFound i f cache) = Some (f old).
Proof.
  intros Hf. unfold findEntry. induction cache as [|e rest IH]; [discriminate|].
  cbn [List.find assignFound]. destruct (stepIndex e =? i) eqn:E.
  - intros [= ->]. cbn [List.find]. now rewrite Hf, E.
  - intros H. cbn [List.find]. rewrite E. now apply IH.
Qed.

Lemma findEntry_assignFound_other (i j : Z)
    (f : SelectorCacheEntry -> SelectorCacheEntry) (cache : list SelectorCacheEntry) :
  (forall e, stepIndex (f e) = stepIndex e) -> j <> i ->
  findEntry j (assignFound i f cache) = findEntry j cache.
Proof.
  intros Hf Hne. unfold findEntry. induction cache as [|e rest IH]; [reflexivity|].
  cbn [List.find assignFound]. destruct (stepIndex e =? i) eqn:E.
  - cbn [List.find]. rewrite Hf. apply Z.eqb_eq in E.
    replace (stepIndex e =? j) with false by (symmetry; apply Z.eqb_neq; lia).
    reflexivity.
  - cbn [List.find]. now rewrite IH.
Qed.

Lemma length_assignFound (i : Z) (f : SelectorCacheEntry -> SelectorCacheEntry)
    (cache : list SelectorCacheEntry) :
  length (assignFound i f cache) = length cache.
Proof.
  induction cache as [|e rest IH]; [reflexivity|]. cbn [assignFound].
  destruct (stepIndex e =? i); cbn [length]; [reflexivity | now rewrite IH].
Qed.

Lemma findEntry_snoc (j : Z) (cache : list SelectorCacheEntry) (e : SelectorCacheEntry) :
  findEntry j (cache ++ [e]) =
  match findEntry j cache with
  | Some x => Some x
  | None => if stepIndex e =? j then Some e else None
  end.
Proof.
  unfold findEntry. induction cache as [|x rest IH]; [reflexivity|].
  cbn [app List.find]. destruct (stepIndex x =? j); [reflexivity | exact IH].
Qed.

Lemma touched_index (selector : string) (strat : Strategy) (now : Z)
    (e : SelectorCacheEntry) :
  stepIndex (touched selector strat now e) = stepIndex e.
Proof. unfold touched. destruct (String.eqb _ _); reflexivity. Qed.

Lemma findEntry_index (i : Z) (cache : list SelectorCacheEntry) (e : SelectorCacheEntry) :
  findEntry i cache = Some e -> stepIndex e = i.
Proof.
  unfold findEntry. intros H. apply find_some in H as [_ H]. now apply Z.eqb_eq.
Qed.

(** X26.  After a success is recorded for a step, the cache answers for that step
    with the selector recorded and the time of the recording.  The count of
    successes is one more than before when the selector is the one already
    cached, in which case the strategy cached stays even if another is
    passed, and it starts again at 1 when the selector is new.  The answers
    for all other steps are unchanged, and the cache grows by one entry only
    when the step had none. *)
Theorem recordSelectorSuccess_then_get (i : Z) (selector : string) (strat : Strategy)
    (now : Z) (file : CacheFile) :
  let file' := recordSelectorSuccess i selector strat now file in
  (exists e,
     getCachedSelector i file' = Some e /\
     stepIndex e = i /\ winningSelector e = selector /\ lastUsed e = now /\
     match getCachedSelector i file with
     | Some old =>
         if String.eqb (winningSelector old) selector
         then successCount e = successCount old + 1 /\ strategy e = strategy old
         else successCount e = 1 /\ strategy e = strat
     | None => successCount e = 1 /\ strategy e = strat
     end) /\
  (forall j, j <> i -> getCachedSelector j file' = getCachedSelector j file) /\
  length (loadSelectorCache file') =
    (length (loadSelectorCache file) +
     match getCachedSelector i file with Some _ => 0 | None => 1 end)%nat.
Proof.
  intros file'. subst file'. unfold recordSelectorSuccess, getCachedSelector.
  destruct (findEntry i (loadSelectorCache file)) as [old|] eqn:Hold;
    cbn [loadSelectorCache saveSelectorCache].
  - split; [|split].
    + exists (touched selector strat now old).
      rewrite (findEntry_assignFound_same i _ _ old (touched_index _ _ _) Hold).
      split; [reflexivity|]. rewrite touched_index.
      split; [now apply (findEntry_index i (loadSelectorCache file))|].
      unfold touched. destruct (String.eqb (winningSelector old) selector) eqn:E.
      * apply String.eqb_eq in E. cbn. auto.
      * cbn. auto.
    + intros j Hj. now apply findEntry_assignFound_other; [apply touched_index|].
    + rewrite length_assignFound. lia.
  - split; [|split].
    + eexists. rewrite findEntry_snoc, Hold. cbn [stepIndex]. rewrite Z.eqb_refl.
      split; [reflexivity|]. cbn. auto.
    + intros j Hj. rewrite findEntry_snoc. cbn [stepIndex].
      replace (i =? j) with false by (symmetry; apply Z.eqb_neq; lia).
      now destruct (findEntry j (loadSelectorCache file)).
    + rewrite length_app. reflexivity.
Qed.

End SelectorCacheFacts.

(** ** The task queue *)

Module TaskQueueFacts.
Import Js TaskQueue.
Local Open Scope list_scope.

Lemma findTask_id (i : string) (tasks : list QueuedTask) (t : QueuedTask) :
  findTask i tasks = Some t -> id t = i /\ In t tasks.
Proof.
  unfold findTask. intros H. apply find_some in H as [Hin H].
  split; [now apply String.eqb_eq | exact Hin].
Qed.

Lemma findTask_fresh (i : string) (tasks : list QueuedTask) :
  findTask i tasks = None <-> forall t, In t tasks -> id t <> i.
Proof.
  unfold findTask. split.
  - intros H t Ht E. pose proof (find_none _ _ H t Ht) as Hn. cbn in Hn.
    apply String.eqb_neq in Hn. contradiction.
  - intros H. induction tasks as [|t rest IH]; [reflexivity|]. cbn [List.find].
    destruct (String.eqb_spec (id t) i) as [E | _].
    + exfalso. apply (H t); [now left | exact E].
    + apply IH. intros t' Ht'. apply H. now right.
Qed.

Lemma findTask_assign_same (i : string) (f : QueuedTask -> QueuedTask)
    (tasks : list QueuedTask) (t : QueuedTask) :
  (forall x, id (f x) = id x) ->
  findTask i tasks = Some t -> findTask i (assignTask i f tasks) = Some (f t).
Proof.
  intros Hf. unfold findTask. induction tasks as [|x rest IH]; [discriminate|].
  cbn [List.find assignTask]. destruct (String.eqb (id x) i) eqn:E.
  - intros [= ->]. cbn [List.find]. now rewrite Hf, E.
  - intros H. cbn [List.find]. rewrite E. now apply IH.
Qed.

Lemma findTask_assign_other (i j : string) (f : QueuedTask -> QueuedTask)
    (tasks : list QueuedTask) :
  (forall x, id (f x) = id x) -> j <> i ->
  findTask j (assignTask i f tasks) = findTask j tasks.
Proof.
  intros Hf Hne. unfold findTask. induction tasks as [|x rest IH]; [reflexivity|].
  cbn [List.find assignTask]. destruct (String.eqb_spec (id x) i) as [E | E].
  - cbn [List.find]. rewrite Hf.
    destruct (String.eqb_spec (id x) j) as [E' | _]; [congruence | reflexivity].
  - cbn [List.find]. now rewrite IH.
Qed.

Lemma spliceTask_snoc_fresh (i : string) (tasks : list QueuedTask) (t : QueuedTask) :
  findTask i tasks = None -> id t = i -> spliceTask i (tasks ++ [t]) = tasks.
Proof.
  intros Hf0 Hid. pose proof (proj1 (findTask_fresh _ _) Hf0) as Hf. clear Hf0.
  induction tasks as [|x rest IH]; cbn [app spliceTask].
  - rewrite Hid, String.eqb_refl. reflexivity.
  - destruct (String.eqb_spec (id x) i) as [E | _].
    + exfalso. apply (Hf x); [now left | exact E].
    + f_equal. apply IH. intros t' Ht'. apply Hf. now right.
Qed.

Lemma findTask_snoc (j : string) (tasks : list QueuedTask) (t : QueuedTask) :
  findTask j (tasks ++ [t]) =
  match findTask j tasks with
  | Some x => Some x
  | None => if String.eqb (id t) j then Some t else None
  end.
Proof.
  unfold findTask. induction tasks as [|x rest IH]; [reflexivity|].
  cbn [app List.find]. destruct (String.eqb (id x) j); [reflexivity | exact IH].
Qed.

(** X27.  A task is added at the end of the queue, ready when no parameter is
    missing and pending otherwise; it is then found by its identifier unless
    an earlier task carries the same one, the tasks already queued are
    unchanged, and dropping a task whose identifier was new gives the queue
    back as it was.  Dropping an identifier the queue does not hold answers
    [false] and writes nothing. *)
Theorem addTask_then_dropTask (uuid : string) (now : Z) (flowName : string)
    (taskParams : gmap string string) (missing : list string) (file : QueueFile) :
  let added := addTask uuid now flowName taskParams missing file in
  loadQueue (fst added) = loadQueue file ++ [snd added] /\
  (status (snd added) = ready <-> missing = []) /\
  (status (snd added) = pending <-> missing <> []) /\
  (In (snd added) (getReadyTasks (fst added)) <-> missing = []) /\
  (findTask uuid (loadQueue file) = None ->
   findTask uuid (loadQueue (fst added)) = Some (snd added) /\
   dropTask uuid (fst added) = (saveQueue (loadQueue file), true)) /\
  (forall j, j <> uuid ->
     findTask j (loadQueue (fst added)) = findTask j (loadQueue file)) /\
  (forall j, findTask j (loadQueue file) = None -> dropTask j file = (file, false)).
Proof.
  intros added. subst added. unfold addTask. cbn [fst snd loadQueue saveQueue].
  split; [reflexivity|]. split; [|split; [|split; [|split; [|split]]]].
  - cbn [status]. destruct missing; split; congruence.
  - cbn [status]. destruct missing; split; congruence.
  - unfold getReadyTasks, getTasksByStatus. cbn [loadQueue saveQueue].
    rewrite filter_In. cbn [status]. split.
    + intros [_ H]. destruct missing; [reflexivity | discriminate].
    + intros ->. split; [apply in_or_app; right; now left | reflexivity].
  - intros Hfresh. split.
    + rewrite findTask_snoc, Hfresh. cbn [id]. now rewrite String.eqb_refl.
    + unfold dropTask. cbn [loadQueue saveQueue].
      rewrite findTask_snoc, Hfresh. cbn [id]. rewrite String.eqb_refl.
      now rewrite spliceTask_snoc_fresh.
  - intros j Hj. rewrite findTask_snoc. cbn [id].
    destruct (String.eqb_spec uuid j) as [E | _]; [congruence|].
    now destruct (findTask j (loadQueue file)).
  - intros j Hj. unfold dropTask. now rewrite Hj.
Qed.

Lemma withParam_id (param value : string) (t : QueuedTask) :
  id (withParam param value t) = id t.
Proof. reflexivity. Qed.

Lemma setAll_found (settings : list (string * string)) :
  forall (i : string) (file : QueueFile) (t : QueuedTask),
    findTask i (loadQueue file) = Some t ->
    findTask i (loadQueue (setAll i settings file)) =
    Some (fold_left (fun t pv => withParam (fst pv) (snd pv) t) settings t).
Proof.
  induction settings as [|[p v] rest IH]; intros i file t Hf; [exact Hf|].
  unfold setAll. cbn [fold_left]. fold (setAll i rest).
  apply IH. unfold setTaskParam. rewrite Hf. cbn [fst snd loadQueue saveQueue].
  now apply findTask_assign_same.
Qed.

Lemma withParams_missing (settings : list (string * string)) :
  forall (t : QueuedTask) (p : string),
    In p (missingParams
            (fold_left (fun t pv => withParam (fst pv) (snd pv) t) settings t)) <->
    In p (missingParams t) /\ ~ In p (map fst settings).
Proof.
  induction settings as [|[q v] rest IH]; intros t p; cbn [fold_left map In].
  - tauto.
  - rewrite IH. cbn [withParam missingParams fst]. rewrite filter_In, negb_true_iff.
    rewrite String.eqb_neq. split.
    + intros [[H1 H2] H3]. split; [exact H1|]. intros [E | H4]; [congruence | contradiction].
    + intros [H1 H2]. split; [split; [exact H1|] |]; intros E; apply H2; auto.
Qed.

Lemma withParams_status (settings : list (string * string)) :
  forall (t : QueuedTask),
    settings <> [] ->
    missingParams (fold_left (fun t pv => withParam (fst pv) (snd pv) t) settings t) = [] ->
    status (fold_left (fun t pv => withParam (fst pv) (snd pv) t) settings t) = ready.
Proof.
  induction settings as [|[q v] rest IH]; intros t Hne Hm; [congruence|].
  cbn [fold_left] in *. destruct rest as [|pv rest'].
  - cbn [fold_left] in *. cbn [withParam status fst snd] in *.
    cbn [withParam missingParams fst] in Hm. now rewrite Hm.
  - apply IH; [discriminate | exact Hm].
Qed.


End TaskQueueFacts.

Module StatusFacts.
Import Js TaskQueue TaskQueueFacts.
Local Open Scope list_scope.

Lemma withStatus_id (s : TaskStatus) (t : QueuedTask) : id (withStatus s t) = id t.
Proof. reflexivity. Qed.

(** X29.  Marking a task as running, done or failed changes the status of the
    first task that carries the identifier and nothing else: the task keeps
    its flow, its parameters and its place, the other tasks and the length
    of the queue stay, and for an unknown identifier nothing is written.  The
    tasks listed for a status are exactly the queued tasks of that status. *)
Theorem updateTaskStatus_changes_status_only (i : string) (s : TaskStatus)
    (file : QueueFile) :
  (findTask i (loadQueue file) = None -> updateTaskStatus i s file = file) /\
  (forall task,
     findTask i (loadQueue file) = Some task ->
     findTask i (loadQueue (updateTaskStatus i s file)) = Some (withStatus s task) /\
     In (withStatus s task) (getTasksByStatus s (updateTaskStatus i s file))) /\
  (forall j, j <> i ->
     findTask j (loadQueue (updateTaskStatus i s file)) = findTask j (loadQueue file)) /\
  length (loadQueue (updateTaskStatus i s file)) = length (loadQueue file) /\
  map id (loadQueue (updateTaskStatus i s file)) = map id (loadQueue file) /\
  (forall t s', In t (getTasksByStatus s' file) <-> In t (loadQueue file) /\ status t = s') /\
  markTaskRunning i file = updateTaskStatus i running file /\
  markTaskDone i file = updateTaskStatus i done file /\
  markTaskFailed i file = updateTaskStatus i failed file.
Proof.
  assert (Hmap : forall tasks, map id (assignTask i (withStatus s) tasks) = map id tasks).
  { induction tasks as [|x rest IH]; [reflexivity|]. cbn [assignTask].
    destruct (String.eqb (id x) i); cbn [map]; [reflexivity | now rewrite IH]. }
  split; [|split; [|split; [|split; [|split; [|split]]]]].
  - intros Hf. unfold updateTaskStatus. now rewrite Hf.
  - intros task Hf. unfold updateTaskStatus. rewrite Hf. cbn [loadQueue saveQueue].
    pose proof (findTask_assign_same i (withStatus s) _ task (withStatus_id s) Hf) as Hfound.
    split; [exact Hfound|].
    unfold getTasksByStatus. cbn [loadQueue saveQueue]. apply filter_In.
    split; [apply (findTask_id i _ _ Hfound)|].
    cbn [withStatus status]. destruct s; reflexivity.
  - intros j Hj. unfold updateTaskStatus.
    destruct (findTask i (loadQueue file)) as [task|]; [|reflexivity].
    cbn [loadQueue saveQueue]. now apply findTask_assign_other.
  - unfold updateTaskStatus.
    destruct (findTask i (loadQueue file)) as [task|]; [|reflexivity].
    cbn [loadQueue saveQueue]. rewrite <- (length_map id), Hmap. apply length_map.
  - unfold updateTaskStatus.
    destruct (findTask i (loadQueue file)) as [task|]; [|reflexivity].
    cbn [loadQueue saveQueue]. apply Hmap.
  - intros t s'. unfold getTasksByStatus. rewrite filter_In.
    split; intros [H1 H2]; (split; [exact H1|]).
    + destruct (status t), s'; (reflexivity || discriminate).
    + rewrite H2. destruct s'; reflexivity.
  - repeat split.
Qed.

End StatusFacts.
